(** * groupcache: a shallow embedding of the cache engine and its proofs

    The development follows the packages of the repository:
    - [groupcache] (byteview.go, sinks.go, groupcache.go, http.go),
    - [lru] (lru/lru.go),
    - [consistenthash] (consistenthash/consistenthash.go),
    - [singleflight] (singleflight/singleflight.go),
    - [peermanager] (internal/app/peermanager).

    Conventions.  Go's [int] and [int64] are integers of 64 bits; they are
    modelled in [Z], and the arithmetic the program performs on them is
    wrapped by [int64] below.  A Go [string] is a sequence of bytes and is
    modelled by [string]; a [[]byte] is a [list byte].  A Go function that
    returns [(v, err)] returns a pair whose second component is an
    [option error], [None] standing for the nil error.  Calls to [log.Printf]
    are left out: they do not touch the state the program computes with. *)

From Stdlib Require Import ZArith List Bool Lia.
From Stdlib.Strings Require Import Ascii String Byte.
From Stdlib Require DecimalString.
From stdpp Require Import gmap strings list fin_maps sorting.

Local Open Scope Z_scope.

(** ** Go values shared by all packages *)

Module golang.

(** Two's complement wrap-around of 64-bit signed arithmetic. *)
Definition int64 (z : Z) : Z := (z + 2 ^ 63) mod 2 ^ 64 - 2 ^ 63.

Definition MaxInt64 : Z := 2 ^ 63 - 1.
Definition MinInt64 : Z := - 2 ^ 63.

(** [len] of a slice and of a string. *)
Definition len {A} (l : list A) : Z := Z.of_nat (length l).
Definition strlen (s : string) : Z := Z.of_nat (String.length s).

(** Values of the interface type [error]: those built by [errors.New],
    and the sentinel [io.EOF]. *)
Inductive error : Type :=
  | errors_New (text : string)
  | io_EOF.

(** The builtin [copy(dst, src)]: copies [min(len(dst), len(src))]
    elements to the front of [dst] and returns their number. *)
Definition copy {A} (dst src : list A) : list A * Z :=
  let n := Nat.min (length dst) (length src) in
  (take n src ++ drop n dst, Z.of_nat n).

(** A slice expression [x[from:]]: it panics ([None]) unless
    [0 <= from <= len(x)]. *)
Definition slice_from {A} (x : list A) (from : Z) : option (list A) :=
  if (0 <=? from) && (from <=? len x) then Some (drop (Z.to_nat from) x)
  else None.

(** The conversions [[]byte(s)] and [string(b)]. *)
Definition bytes_of_string (s : string) : list byte := list_byte_of_string s.
Definition string_of_bytes (b : list byte) : string := string_of_list_byte b.

(** Equality of bytes is decidable. *)
#[global] Instance byte_eq_dec : EqDecision byte.
Proof.
  intros x y. destruct (Byte.eqb x y) eqn:E.
  - left. by apply Byte.byte_dec_bl.
  - right. intros ->. by rewrite Byte.byte_dec_lb in E.
Defined.

(** An index expression [x[i]]: it panics ([None]) unless
    [0 <= i < len(x)]. *)
Definition at_index {A} (x : list A) (i : Z) : option A :=
  if (0 <=? i) && (i <? len x) then x !! Z.to_nat i else None.

(** [make([]T, n)]: [n] zero values. *)
Definition make {A} (zero : A) (n : Z) : list A := replicate (Z.to_nat n) zero.

End golang.

(** ** Package groupcache, byteview.go *)

Module byteview.
Import golang.

(** [ByteView]: [b] is used when it is not nil, [s] otherwise. *)
Record ByteView : Type := mkByteView {
  b : option (list byte);
  s : string
}.

(** The zero value [ByteView{}]. *)
Definition zero : ByteView := {| b := None; s := EmptyString |}.

Definition Len (v : ByteView) : Z :=
  match b v with
  | Some vb => len vb
  | None => strlen (s v)
  end.

Definition ByteSlice (v : ByteView) : list byte :=
  match b v with
  | Some vb => vb
  | None => bytes_of_string (s v)
  end.

(** [SliceFrom]: [v.b[from:]] or [v.s[from:]]; [None] when the slice
    expression panics. *)
Definition SliceFrom (v : ByteView) (from : Z) : option ByteView :=
  match b v with
  | Some vb =>
      vb' ← slice_from vb from; Some {| b := Some vb'; s := EmptyString |}
  | None =>
      sb' ← slice_from (bytes_of_string (s v)) from;
      Some {| b := None; s := string_of_bytes sb' |}
  end.

(** [Copy] returns the new contents of [dest] and the number of bytes
    copied. *)
Definition Copy (v : ByteView) (dest : list byte) : list byte * Z :=
  match b v with
  | Some vb => copy dest vb
  | None => copy dest (bytes_of_string (s v))
  end.

(** [ReadAt(p, off)] returns the new contents of [p], [n] and [err];
    the outer option is [None] if the call panics. *)
Definition ReadAt (v : ByteView) (p : list byte) (off : Z)
  : option (list byte * Z * option error) :=
  if off <? 0 then Some (p, 0, Some (errors_New "view: invalid offset"))
  else if off >=? Len v then Some (p, 0, Some io_EOF)
  else
    v' ← SliceFrom v off;
    let '(p', n) := Copy v' p in
    Some (p', n, if n <? len p then Some io_EOF else None).

(** [String]: [string(v.b)] or [v.s]. *)
Definition String (v : ByteView) : string :=
  match b v with
  | Some vb => string_of_bytes vb
  | None => s v
  end.

(** [At]: [v.b[i]] or [v.s[i]]; [None] when the index expression panics. *)
Definition At (v : ByteView) (i : Z) : option byte :=
  match b v with
  | Some vb => at_index vb i
  | None => at_index (bytes_of_string (s v)) i
  end.

(** The loop [for i, bi := range x { if bi != y[i] { return false } }]
    followed by [return true], of [EqualString] and [EqualBytes], from
    the index [i] on; [None] when [y[i]] panics. *)
Fixpoint range_equal (x y : list byte) (i : Z) : option bool :=
  match x with
  | [] => Some true
  | bi :: x' =>
      yi ← at_index y i;
      if negb (Byte.eqb bi yi) then Some false else range_equal x' y (i + 1)
  end.

Definition EqualString (v : ByteView) (s2 : string) : option bool :=
  match b v with
  | None => Some (bool_decide (s v = s2))
  | Some vb =>
      let l := Len v in
      if negb (strlen s2 =? l) then Some false
      else range_equal vb (bytes_of_string s2) 0
  end.

(** [bytes.Equal] compares the contents of two slices. *)
Definition EqualBytes (v : ByteView) (b2 : list byte) : option bool :=
  match b v with
  | Some vb => Some (bool_decide (vb = b2))
  | None =>
      let l := Len v in
      if negb (len b2 =? l) then Some false
      else range_equal b2 (bytes_of_string (s v)) 0
  end.

Definition Equal (v b2 : ByteView) : option bool :=
  match b b2 with
  | None => EqualString v (s b2)
  | Some bb => EqualBytes v bb
  end.

End byteview.

(** ** Package lru *)

Module lru.
Import golang.

(** container/list.  A list is the sequence of its elements, front first.
    An element ([*list.Element]) is represented by its address; what its
    field [Value] points to is kept in [elems] below. *)
Abbreviation Element := nat.

Definition MoveToFront (e : Element) (l : list Element) : list Element :=
  if decide (e ∈ l) then e :: filter (λ x, x ≠ e) l else l.

Definition Remove (e : Element) (l : list Element) : list Element :=
  filter (λ x, x ≠ e) l.

Definition Back (l : list Element) : option Element := last l.

Section Cache.
(** [Key] is any comparable value; [Value] is what the cache stores;
    [W] is the state the callback [OnEvicted] acts on. *)
Context {Key : Type} `{Countable Key} {Value W : Type}.

Record entry : Type := mkEntry { key : Key; value : Value }.

Record Cache : Type := mkCache {
  MaxEntries : Z;
  OnEvicted : option (Key → Value → W → W);
  ll : list Element;
  cache : option (gmap Key Element);  (* [None] is the nil map *)
  elems : gmap Element entry;         (* [e.Value] of every element *)
  next : Element                      (* the address of the next element *)
}.

(** Operations return [None] when they dereference an element that was
    never allocated; [lru_ok] below excludes it. *)

Definition removeElement (c : Cache) (e : Element) (w : W)
  : option (Cache * W) :=
  kv ← elems c !! e;
  let c' := {| MaxEntries := MaxEntries c; OnEvicted := OnEvicted c;
               ll := Remove e (ll c);
               cache := delete (key kv) <$> cache c;
               elems := elems c; next := next c |} in
  Some (c', match OnEvicted c with
            | Some f => f (key kv) (value kv) w
            | None => w
            end).

Definition RemoveOldest (c : Cache) (w : W) : option (Cache * W) :=
  match cache c with
  | None => Some (c, w)
  | Some _ =>
      match Back (ll c) with
      | Some ele => removeElement c ele w
      | None => Some (c, w)
      end
  end.

Definition Add (c : Cache) (k : Key) (v : Value) (w : W)
  : option (Cache * W) :=
  let '(l0, m0) := match cache c with
                   | None => ([], ∅)
                   | Some m => (ll c, m)
                   end in
  match m0 !! k with
  | Some ee =>
      Some ({| MaxEntries := MaxEntries c; OnEvicted := OnEvicted c;
               ll := MoveToFront ee l0;
               cache := Some m0;
               elems := alter (λ kv, mkEntry (key kv) v) ee (elems c);
               next := next c |}, w)
  | None =>
      let ele := next c in
      let c' := {| MaxEntries := MaxEntries c; OnEvicted := OnEvicted c;
                   ll := ele :: l0;
                   cache := Some (<[k := ele]> m0);
                   elems := <[ele := mkEntry k v]> (elems c);
                   next := S ele |} in
      if negb (MaxEntries c =? 0) && (len (ll c') >? MaxEntries c)
      then RemoveOldest c' w
      else Some (c', w)
  end.

(** [Get] returns the cache and [(value, ok)], here [Some value] on a
    hit and [None] on a miss. *)
Definition Get (c : Cache) (k : Key) : option (Cache * option Value) :=
  match cache c with
  | None => Some (c, None)
  | Some m =>
      match m !! k with
      | Some ele =>
          kv ← elems c !! ele;
          Some ({| MaxEntries := MaxEntries c; OnEvicted := OnEvicted c;
                   ll := MoveToFront ele (ll c);
                   cache := cache c;
                   elems := elems c; next := next c |},
                Some (value kv))
      | None => Some (c, None)
      end
  end.

Definition Len (c : Cache) : Z :=
  match cache c with
  | None => 0
  | Some _ => len (ll c)
  end.

(** [New(maxEntries)]. *)
Definition New (maxEntries : Z) : Cache :=
  {| MaxEntries := maxEntries; OnEvicted := None; ll := [];
     cache := Some ∅; elems := ∅; next := 0%nat |}.

(** The method [Remove] of the cache ([Remove] above is the one of the
    list). *)
Definition Cache_Remove (c : Cache) (k : Key) (w : W) : option (Cache * W) :=
  match cache c with
  | None => Some (c, w)
  | Some m =>
      match m !! k with
      | Some ele => removeElement c ele w
      | None => Some (c, w)
      end
  end.

(** [Clear]: the loop [for _, e := range c.cache] calls the callback on
    the entry of each element, in the order in which the map is visited;
    then the list and the map are set to nil. *)
Definition Clear (c : Cache) (w : W) : option (Cache * W) :=
  w' ← match OnEvicted c, cache c with
       | Some f, Some m =>
           map_fold (λ _ e acc,
                       w ← acc; kv ← elems c !! e;
                       Some (f (key kv) (value kv) w))
                    (Some w) m
       | _, _ => Some w
       end;
  Some ({| MaxEntries := MaxEntries c; OnEvicted := OnEvicted c;
           ll := []; cache := None; elems := elems c; next := next c |}, w').

(** The entries of the cache in recency order. *)
Definition entries (c : Cache) : list entry :=
  omap (λ e, elems c !! e) (ll c).

End Cache.
Global Arguments entry : clear implicits.
Global Arguments Cache _ {_ _} _ _.
End lru.

(** ** Package groupcache, sinks.go *)

Module sinks.
Import golang byteview.

(** The interface [Sink], over the state [S] of an implementation.
    [setView] is present for the implementations that satisfy the
    interface [viewSetter] of [setSinkView].  [SetProto] encodes its
    argument with the protobuf library and is used by no function of
    the engine; it is left out. *)
Class Sink (S : Type) : Type := {
  SetString : string → S → S * option error;
  SetBytes : list byte → S → S * option error;
  view : S → ByteView * option error;
  setView : option (ByteView → S → S * option error)
}.

Definition setSinkView {S} `{Sink S} (dst : S) (v : ByteView)
  : S * option error :=
  match setView with
  | Some f => f v dst
  | None =>
      match b v with
      | Some vb => SetBytes vb dst
      | None => SetString (s v) dst
      end
  end.

(** [stringSink]: [sp] is the string the pointer [sp] points to. *)
Record stringSink : Type := mkStringSink { sp : string; ss_v : ByteView }.

Definition stringSink_SetString (x : string) (k : stringSink)
  : stringSink * option error :=
  ({| sp := x; ss_v := {| b := None; s := x |} |}, None).

#[global] Instance stringSink_Sink : Sink stringSink := {
  SetString := stringSink_SetString;
  SetBytes := λ x, stringSink_SetString (string_of_bytes x);
  view := λ k, (ss_v k, None);
  setView := None
}.

(** [byteViewSink]: [dst] is the view the pointer [dst] points to. *)
Record byteViewSink : Type := mkByteViewSink { dst : ByteView }.

#[global] Instance byteViewSink_Sink : Sink byteViewSink := {
  SetString := λ x _, ({| dst := {| b := None; s := x |} |}, None);
  SetBytes := λ x _, ({| dst := {| b := Some x; s := EmptyString |} |}, None);
  view := λ k, (dst k, None);
  setView := Some (λ v _, ({| dst := v |}, None))
}.

(** [cloneBytes]: a new slice of the length of [x], into which [x] is
    copied. *)
Definition cloneBytes (x : list byte) : list byte :=
  (copy (make x00 (len x)) x).1.

(** [allocBytesSink]: [ab_dst] is the slice the pointer [dst] points to,
    [None] when the pointer is nil. *)
Record allocBytesSink : Type := mkAllocBytesSink {
  ab_dst : option (list byte);
  ab_v : ByteView
}.

Definition AllocatingByteSliceSink (dst : option (list byte))
  : allocBytesSink :=
  {| ab_dst := dst; ab_v := zero |}.

(** [setView] assigns to [*s.dst] without a look at the pointer: it
    panics ([None]) when the pointer is nil. *)
Definition allocBytesSink_setView (v : ByteView) (k : allocBytesSink)
  : option (allocBytesSink * option error) :=
  match ab_dst k with
  | None => None
  | Some _ =>
      Some ({| ab_dst := Some (match b v with
                               | Some vb => cloneBytes vb
                               | None => bytes_of_string (s v)
                               end);
               ab_v := v |}, None)
  end.

Definition allocBytesSink_setBytesOwned (x : list byte) (k : allocBytesSink)
  : allocBytesSink * option error :=
  match ab_dst k with
  | None => (k, Some (errors_New "nil AllocatingByteSliceSink *[]byte dst"))
  | Some _ =>
      ({| ab_dst := Some (cloneBytes x);
          ab_v := {| b := Some x; s := EmptyString |} |}, None)
  end.

Definition allocBytesSink_SetBytes (x : list byte) (k : allocBytesSink)
  : allocBytesSink * option error :=
  allocBytesSink_setBytesOwned (cloneBytes x) k.

Definition allocBytesSink_SetString (x : string) (k : allocBytesSink)
  : allocBytesSink * option error :=
  match ab_dst k with
  | None => (k, Some (errors_New "nil AllocatingByteSliceSink *[]byte dst"))
  | Some _ =>
      ({| ab_dst := Some (bytes_of_string x);
          ab_v := {| b := None; s := x |} |}, None)
  end.

Definition allocBytesSink_view (k : allocBytesSink)
  : ByteView * option error :=
  (ab_v k, None).

(** [setSinkView] on an [allocBytesSink], which has the method
    [setView]. *)
Definition allocBytesSink_setSinkView (k : allocBytesSink) (v : ByteView)
  : option (allocBytesSink * option error) :=
  allocBytesSink_setView v k.

(** [truncBytesSink]: [tb_dst] is the slice the pointer [dst] points to,
    [None] when the pointer is nil. *)
Record truncBytesSink : Type := mkTruncBytesSink {
  tb_dst : option (list byte);
  tb_v : ByteView
}.

Definition TruncatingByteSliceSink (dst : option (list byte))
  : truncBytesSink :=
  {| tb_dst := dst; tb_v := zero |}.

(** The bytes of [x] are copied into the slice [d] that [dst] points to;
    when fewer than [len d] bytes were copied, the slice is cut down to
    the bytes copied. *)
Definition truncate (d x : list byte) : list byte :=
  let '(d', n) := copy d x in
  if n <? len d' then take (Z.to_nat n) d' else d'.

Definition truncBytesSink_setBytesOwned (x : list byte) (k : truncBytesSink)
  : truncBytesSink * option error :=
  match tb_dst k with
  | None => (k, Some (errors_New "nil TruncatingByteSliceSink *[]byte dst"))
  | Some d =>
      ({| tb_dst := Some (truncate d x);
          tb_v := {| b := Some x; s := EmptyString |} |}, None)
  end.

Definition truncBytesSink_SetString (x : string) (k : truncBytesSink)
  : truncBytesSink * option error :=
  match tb_dst k with
  | None => (k, Some (errors_New "nil TruncatingByteSliceSink *[]byte dst"))
  | Some d =>
      ({| tb_dst := Some (truncate d (bytes_of_string x));
          tb_v := {| b := None; s := x |} |}, None)
  end.

#[global] Instance truncBytesSink_Sink : Sink truncBytesSink := {
  SetString := truncBytesSink_SetString;
  SetBytes := λ x, truncBytesSink_setBytesOwned (cloneBytes x);
  view := λ k, (tb_v k, None);
  setView := None
}.

End sinks.

(** ** Package groupcache, groupcache.go *)

Module groupcache.
Import golang byteview sinks.

(** [AtomicInt.Add]. *)
Definition AtomicInt_Add (i n : Z) : Z := int64 (i + n).

Record Stats : Type := mkStats {
  Gets : Z;
  CacheHits : Z;
  PeerLoads : Z;
  PeerErrors : Z;
  Loads : Z;
  LoadsDeduped : Z;
  LocalLoads : Z;
  LocalLoadErrs : Z;
  ServerRequests : Z
}.

(** ** The type [cache]: an [lru.Cache] with byte accounting *)

(** The callback [OnEvicted] installed by [cache.add] is a closure over
    the cache: it updates the fields [nbytes] and [nevict], which are the
    state handed to it. *)
Definition onEvicted (k : string) (val : ByteView) (w : Z * Z) : Z * Z :=
  (int64 (w.1 - int64 (strlen k + Len val)), int64 (w.2 + 1)).

Record cache : Type := mkcache {
  nbytes : Z;
  lru : option (lru.Cache string ByteView (Z * Z));
  nhit : Z;
  nget : Z;
  nevict : Z;
  cacheName : string
}.

(** The literal [&lru.Cache{OnEvicted: ...}] of [cache.add]. *)
Definition lru_literal : lru.Cache string ByteView (Z * Z) :=
  {| lru.MaxEntries := 0; lru.OnEvicted := Some onEvicted;
     lru.ll := []; lru.cache := None; lru.elems := ∅; lru.next := 0%nat |}.

Definition cache_add (c : cache) (k : string) (v : ByteView)
  : option cache :=
  let l := match lru c with
           | Some l => l
           | None => lru_literal
           end in
  '(l', w) ← lru.Add l k v (nbytes c, nevict c);
  Some {| nbytes := int64 (w.1 + int64 (strlen k + Len v));
          lru := Some l';
          nhit := nhit c; nget := nget c; nevict := w.2;
          cacheName := cacheName c |}.

(** [cache.get] returns the cache and [(value, ok)]: [Some value] on a
    hit, [None] on a miss. *)
Definition cache_get (c : cache) (k : string)
  : option (cache * option ByteView) :=
  let c1 := {| nbytes := nbytes c; lru := lru c; nhit := nhit c;
               nget := int64 (nget c + 1); nevict := nevict c;
               cacheName := cacheName c |} in
  match lru c with
  | None => Some (c1, None)
  | Some l =>
      '(l', r) ← lru.Get l k;
      match r with
      | None =>
          Some ({| nbytes := nbytes c1; lru := Some l'; nhit := nhit c1;
                   nget := nget c1; nevict := nevict c1;
                   cacheName := cacheName c1 |}, None)
      | Some vi =>
          Some ({| nbytes := nbytes c1; lru := Some l';
                   nhit := int64 (nhit c1 + 1);
                   nget := nget c1; nevict := nevict c1;
                   cacheName := cacheName c1 |}, Some vi)
      end
  end.

Definition cache_removeOldest (c : cache) : option cache :=
  match lru c with
  | None => Some c
  | Some l =>
      '(l', w) ← lru.RemoveOldest l (nbytes c, nevict c);
      Some {| nbytes := w.1; lru := Some l'; nhit := nhit c;
              nget := nget c; nevict := w.2; cacheName := cacheName c |}
  end.

Definition cache_bytes (c : cache) : Z := nbytes c.

Definition cache_items (c : cache) : Z :=
  match lru c with
  | None => 0
  | Some l => lru.Len l
  end.

(** ** The type [Group] *)

Inductive CacheType : Type := MainCache | HotCache.

(** The counters of [Stats], to name the one an [Add(1)] acts on. *)
Inductive counter : Type :=
  | cGets | cCacheHits | cPeerLoads | cPeerErrors | cLoads
  | cLoadsDeduped | cLocalLoads | cLocalLoadErrs | cServerRequests.

Definition Stats_Add (f : counter) (n : Z) (st : Stats) : Stats :=
  let a := AtomicInt_Add in
  match st with
  | mkStats g ch pl pe l ld ll le sr =>
      match f with
      | cGets => mkStats (a g n) ch pl pe l ld ll le sr
      | cCacheHits => mkStats g (a ch n) pl pe l ld ll le sr
      | cPeerLoads => mkStats g ch (a pl n) pe l ld ll le sr
      | cPeerErrors => mkStats g ch pl (a pe n) l ld ll le sr
      | cLoads => mkStats g ch pl pe (a l n) ld ll le sr
      | cLoadsDeduped => mkStats g ch pl pe l (a ld n) ll le sr
      | cLocalLoads => mkStats g ch pl pe l ld (a ll n) le sr
      | cLocalLoadErrs => mkStats g ch pl pe l ld ll (a le n) sr
      | cServerRequests => mkStats g ch pl pe l ld ll le (a sr n)
      end
  end.

(** [CacheStats], and the method [stats] of a segment. *)
Record CacheStats : Type := mkCacheStats {
  cs_Bytes : Z;
  cs_Items : Z;
  cs_Gets : Z;
  cs_Hits : Z;
  cs_Evictions : Z
}.

Definition cache_stats (c : cache) : CacheStats :=
  {| cs_Bytes := nbytes c; cs_Items := cache_items c; cs_Gets := nget c;
     cs_Hits := nhit c; cs_Evictions := nevict c |}.

Section Engine.
Context {S : Type} `{Sink S}.

(** [Getter.Get(ctx, key, dest)]: the loader acts on the sink and
    returns an error or nil. *)
Definition Getter : Type := string → S → S * option error.

(** [ProtoGetter.Get(ctx, in, out)], as a function of the group and the
    key of the request: it returns the field [Value] of the response
    and an error or nil. *)
Definition ProtoGetter : Type :=
  string → string → option (list byte) * option error.

(** [PeerPicker.PickPeer(key)]: [Some peer] stands for [(peer, true)]
    and [None] for [(nil, false)]. *)
Definition PeerPicker : Type := string → option ProtoGetter.

Definition NoPeers : PeerPicker := λ _, None.

(** [rand] gives the successive results of [Intn(10)], of which
    [rand_next] have been drawn. *)
Record Group : Type := mkGroup {
  name : string;
  getter : Getter;
  peers : PeerPicker;
  cacheBytes : Z;
  mainCache : cache;
  hotCache : cache;
  stats : Stats;
  rand : nat → Z;
  rand_next : nat
}.

(** The zero value of [cache] but for its name, and the group [newGroup]
    builds (the registry of groups and the hooks are left out). *)
Definition cache_literal (n : string) : cache :=
  {| nbytes := 0; lru := None; nhit := 0; nget := 0; nevict := 0;
     cacheName := n |}.

Definition newGroup (n : string) (budget : Z) (gt : Getter) (pk : PeerPicker)
    (rnd : nat → Z) : Group :=
  {| name := n; getter := gt; peers := pk; cacheBytes := budget;
     mainCache := cache_literal "main"; hotCache := cache_literal "hot";
     stats := mkStats 0 0 0 0 0 0 0 0 0; rand := rnd; rand_next := 0%nat |}.

Definition bump (f : counter) (g : Group) : Group :=
  {| name := name g; getter := getter g; peers := peers g;
     cacheBytes := cacheBytes g; mainCache := mainCache g;
     hotCache := hotCache g; stats := Stats_Add f 1 (stats g);
     rand := rand g; rand_next := rand_next g |}.

(** A [*cache] argument is [&g.mainCache] or [&g.hotCache]. *)
Definition get_cache (g : Group) (which : CacheType) : cache :=
  match which with
  | MainCache => mainCache g
  | HotCache => hotCache g
  end.

Definition set_cache (g : Group) (which : CacheType) (c : cache) : Group :=
  {| name := name g; getter := getter g; peers := peers g;
     cacheBytes := cacheBytes g;
     mainCache := match which with MainCache => c | _ => mainCache g end;
     hotCache := match which with HotCache => c | _ => hotCache g end;
     stats := stats g; rand := rand g; rand_next := rand_next g |}.

Definition draw (g : Group) : Group * Z :=
  ({| name := name g; getter := getter g; peers := peers g;
      cacheBytes := cacheBytes g; mainCache := mainCache g;
      hotCache := hotCache g; stats := stats g;
      rand := rand g; rand_next := Datatypes.S (rand_next g) |},
   rand g (rand_next g)).

(** The victim of one iteration of the eviction loop. *)
Definition victim (g : Group) : CacheType :=
  let mainBytes := cache_bytes (mainCache g) in
  let hotBytes := cache_bytes (hotCache g) in
  if hotBytes >? Z.quot mainBytes 8 then HotCache else MainCache.

(** The loop [for { ... }] of [populateCache]; [fuel] bounds the number
    of times its body is entered, and [None] says that the loop has not
    returned within this bound. *)
Fixpoint evict (fuel : nat) (g : Group) : option Group :=
  match fuel with
  | O => None
  | Datatypes.S fuel' =>
      let mainBytes := cache_bytes (mainCache g) in
      let hotBytes := cache_bytes (hotCache g) in
      if int64 (mainBytes + hotBytes) <=? cacheBytes g then Some g
      else
        c' ← cache_removeOldest (get_cache g (victim g));
        evict fuel' (set_cache g (victim g) c')
  end.

Definition populateCache (fuel : nat) (g : Group) (k : string)
    (value : ByteView) (which : CacheType) : option Group :=
  if cacheBytes g <=? 0 then Some g
  else
    c' ← cache_add (get_cache g which) k value;
    evict fuel (set_cache g which c').

Definition lookupCache (g : Group) (k : string)
  : option (Group * (ByteView * bool)) :=
  if cacheBytes g <=? 0 then Some (g, (zero, false))
  else
    '(mc, r) ← cache_get (mainCache g) k;
    let g := set_cache g MainCache mc in
    match r with
    | Some value => Some (g, (value, true))
    | None =>
        '(hc, r) ← cache_get (hotCache g) k;
        let g := set_cache g HotCache hc in
        match r with
        | Some value => Some (g, (value, true))
        | None => Some (g, (zero, false))
        end
    end.

Definition getLocally (g : Group) (k : string) (dest : S)
  : S * (ByteView * option error) :=
  let '(dest, err) := getter g k dest in
  match err with
  | Some e => (dest, (zero, Some e))
  | None => (dest, view dest)
  end.

Definition getFromPeer (fuel : nat) (g : Group) (peer : ProtoGetter)
    (k : string) : option (Group * (ByteView * option error)) :=
  let '(resValue, err) := peer (name g) k in
  match err with
  | Some e => Some (g, (zero, Some e))
  | None =>
      let value := {| b := resValue; s := EmptyString |} in
      let '(g, n) := draw g in
      if n =? 0
      then g ← populateCache fuel g k value HotCache;
           Some (g, (value, None))
      else Some (g, (value, None))
  end.

(** The function [load] hands to [loadGroup.Do].  It returns the group,
    the sink, the variable [destPopulated] it has captured, and its
    results [(interface{}, error)]. *)
Definition load_fn (fuel : nat) (g : Group) (k : string) (dest : S)
  : option (Group * S * bool * (option ByteView * option error)) :=
  let g := bump cLoadsDeduped g in
  '(g, fromPeer) ←
    match peers g k with
    | Some peer =>
        '(g, (value, err)) ← getFromPeer fuel g peer k;
        match err with
        | None => Some (bump cPeerLoads g, Some value)
        | Some _ => Some (bump cPeerErrors g, None)
        end
    | None => Some (g, None)
    end;
  match fromPeer with
  | Some value => Some (g, dest, false, (Some value, None))
  | None =>
      let '(dest, (value, err)) := getLocally g k dest in
      match err with
      | Some e => Some (bump cLocalLoadErrs g, dest, false, (None, Some e))
      | None =>
          let g := bump cLocalLoads g in
          g ← populateCache fuel g k value MainCache;
          Some (g, dest, true, (Some value, None))
      end
  end.

(** [loadGroup.Do(key, fn)] for a call that overlaps no other call of
    the same key: [singleflight.Group.Do] then runs [fn] and returns
    what it returns (see [singleflight] for concurrent callers). *)
Definition flightGroup_Do {A} (k : string) (fn : A) : A := fn.

Definition load (fuel : nat) (g : Group) (k : string) (dest : S)
  : option (Group * S * (ByteView * bool * option error)) :=
  let g := bump cLoads g in
  '(g, dest, destPopulated, (viewi, err)) ←
    flightGroup_Do k (load_fn fuel g k dest);
  match err, viewi with
  | None, Some value => Some (g, dest, (value, destPopulated, None))
  | None, None => None
  | Some e, _ => Some (g, dest, (zero, destPopulated, Some e))
  end.

(** [Get(ctx, key, dest)]; a nil [dest] is [None].  The result is the
    group, the sink and the error returned. *)
Definition Get (fuel : nat) (g : Group) (k : string) (dest : option S)
  : option (Group * option S * option error) :=
  let g := bump cGets g in
  match dest with
  | None => Some (g, None, Some (errors_New "groupcache: nil dest Sink"))
  | Some d =>
      '(g, (value, cacheHit)) ← lookupCache g k;
      if cacheHit : bool
      then
        let g := bump cCacheHits g in
        let '(d, err) := setSinkView d value in
        Some (g, Some d, err)
      else
        '(g, d, (value, destPopulated, err)) ← load fuel g k d;
        match err with
        | Some e => Some (g, Some d, Some e)
        | None =>
            if destPopulated : bool then Some (g, Some d, None)
            else
              let '(d, err) := setSinkView d value in
              Some (g, Some d, err)
        end
  end.

End Engine.
Global Arguments Group _ : clear implicits.
Global Arguments Getter _ : clear implicits.

End groupcache.

(** ** Package consistenthash *)

Module consistenthash.
Import golang.

(** [hash/crc32.ChecksumIEEE], by its definition: the reflected CRC-32 of
    polynomial [0xedb88320], bit by bit. *)
Definition crc32_bit (crc : Z) : Z :=
  if Z.testbit crc 0 then Z.lxor (Z.shiftr crc 1) 0xedb88320
  else Z.shiftr crc 1.

Definition crc32_byte (crc : Z) (x : byte) : Z :=
  Nat.iter 8 crc32_bit (Z.lxor crc (Z.of_N (Byte.to_N x))).

Definition crc32_ChecksumIEEE (data : list byte) : Z :=
  Z.lxor (foldl crc32_byte 0xffffffff data) 0xffffffff.

(** [strconv.Itoa]. *)
Definition Itoa (i : Z) : string :=
  DecimalString.NilEmpty.string_of_int (Z.to_int i).

(** [sort.Ints]: the sorted permutation of its argument. *)
Definition sort_Ints (a : list Z) : list Z := merge_sort Z.le a.

(** [sort.Search(n, f)]: the loop [for i < j] of the binary search, which
    runs at most [n] times. *)
Fixpoint search_loop (fuel : nat) (f : Z → bool) (i j : Z) : Z :=
  match fuel with
  | O => i
  | S fuel' =>
      if i <? j then
        let h := Z.shiftr (i + j) 1 in
        if negb (f h) then search_loop fuel' f (h + 1) j
        else search_loop fuel' f i h
      else i
  end.

Definition sort_Search (n : Z) (f : Z → bool) : Z :=
  search_loop (Z.to_nat n) f 0 n.

(** [Hash]: a function from bytes to [uint32]. *)
Definition Hash : Type := list byte → Z.

Record Map : Type := mkMap {
  hash : Hash;
  replicas : Z;
  keys : list Z;               (* sorted *)
  hashMap : gmap Z string
}.

(** [New(replicas, fn)]; a nil [fn] is [None]. *)
Definition New (n : Z) (fn : option Hash) : Map :=
  {| hash := match fn with Some f => f | None => crc32_ChecksumIEEE end;
     replicas := n; keys := []; hashMap := ∅ |}.

Definition IsEmpty (m : Map) : bool := len (keys m) =? 0.

(** The body of the inner loop of [Add], for the peer [key] and the
    replica [i]. *)
Definition add_replica (key : string) (m : Map) (i : Z) : Map :=
  let h := hash m (bytes_of_string (Itoa i ++ key)) in
  {| hash := hash m; replicas := replicas m;
     keys := keys m ++ [h];
     hashMap := <[h := key]> (hashMap m) |}.

(** The inner loop [for i := 0; i < m.replicas; i++]. *)
Definition add_key (m : Map) (key : string) : Map :=
  foldl (add_replica key) m (seqZ 0 (replicas m)).

Definition Add (m : Map) (ks : list string) : Map :=
  if len ks =? 0 then m
  else
    let m' := foldl add_key m ks in
    {| hash := hash m'; replicas := replicas m';
       keys := sort_Ints (keys m'); hashMap := hashMap m' |}.

(** [m.keys[i]]; the index is in range wherever [Get] uses it. *)
Definition keys_at (m : Map) (i : Z) : Z := default 0 (keys m !! Z.to_nat i).

Definition Get (m : Map) (key : string) : string :=
  if IsEmpty m then EmptyString
  else
    let h := hash m (bytes_of_string key) in
    let idx := sort_Search (len (keys m)) (λ i, keys_at m i >=? h) in
    let idx := if idx =? len (keys m) then 0 else idx in
    default EmptyString (hashMap m !! keys_at m idx).

End consistenthash.

(** ** Package singleflight *)

(** [Group.Do] is run by several goroutines at once.  Its executions are
    modelled by a machine whose steps are the pieces of [Do] that run
    without interference: the section of lines 44 to 59 under the mutex,
    the wait of line 51, the start and the return of [fn] at line 61, the
    [Done] of line 62, the section of lines 65 to 68 under the mutex, and
    the two returns.  A schedule picks the goroutine of each step. *)

Module singleflight.
Section Flight.

(** [R] is the type of the pairs [(interface{}, error)]; [zeroR] is the
    pair [(nil, nil)]. *)
Context {R : Type} (zeroR : R).

(** A [call].  [wg] is the counter of the WaitGroup and [val_err] the
    fields [val] and [err].  The last three fields are not in the program:
    they record the key and the goroutine that made the call, and the
    number of times [fn] has been started for it. *)
Record call : Type := mkCall {
  wg : Z;
  val_err : R;
  ckey : string;
  owner : nat;
  runs : nat
}.

(** Where a goroutine stands in [Do]; [c] is its pointer to a call. *)
Inductive pc : Type :=
  | L44                      (* has called Do, before g.mu.Lock() *)
  | L51 (c : nat)            (* a duplicate, at c.wg.Wait() *)
  | L53 (c : nat)            (* past Wait, before return c.val, c.err *)
  | L61 (c : nat)            (* has stored the call, before fn() *)
  | InFn (c : nat)           (* fn is running *)
  | L62 (c : nat)            (* c.val, c.err assigned, before c.wg.Done() *)
  | L65 (c : nat)            (* before g.mu.Lock(); delete(g.m, key) *)
  | L70 (c : nat)            (* before return c.val, c.err *)
  | Ret (c : nat) (r : R).   (* has returned r, read from the call c *)

(** The group [g.m] ([None] is the nil map), the calls allocated so far by
    their addresses, and the goroutines with the key each has passed to
    [Do]. *)
Record state : Type := mkState {
  m : option (gmap string nat);
  heap : list call;
  threads : list (string * pc)
}.

Definition init (ks : list string) : state :=
  {| m := None; heap := []; threads := (λ k, (k, L44)) <$> ks |}.

Definition goto (σ : state) (t : nat) (k : string) (p : pc) : state :=
  {| m := m σ; heap := heap σ; threads := <[t := (k, p)]> (threads σ) |}.

Definition store (σ : state) (c : nat) (cl : call) : state :=
  {| m := m σ; heap := <[c := cl]> (heap σ); threads := threads σ |}.

(** The next step of the goroutine [t]; [r] is what [fn] returns if the
    step is the return of [fn].  [None]: the goroutine is blocked in
    [Wait], has returned, or does not exist. *)
Definition step (σ : state) (t : nat) (r : R) : option state :=
  '(k, p) ← threads σ !! t;
  match p with
  | L44 =>
      let m0 := default ∅ (m σ) in
      match m0 !! k with
      | Some c =>
          Some {| m := Some m0; heap := heap σ;
                  threads := <[t := (k, L51 c)]> (threads σ) |}
      | None =>
          let c := length (heap σ) in
          Some {| m := Some (<[k := c]> m0);
                  heap := heap σ ++ [mkCall 1 zeroR k t 0];
                  threads := <[t := (k, L61 c)]> (threads σ) |}
      end
  | L51 c =>
      cl ← heap σ !! c;
      if wg cl =? 0 then Some (goto σ t k (L53 c)) else None
  | L53 c =>
      cl ← heap σ !! c; Some (goto σ t k (Ret c (val_err cl)))
  | L61 c =>
      cl ← heap σ !! c;
      Some (goto (store σ c (mkCall (wg cl) (val_err cl) (ckey cl) (owner cl)
                               (S (runs cl)))) t k (InFn c))
  | InFn c =>
      cl ← heap σ !! c;
      Some (goto (store σ c (mkCall (wg cl) r (ckey cl) (owner cl) (runs cl)))
              t k (L62 c))
  | L62 c =>
      cl ← heap σ !! c;
      Some (goto (store σ c (mkCall (wg cl - 1) (val_err cl) (ckey cl)
                               (owner cl) (runs cl))) t k (L65 c))
  | L65 c =>
      Some {| m := delete k <$> m σ; heap := heap σ;
              threads := <[t := (k, L70 c)]> (threads σ) |}
  | L70 c =>
      cl ← heap σ !! c; Some (goto σ t k (Ret c (val_err cl)))
  | Ret _ _ => None
  end.

(** A schedule: the goroutine of each step, with the result of [fn] for
    the steps that end a run of [fn]. *)
Fixpoint run (σ : state) (sched : list (nat * R)) : option state :=
  match sched with
  | [] => Some σ
  | (t, r) :: sched => σ' ← step σ t r; run σ' sched
  end.

(** The entry of the key [k] in [g.m]. *)
Definition inflight (σ : state) (k : string) : option nat :=
  m0 ← m σ; m0 !! k.

End Flight.
Global Arguments call : clear implicits.
Global Arguments pc : clear implicits.
Global Arguments state : clear implicits.
End singleflight.

(** ** Package groupcache, http.go: the pool of HTTP peers *)

Module http.
Import golang.

Definition defaultBasePath : string := "/_groupcache/".
Definition defaultReplicas : Z := 50.

Record HTTPPoolOptions : Type := mkHTTPPoolOptions {
  BasePath : string;
  Replicas : Z;
  HashFn : option consistenthash.Hash
}.

(** [httpGetter], without its transport: the peer it talks to is the one
    of its base URL. *)
Record httpGetter : Type := mkHttpGetter { baseURL : string }.

(** [HTTPPool], without the hooks [Context] and [Transport]. *)
Record HTTPPool : Type := mkHTTPPool {
  self : string;
  opts : HTTPPoolOptions;
  peers : consistenthash.Map;
  httpGetters : gmap string httpGetter
}.

(** [NewHTTPPoolOpts(self, o)]; a nil [o] is [None].  [httpPoolMade] is
    the package variable of this name and [portPickerSet] says whether the
    package variable [portPicker] is set: the function panics ([None])
    when a pool has been made before, and so does its call of
    [RegisterPeerPicker] when a picker has been registered before.  When
    it returns, both variables are set. *)
Definition NewHTTPPoolOpts (httpPoolMade portPickerSet : bool)
    (self0 : string) (o : option HTTPPoolOptions) : option HTTPPool :=
  if httpPoolMade then None
  else
    let o1 := match o with
              | Some o => o
              | None => {| BasePath := EmptyString; Replicas := 0;
                           HashFn := None |}
              end in
    let o2 := if decide (BasePath o1 = EmptyString)
              then {| BasePath := defaultBasePath; Replicas := Replicas o1;
                      HashFn := HashFn o1 |}
              else o1 in
    let o3 := if Replicas o2 =? 0
              then {| BasePath := BasePath o2; Replicas := defaultReplicas;
                      HashFn := HashFn o2 |}
              else o2 in
    if portPickerSet then None
    else
      Some {| self := self0; opts := o3;
              peers := consistenthash.New (Replicas o3) (HashFn o3);
              httpGetters := ∅ |}.

(** The method [Set]: a new ring and a new map of getters are made from
    the peers given. *)
Definition HTTPPool_Set (p : HTTPPool) (ps : list string) : HTTPPool :=
  {| self := self p; opts := opts p;
     peers := consistenthash.Add
                (consistenthash.New (Replicas (opts p)) (HashFn (opts p))) ps;
     httpGetters :=
       foldl (λ m peer,
                <[peer := {| baseURL := peer ++ BasePath (opts p) |}]> m)
             ∅ ps |}.

(** [PickPeer] returns [(peer, ok)]; [p.httpGetters[peer]] is nil
    ([None]) for a peer the map does not hold. *)
Definition PickPeer (p : HTTPPool) (key : string)
  : option httpGetter * bool :=
  if consistenthash.IsEmpty (peers p) then (None, false)
  else
    let peer := consistenthash.Get (peers p) key in
    if decide (peer ≠ self p) then (httpGetters p !! peer, true)
    else (None, false).

End http.

(** ** Package peermanager (internal/app/peermanager) *)

Module peermanager.
Import golang.

(** A [time.Time] is an instant counted in nanoseconds, a [time.Duration]
    an [int64] of nanoseconds; [Time.Sub], and [time.Since] with it,
    saturate at the least and the greatest duration. *)
Definition Time_Sub (t u : Z) : Z := Z.max MinInt64 (Z.min MaxInt64 (t - u)).

(** [time.Since(t)], read when the clock shows [now]. *)
Definition time_Since (now t : Z) : Z := Time_Sub now t.

Definition Second : Z := 1000000000.
Definition DefaultPeerTimeoutDuration : Z := 15 * Second.

(** [sort.Strings]: the sorted permutation of its argument, strings being
    compared byte by byte. *)
Definition string_le (x y : string) : Prop := String.leb x y = true.

#[global] Instance string_le_dec x y : Decision (string_le x y) :=
  bool_eq_dec (String.leb x y) true.

Definition sort_Strings (a : list string) : list string :=
  merge_sort string_le a.

Record PeerEntry : Type := mkPeerEntry {
  GroupcacheAddress : string;
  ApiAddress : string;
  LastSeen : Z
}.

(** [PeerStore].  The field [groupcachePool] is a pointer to the pool of
    groupcache: it is [None] when the pointer is nil, and otherwise holds
    the pool the pointer points to, which the functions below reach
    through this pointer only. *)
Record PeerStore : Type := mkPeerStore {
  peers : gmap string PeerEntry;
  selfApiAddr : string;
  selfGroupcacheAddr : string;
  initialPeerApiAddrs : list string;
  groupcachePool : option http.HTTPPool;
  lastSetGroupcachePeers : list string;
  peerTimeoutDuration : Z
}.

(** [NewPeerStore] stores the pointer [pool] as it is given, nil or not;
    [now] is what [time.Now()] returns. *)
Definition NewPeerStore (selfApi selfGc : string) (initial : list string)
    (pool : option http.HTTPPool) (peerTimeout : Z) (now : Z) : PeerStore :=
  let peerTimeout :=
    if peerTimeout =? 0 then DefaultPeerTimeoutDuration else peerTimeout in
  {| peers := {[ selfGc := mkPeerEntry selfGc selfApi now ]};
     selfApiAddr := selfApi; selfGroupcacheAddr := selfGc;
     initialPeerApiAddrs := initial; groupcachePool := pool;
     lastSetGroupcachePeers := [];
     peerTimeoutDuration := peerTimeout |}.

Definition AddOrUpdatePeer (ps : PeerStore) (gcAddr apiAddr : string)
    (lastSeenTime : Z) : PeerStore * bool :=
  let ps' := {| peers := <[gcAddr := mkPeerEntry gcAddr apiAddr lastSeenTime]>
                           (peers ps);
                selfApiAddr := selfApiAddr ps;
                selfGroupcacheAddr := selfGroupcacheAddr ps;
                initialPeerApiAddrs := initialPeerApiAddrs ps;
                groupcachePool := groupcachePool ps;
                lastSetGroupcachePeers := lastSetGroupcachePeers ps;
                peerTimeoutDuration := peerTimeoutDuration ps |} in
  match peers ps !! gcAddr with
  | None => (ps', true)
  | Some existingEntry =>
      (ps', if decide (ApiAddress existingEntry = apiAddr) then false
            else true)
  end.

(** The body of the loop [for addr, entry := range ps.peers] of
    [GetLivePeerGroupcacheAddrsAndPrune], on [livePeers],
    [updatedInternalPeersMap] and [removedCount].  [now addr] is what the
    clock shows when the entry of [addr] is examined. *)
Definition prune_body (ps : PeerStore) (now : string → Z)
    (addr : string) (entry : PeerEntry)
    (acc : list string * gmap string PeerEntry * Z)
  : list string * gmap string PeerEntry * Z :=
  let '(livePeers, updated, removedCount) := acc in
  if decide (addr = selfGroupcacheAddr ps)
  then (livePeers, <[addr := entry]> updated, removedCount)
  else if time_Since (now addr) (LastSeen entry) <? peerTimeoutDuration ps
  then (livePeers ++ [addr], <[addr := entry]> updated, removedCount)
  else (livePeers, updated, removedCount + 1).

(** The loop visits the entries of the map in an order that is not
    specified, as [map_fold] does. *)
Definition GetLivePeerGroupcacheAddrsAndPrune (ps : PeerStore)
    (now : string → Z) : PeerStore * list string :=
  let '(livePeers, updated, _) :=
    map_fold (prune_body ps now) ([], ∅, 0) (peers ps) in
  ({| peers := updated;
      selfApiAddr := selfApiAddr ps;
      selfGroupcacheAddr := selfGroupcacheAddr ps;
      initialPeerApiAddrs := initialPeerApiAddrs ps;
      groupcachePool := groupcachePool ps;
      lastSetGroupcachePeers := lastSetGroupcachePeers ps;
      peerTimeoutDuration := peerTimeoutDuration ps |},
   sort_Strings livePeers).

Definition GetPeerApiAddress (ps : PeerStore) (groupcacheAddr : string)
  : string * bool :=
  match peers ps !! groupcacheAddr with
  | None => (EmptyString, false)
  | Some entry => (ApiAddress entry, true)
  end.

(** The loop [for i := range a { if a[i] != b[i] { return false } }] of
    [equalSorted], from the index [i] on; [None] when [b[i]] panics. *)
Fixpoint equalSorted_loop (a b : list string) (i : Z) : option bool :=
  match a with
  | [] => Some true
  | ai :: a' =>
      bi ← at_index b i;
      if decide (ai ≠ bi) then Some false else equalSorted_loop a' b (i + 1)
  end.

Definition equalSorted (a b : list string) : option bool :=
  if negb (len a =? len b) then Some false else equalSorted_loop a b 0.

(** [UpdateGroupcachePoolIfNeeded] returns the store and [changed].  The
    call [ps.groupcachePool.Set(...)] locks the mutex of the pool: it
    panics ([None]) when the pointer is nil. *)
Definition UpdateGroupcachePoolIfNeeded (ps : PeerStore) (now : string → Z)
  : option (PeerStore * bool) :=
  let '(ps1, liveGroupcacheAddrs) :=
    GetLivePeerGroupcacheAddrsAndPrune ps now in
  same ← equalSorted liveGroupcacheAddrs (lastSetGroupcachePeers ps1);
  let isDifferent := negb same in
  if isDifferent then
    pool ← groupcachePool ps1;
    Some ({| peers := peers ps1;
             selfApiAddr := selfApiAddr ps1;
             selfGroupcacheAddr := selfGroupcacheAddr ps1;
             initialPeerApiAddrs := initialPeerApiAddrs ps1;
             groupcachePool :=
               Some (http.HTTPPool_Set pool liveGroupcacheAddrs);
             lastSetGroupcachePeers :=
               (copy (make EmptyString (len liveGroupcacheAddrs))
                     liveGroupcacheAddrs).1;
             peerTimeoutDuration := peerTimeoutDuration ps1 |}, true)
  else Some (ps1, false).

End peermanager.

(** * Proofs *)

Section ByteViewFacts.
Import golang byteview.

Lemma len_bytes_of_string (x : string) : len (bytes_of_string x) = strlen x.
Proof.
  unfold len, strlen, bytes_of_string. f_equal.
  induction x as [|a x IH]; simpl; [done|]. f_equal. exact IH.
Qed.

Lemma Len_ByteSlice v : Len v = len (ByteSlice v).
Proof.
  unfold Len, ByteSlice. destruct (b v); [done|].
  by rewrite len_bytes_of_string.
Qed.

Lemma bytes_of_string_of_bytes l :
  bytes_of_string (string_of_bytes l) = l.
Proof. apply list_byte_of_string_of_list_byte. Qed.

(** Inside its bounds [SliceFrom] does not panic and exposes the bytes of
    the view from [from] on. *)
Lemma SliceFrom_ByteSlice v from :
  0 <= from <= Len v ->
  exists v', SliceFrom v from = Some v' /\
             ByteSlice v' = drop (Z.to_nat from) (ByteSlice v).
Proof.
  intros Hr. rewrite Len_ByteSlice in Hr.
  unfold SliceFrom, ByteSlice in *. destruct (b v) as [vb|]; simpl.
  - unfold slice_from.
    destruct (Z.leb_spec 0 from), (Z.leb_spec from (len vb)); try lia.
    simpl. eauto.
  - unfold slice_from.
    destruct (Z.leb_spec 0 from),
      (Z.leb_spec from (len (bytes_of_string (s v)))); try lia.
    simpl. eexists. split; [done|]. simpl.
    by rewrite bytes_of_string_of_bytes.
Qed.

Lemma Copy_ByteSlice v dest :
  Copy v dest = copy dest (ByteSlice v).
Proof. unfold Copy, ByteSlice. by destruct (b v). Qed.

(** C9.  [ReadAt] never panics.  A negative offset is answered by the
    error "view: invalid offset" with no byte read; an offset at or past
    the end of the view by [io.EOF] with no byte read; any other offset
    copies [n = min(len(p), v.Len() - off)] bytes of the view, taken from
    position [off], to the front of [p], and returns [n] together with
    [io.EOF] exactly when [n < len(p)]. *)
Theorem ReadAt_spec (v : ByteView) (p : list byte) (off : Z) :
  (off < 0 ->
     ReadAt v p off = Some (p, 0, Some (errors_New "view: invalid offset")))
  /\ (Len v <= off -> ReadAt v p off = Some (p, 0, Some io_EOF))
  /\ (0 <= off < Len v ->
      let n := Z.min (len p) (Len v - off) in
      ReadAt v p off =
        Some (take (Z.to_nat n) (drop (Z.to_nat off) (ByteSlice v))
                ++ drop (Z.to_nat n) p,
              n,
              if n <? len p then Some io_EOF else None)).
Proof.
  split; [|split].
  - intros Hneg. unfold ReadAt. destruct (Z.ltb_spec off 0); [done | lia].
  - intros Hge. unfold ReadAt. destruct (Z.ltb_spec off 0) as [Hlt|Hnn].
    + pose proof (Len_ByteSlice v). unfold len in *. lia.
    + destruct (Z.geb_spec off (Len v)); [done | lia].
  - intros [Hlo Hhi] n. unfold ReadAt.
    destruct (Z.ltb_spec off 0); [lia|].
    destruct (Z.geb_spec off (Len v)); [lia|].
    destruct (SliceFrom_ByteSlice v off) as (v' & -> & Hv'); [lia|].
    simpl. rewrite Copy_ByteSlice, Hv'. unfold copy.
    assert (Hn : Z.of_nat
              (Nat.min (length p) (length (drop (Z.to_nat off) (ByteSlice v))))
            = n).
    { rewrite length_drop. subst n. rewrite Len_ByteSlice in *.
      unfold len in *. lia. }
    rewrite Hn, <- Hn, !Nat2Z.id. reflexivity.
Qed.

Lemma ReadAt_spec_witness :
  ReadAt {| b := None; s := "hello" |} [x00; x00; x00] 3
  = Some ([x6c; x6f; x00], 2, Some io_EOF).
Proof.
  apply (proj2 (proj2 (ReadAt_spec {| b := None; s := "hello" |}
                         [x00; x00; x00] 3))).
  vm_compute. split; [discriminate | reflexivity].
Defined.

End ByteViewFacts.

(** ** The LRU cache keeps its index and its order in step *)

Section LruFacts.
Import golang lru.
Context {Key : Type} `{Countable Key} {Value W : Type}.
Implicit Types (c : Cache Key Value W) (e : nat) (l : list nat).

(** The invariant of a cache: the order holds no element twice, every
    element of it is allocated, [next] is fresh, and the index maps a key
    to the one element of the order that carries it. *)
Record lru_ok c : Prop := {
  ok_nodup : NoDup (ll c);
  ok_alloc : ∀ e, e ∈ ll c → is_Some (elems c !! e);
  ok_fresh : ∀ e, is_Some (elems c !! e) → (e < next c)%nat;
  ok_index :
    match cache c with
    | None => ll c = []
    | Some m =>
        ∀ k e, m !! k = Some e ↔
               e ∈ ll c ∧ ∃ kv, elems c !! e = Some kv ∧ key kv = k
    end
}.

(** The keys of the order, and the keys of the index. *)
Definition order_keys c : gset Key :=
  list_to_set (key <$> entries c).

Definition index_keys c : gset Key :=
  match cache c with
  | None => ∅
  | Some m => dom m
  end.

Lemma filter_ne_notin e l : e ∉ l → filter (λ x, x ≠ e) l = l.
Proof.
  induction l as [|x l IH]; [done|].
  rewrite not_elem_of_cons. intros [Hx Hl].
  rewrite filter_cons_True by done. by rewrite IH.
Qed.

Lemma Remove_snoc e l : NoDup (l ++ [e]) → Remove e (l ++ [e]) = l.
Proof.
  intros Hnd. apply NoDup_app in Hnd as (_ & Hdisj & _).
  unfold Remove. rewrite filter_app, filter_ne_notin.
  - rewrite filter_cons_False, filter_nil by (intros ?; done).
    by rewrite app_nil_r.
  - intros Hin. apply (Hdisj e Hin). by apply list_elem_of_singleton.
Qed.

Lemma elem_snoc_l e x l : x ∈ l → x ∈ l ++ [e].
Proof. intros Hx. apply elem_of_app. by left. Qed.

Lemma elem_snoc_r e l : e ∈ l ++ [e].
Proof. apply elem_of_app. right. by apply list_elem_of_singleton. Qed.

Lemma Back_snoc e l : Back (l ++ [e]) = Some e.
Proof. unfold Back. apply last_snoc. Qed.

Lemma entries_snoc c l e kv :
  ll c = l ++ [e] → elems c !! e = Some kv →
  entries c = omap (λ x, elems c !! x) l ++ [kv].
Proof.
  intros Hll He. unfold entries. rewrite Hll, omap_app. simpl.
  by rewrite He.
Qed.

Lemma entries_length c : lru_ok c → length (entries c) = length (ll c).
Proof.
  intros [_ Halloc _ _]. unfold entries. revert Halloc.
  generalize (ll c) as l. induction l as [|x l IH]; intros Halloc; [done|].
  simpl. destruct (Halloc x) as [kv ->]; [by left|]. simpl.
  f_equal. apply IH. intros e He. apply Halloc. by right.
Qed.

(** What the callback is applied to when an entry is removed. *)
Definition evicted c (kv : entry Key Value) (w : W) : W :=
  match OnEvicted c with
  | Some f => f (key kv) (value kv) w
  | None => w
  end.

(** [RemoveOldest] on a cache whose order ends with [e]: the element
    leaves the order and the index, and the callback sees its entry. *)
Lemma RemoveOldest_snoc c l e w :
  lru_ok c → ll c = l ++ [e] →
  ∃ kv c',
    elems c !! e = Some kv ∧
    RemoveOldest c w = Some (c', evicted c kv w) ∧
    lru_ok c' ∧ ll c' = l ∧
    entries c = entries c' ++ [kv] ∧
    OnEvicted c' = OnEvicted c ∧ MaxEntries c' = MaxEntries c ∧
    index_keys c' = index_keys c ∖ {[ key kv ]}.
Proof.
  intros Hok Hll. pose proof Hok as [Hnd Halloc Hfresh Hidx].
  destruct (Halloc e) as [kv Hkv]; [rewrite Hll; apply elem_snoc_r|].
  unfold RemoveOldest, removeElement.
  destruct (cache c) as [m|] eqn:Hm;
    [|rewrite Hll in Hidx; by destruct l].
  rewrite Hll, Back_snoc. rewrite Hkv. simpl.
  rewrite Hll in Hnd. rewrite Remove_snoc by done.
  eexists kv, _. split; [done|]. split; [reflexivity|].
  assert (Hel : e ∉ l).
  { apply NoDup_app in Hnd as (_ & Hd & _). intros Hin.
    apply (Hd e Hin). by apply list_elem_of_singleton. }
  split; [|split; [done|split; [|split; [done|split; [done|]]]]].
  - constructor; simpl.
    + by apply NoDup_app in Hnd as (? & _ & _).
    + intros x Hx. apply Halloc. rewrite Hll. by apply elem_snoc_l.
    + done.
    + intros k x. destruct (decide (k = key kv)) as [->|Hne].
      * rewrite lookup_delete_eq. split; [done|].
        intros (Hx & kv' & Hkv' & Hk).
        assert (m !! key kv = Some x) as Hmx.
        { apply Hidx. split; [rewrite Hll; by apply elem_snoc_l|eauto]. }
        assert (m !! key kv = Some e) as Hme.
        { apply Hidx. split; [rewrite Hll; apply elem_snoc_r|eauto]. }
        congruence.
      * rewrite lookup_delete_ne by done. rewrite Hidx, Hll.
        split.
        -- intros (Hx & kv' & Hkv' & Hk). split; [|eauto].
           apply elem_of_app in Hx as [Hx|Hx]; [done|].
           apply list_elem_of_singleton in Hx. subst x. congruence.
        -- intros (Hx & Hrest). split; [by apply elem_snoc_l|done].
  - unfold entries at 2. simpl. by apply (entries_snoc c l e).
  - unfold index_keys. simpl. rewrite Hm. by rewrite dom_delete_L.
Qed.

Lemma omap_ext_in {A B} (f g : A → option B) (l : list A) :
  (∀ x, x ∈ l → f x = g x) → omap f l = omap g l.
Proof.
  induction l as [|x l IH]; intros Hfg; [done|]. cbn.
  rewrite (Hfg x) by (by left).
  assert (Hl : omap f l = omap g l).
  { apply IH. intros y Hy. apply Hfg. by right. }
  destruct (g x); [f_equal|]; exact Hl.
Qed.

(** The order and the index [Add] starts from: those of the cache, or
    the empty ones it makes when the map is nil. *)
Lemma Add_start c :
  lru_ok c →
  ∃ m0, (match cache c with None => ([], ∅) | Some m => (ll c, m) end)
        = (ll c, m0)
        ∧ index_keys c = dom m0
        ∧ ∀ k e, m0 !! k = Some e ↔
                 e ∈ ll c ∧ ∃ kv, elems c !! e = Some kv ∧ key kv = k.
Proof.
  intros [_ _ _ Hidx]. unfold index_keys.
  destruct (cache c) as [m|]; [by exists m|].
  exists ∅. rewrite Hidx. split; [done|]. split; [by rewrite dom_empty_L|].
  intros k e. rewrite lookup_empty. split; [done|].
  intros [Hin _]. by apply elem_of_nil in Hin.
Qed.

(** [Add] of a key the index does not hold, in a cache without a bound
    on its entries: a new element is put at the front. *)
Lemma Add_fresh c k v w :
  lru_ok c → k ∉ index_keys c → MaxEntries c = 0 →
  ∃ c', Add c k v w = Some (c', w) ∧ lru_ok c' ∧
        entries c' = mkEntry k v :: entries c ∧
        OnEvicted c' = OnEvicted c ∧ MaxEntries c' = 0 ∧
        index_keys c' = {[ k ]} ∪ index_keys c.
Proof.
  intros Hok Hk Hmax. pose proof Hok as [Hnd Halloc Hfresh _].
  destruct (Add_start c Hok) as (m0 & Hst & Hdom & Hidx).
  rewrite Hdom in Hk. apply not_elem_of_dom in Hk.
  unfold Add. rewrite Hst, Hk, Hmax. simpl.
  assert (Hnext : ∀ e, e ∈ ll c → e ≠ next c).
  { intros e He%Halloc%Hfresh. lia. }
  eexists. split; [reflexivity|].
  split; [|split; [|split; [done|split; [done|]]]].
  - constructor; simpl.
    + constructor; [|done]. intros Hin. by apply (Hnext _ Hin).
    + intros e [->|He]%elem_of_cons.
      * rewrite lookup_insert_eq. eauto.
      * rewrite lookup_insert_ne by (symmetry; by apply Hnext). auto.
    + intros e. destruct (decide (e = next c)) as [->|Hne]; [lia|].
      rewrite lookup_insert_ne by done. intros He%Hfresh. lia.
    + intros k' e. split.
      * destruct (decide (k' = k)) as [->|Hne].
        -- rewrite lookup_insert_eq. intros [= <-]. split; [by left|].
           rewrite lookup_insert_eq. eauto.
        -- rewrite lookup_insert_ne by done.
           intros (He & kv & Hkv & Hkey)%Hidx. split; [by right|].
           rewrite lookup_insert_ne by (symmetry; by apply Hnext). eauto.
      * intros (He & kv & Hkv & Hkey).
        destruct (decide (e = next c)) as [->|Hne].
        -- rewrite lookup_insert_eq in Hkv. injection Hkv as <-.
           simpl in Hkey. subst k'. by rewrite lookup_insert_eq.
        -- rewrite lookup_insert_ne in Hkv by done.
           apply elem_of_cons in He as [?|He]; [done|].
           assert (Hm : m0 !! k' = Some e) by (apply Hidx; eauto).
           rewrite lookup_insert_ne; [done|]. congruence.
  - unfold entries. simpl. rewrite lookup_insert_eq. simpl. f_equal.
    apply omap_ext_in. intros e He.
    rewrite lookup_insert_ne by (symmetry; by apply Hnext). done.
  - unfold index_keys at 1. simpl. by rewrite dom_insert_L, Hdom.
Qed.

(** [Get] of a key the index does not hold leaves the cache as it is. *)
Lemma Get_miss c k :
  k ∉ index_keys c → Get c k = Some (c, None).
Proof.
  unfold index_keys, Get. destruct (cache c) as [m|]; [|done].
  intros Hk%not_elem_of_dom. by rewrite Hk.
Qed.

(** [Get] does not panic, and misses exactly the keys that are not in
    the index. *)
Lemma Get_returns c k :
  lru_ok c →
  ∃ c' r, Get c k = Some (c', r) ∧
          (r = None ↔ k ∉ index_keys c) ∧ (r = None → c' = c).
Proof.
  intros [_ Halloc _ Hidx]. unfold index_keys, Get.
  destruct (cache c) as [m|]; [|by eexists _, _].
  destruct (m !! k) as [ele|] eqn:Hk.
  - apply Hidx in Hk as (Hin & kv & Hkv & Hkey). rewrite Hkv. simpl.
    eexists _, _. split; [done|]. split; [|done].
    split; [done|]. intros Hn. exfalso. apply Hn.
    apply elem_of_dom.
    assert (m !! k = Some ele) as Hm by (apply Hidx; eauto).
    by rewrite Hm.
  - eexists _, _. split; [done|]. split; [|done].
    split; [|done]. intros _. by apply not_elem_of_dom.
Qed.

Lemma MoveToFront_split e (l1 l2 : list nat) :
  NoDup (l1 ++ e :: l2) → MoveToFront e (l1 ++ e :: l2) = e :: l1 ++ l2.
Proof.
  intros Hnd. unfold MoveToFront.
  rewrite decide_True by (apply elem_of_app; right; by left).
  apply NoDup_app in Hnd as (_ & Hdisj & [Hne2 _]%NoDup_cons).
  rewrite filter_app, filter_cons_False by (intros ?; done).
  rewrite !filter_ne_notin; [done|done|].
  intros Hin. apply (Hdisj e Hin). by left.
Qed.

Lemma MoveToFront_elem e x l : x ∈ MoveToFront e l ↔ x ∈ l.
Proof.
  unfold MoveToFront. case_decide as He; [|done].
  rewrite elem_of_cons, list_elem_of_filter.
  destruct (decide (x = e)) as [->|Hne]; naive_solver.
Qed.

Lemma MoveToFront_NoDup e l : NoDup l → NoDup (MoveToFront e l).
Proof.
  intros Hnd. unfold MoveToFront. case_decide; [|done].
  constructor; [|by apply NoDup_filter].
  rewrite list_elem_of_filter. naive_solver.
Qed.

(** [Add] of a key the index holds: its element moves to the front with
    the new value, nothing is evicted and the callback is not called. *)
Lemma Add_present c k v w :
  lru_ok c → k ∈ index_keys c →
  ∃ c' old es1 es2,
    Add c k v w = Some (c', w) ∧ lru_ok c'
    ∧ entries c = es1 ++ old :: es2 ∧ key old = k
    ∧ entries c' = mkEntry k v :: es1 ++ es2
    ∧ OnEvicted c' = OnEvicted c ∧ MaxEntries c' = MaxEntries c
    ∧ index_keys c' = index_keys c.
Proof.
  intros Hok Hk. pose proof Hok as [Hnd Halloc Hfresh Hidx].
  unfold index_keys in Hk. unfold Add.
  destruct (lru.cache c) as [m|] eqn:Hm; [|by apply elem_of_empty in Hk].
  apply elem_of_dom in Hk as [ee Hee]. rewrite Hee.
  pose proof Hee as (Hin & old & Hold & Hkey)%Hidx.
  apply list_elem_of_split in Hin as (a1 & a2 & Hll).
  rewrite Hll in Hnd.
  assert (Hne : ∀ x, x ∈ a1 ++ a2 → x ≠ ee).
  { apply NoDup_app in Hnd as (_ & Hdisj & [Hne2 _]%NoDup_cons).
    intros x [Hx|Hx]%elem_of_app ->; [|done].
    apply (Hdisj ee Hx). by left. }
  assert (Hother : ∀ x, x ≠ ee →
            alter (λ kv, mkEntry (key kv) v) ee (elems c) !! x
            = elems c !! x).
  { intros x Hx. by rewrite lookup_alter_ne. }
  assert (Hself : alter (λ kv, mkEntry (key kv) v) ee (elems c) !! ee
                  = Some (mkEntry k v)).
  { rewrite lookup_alter_eq, Hold. simpl. by rewrite Hkey. }
  eexists _, old, (omap (λ x, elems c !! x) a1),
    (omap (λ x, elems c !! x) a2).
  split; [reflexivity|].
  split; [|split; [|split; [done|split; [|split; [done|split; [done|]]]]]].
  - constructor; cbn [lru.ll lru.elems lru.next lru.cache].
    + apply MoveToFront_NoDup. by rewrite Hll.
    + intros e He%MoveToFront_elem%Halloc. by apply lookup_alter_is_Some.
    + intros e He%lookup_alter_is_Some. by apply Hfresh.
    + intros k' e. rewrite Hidx, MoveToFront_elem.
      destruct (decide (e = ee)) as [->|Hx].
      * rewrite Hself, Hold. split.
        -- intros (? & kv & [= <-] & <-). split; [done|]. by eexists.
        -- intros (? & kv & [= <-] & <-). split; [done|]. by eexists.
      * by rewrite Hother.
  - unfold entries. rewrite Hll, omap_app. simpl. by rewrite Hold.
  - unfold entries. simpl. rewrite Hll, MoveToFront_split by done.
    simpl. rewrite Hself. f_equal. rewrite <- omap_app.
    apply omap_ext_in. intros x Hx. rewrite Hother; [done|by apply Hne].
  - unfold index_keys. simpl. by rewrite Hm.
Qed.

(** [Get] keeps the invariant and the entries, whose order it may
    change. *)
Lemma Get_ok c k c' r :
  lru_ok c → Get c k = Some (c', r) →
  lru_ok c' ∧ index_keys c' = index_keys c ∧ entries c' ≡ₚ entries c
  ∧ OnEvicted c' = OnEvicted c ∧ MaxEntries c' = MaxEntries c.
Proof.
  intros Hok. pose proof Hok as [Hnd Halloc Hfresh Hidx]. unfold Get.
  destruct (lru.cache c) as [m|] eqn:Hm; [|by intros [= <- <-]].
  destruct (m !! k) as [ele|] eqn:Hk; [|by intros [= <- <-]].
  pose proof Hk as (Hin & kv & Hkv & Hkey)%Hidx. rewrite Hkv. simpl.
  intros [= <- <-].
  split; [|split; [|split; [|done]]].
  - constructor; cbn [lru.ll lru.elems lru.next lru.cache].
    + by apply MoveToFront_NoDup.
    + intros e He%MoveToFront_elem. by apply Halloc.
    + done.
    + intros k' e. by rewrite Hidx, MoveToFront_elem.
  - unfold index_keys. simpl. by rewrite ?Hm.
  - unfold entries. simpl.
    apply list_elem_of_split in Hin as (a1 & a2 & Hll).
    rewrite Hll in Hnd. rewrite Hll, MoveToFront_split by done.
    apply omap_Permutation. by rewrite Permutation_middle.
Qed.

(** [RemoveOldest] does not panic and keeps the invariant. *)
Lemma RemoveOldest_ok c w :
  lru_ok c →
  ∃ c' w', RemoveOldest c w = Some (c', w') ∧ lru_ok c'
           ∧ OnEvicted c' = OnEvicted c ∧ MaxEntries c' = MaxEntries c
           ∧ (ll c = [] → c' = c ∧ w' = w).
Proof.
  intros Hok. destruct (ll c) as [|x l _] eqn:Hll using rev_ind.
  - exists c, w. unfold RemoveOldest. rewrite Hll.
    by destruct (lru.cache c).
  - destruct (RemoveOldest_snoc c l x w Hok Hll)
      as (kv & c' & _ & Hr & Hok' & _ & _ & Hcb & Hmax & _).
    exists c', (evicted c kv w). repeat (split; [done|]).
    intros Hnil. by destruct l.
Qed.

(** The keys of the index are the keys of the order. *)
Lemma index_keys_order_keys c : lru_ok c → index_keys c = order_keys c.
Proof.
  intros [_ Halloc _ Hidx]. unfold index_keys, order_keys, entries.
  destruct (lru.cache c) as [m|]; [|by rewrite Hidx].
  apply set_eq. intros k. rewrite elem_of_dom, elem_of_list_to_set.
  rewrite list_elem_of_fmap. split.
  - intros [e (Hin & kv & Hkv & Hk)%Hidx]. exists kv. split; [done|].
    apply list_elem_of_omap. by exists e.
  - intros (kv & -> & (e & Hin & Hkv)%list_elem_of_omap).
    exists e. apply Hidx. split; [done|]. by exists kv.
Qed.

End LruFacts.

(** ** Byte accounting of a cache segment *)

Section CacheFacts.
Import golang lru byteview groupcache.
Implicit Types (c : cache) (kv : entry string ByteView).

Lemma int64_id z : MinInt64 <= z <= MaxInt64 → int64 z = z.
Proof.
  unfold int64, MinInt64, MaxInt64. intros Hz.
  rewrite Z.mod_small by lia. lia.
Qed.

(** The size charge of an entry, and of a list of entries. *)
Definition charge kv : Z := strlen (key kv) + Len (value kv).

Definition total (l : list (entry string ByteView)) : Z :=
  foldr (λ kv a, charge kv + a) 0 l.

Definition cache_entries c : list (entry string ByteView) :=
  match lru c with
  | None => []
  | Some l => entries l
  end.

Definition cache_keys c : gset string :=
  match lru c with
  | None => ∅
  | Some l => index_keys l
  end.

Definition cache_total c : Z := total (cache_entries c).

(** A segment is accounted when its LRU cache is well formed and carries
    the callback of [cache.add], and [nbytes] is the sum of the charges
    of its entries. *)
Record cache_ok c : Prop := {
  co_lru : match lru c with
           | None => True
           | Some l => lru_ok l ∧ OnEvicted l = Some onEvicted
                       ∧ MaxEntries l = 0
           end;
  co_bytes : nbytes c = cache_total c;
  co_range : cache_total c <= MaxInt64
}.

Lemma Len_nonneg v : 0 <= Len v.
Proof. unfold Len, len, strlen. destruct (b v); lia. Qed.

Lemma charge_nonneg kv : 0 <= charge kv.
Proof. unfold charge, strlen. pose proof (Len_nonneg (value kv)). lia. Qed.

Lemma total_nonneg l : 0 <= total l.
Proof.
  induction l as [|kv l IH]; simpl; [done|].
  pose proof (charge_nonneg kv). lia.
Qed.

Lemma total_app l1 l2 : total (l1 ++ l2) = total l1 + total l2.
Proof. induction l1 as [|kv l1 IH]; simpl; lia. Qed.

Lemma total_pos_nonempty l : 0 < total l → l ≠ [].
Proof. by intros Hpos ->. Qed.

Lemma lru_ok_new : lru_ok lru_literal.
Proof.
  constructor; simpl; [constructor| | |done].
  - intros e He. by apply elem_of_nil in He.
  - intros e [x Hx]. by rewrite lookup_empty in Hx.
Qed.

(** [cache.add] of a key the segment does not hold. *)
Lemma cache_add_fresh c k v :
  cache_ok c → k ∉ cache_keys c →
  cache_total c + (strlen k + Len v) <= MaxInt64 →
  ∃ c', cache_add c k v = Some c' ∧ cache_ok c' ∧
        cache_entries c' = mkEntry k v :: cache_entries c ∧
        nget c' = nget c ∧ nhit c' = nhit c ∧ nevict c' = nevict c.
Proof.
  intros [Hlru Hbytes Hrange] Hk Hsum.
  pose proof (total_nonneg (cache_entries c)) as Htot.
  pose proof (Len_nonneg v) as Hv.
  assert (Hs : 0 <= strlen k) by (unfold strlen; lia).
  unfold cache_add, cache_total, cache_entries, cache_keys in *.
  set (l := match lru c with Some l => l | None => lru_literal end).
  assert (Hl : lru_ok l ∧ OnEvicted l = Some onEvicted ∧ MaxEntries l = 0
               ∧ (k ∉ index_keys l)
               ∧ entries l = match lru c with
                             | Some l => entries l | None => [] end).
  { subst l. destruct (lru c) as [l|].
    - destruct Hlru as (? & ? & ?). done.
    - split; [apply lru_ok_new|]. repeat split; try done. }
  destruct Hl as (Hok & Hcb & Hmax & Hkl & Hent).
  destruct (Add_fresh l k v (nbytes c, nevict c) Hok Hkl Hmax)
    as (l' & -> & Hok' & Hent' & Hcb' & Hmax' & _).
  simpl. eexists. split; [reflexivity|].
  split; [|unfold cache_entries; simpl; by rewrite Hent', Hent].
  constructor; unfold cache_total, cache_entries; simpl.
  - rewrite Hcb', Hcb. done.
  - rewrite Hent', Hent. simpl. unfold charge. simpl.
    rewrite Hbytes. unfold MaxInt64, MinInt64 in *.
    rewrite (int64_id (strlen k + Len v)) by (unfold MaxInt64, MinInt64; lia).
    rewrite int64_id by (unfold MaxInt64, MinInt64; lia). lia.
  - rewrite Hent', Hent. simpl. unfold charge. simpl. lia.
Qed.

(** [cache.removeOldest] on a segment whose oldest entry is [kv]. *)
Lemma cache_removeOldest_snoc c rest kv :
  cache_ok c → cache_entries c = rest ++ [kv] →
  ∃ c', cache_removeOldest c = Some c' ∧ cache_ok c' ∧
        cache_entries c' = rest ∧
        nbytes c' = nbytes c - charge kv.
Proof.
  intros [Hlru Hbytes Hrange] Hent.
  unfold cache_removeOldest, cache_total, cache_entries in *.
  destruct (lru c) as [l|]; [|by destruct rest].
  destruct Hlru as (Hok & Hcb & Hmax).
  assert (Hlen : length (ll l) = length (rest ++ [kv])).
  { by rewrite <- Hent, entries_length. }
  destruct (ll l) as [|x0 l0] eqn:Hll using rev_ind;
    [rewrite length_app in Hlen; simpl in Hlen; lia|].
  clear IHl0.
  destruct (RemoveOldest_snoc l l0 x0 (nbytes c, nevict c) Hok Hll)
    as (kv' & l' & Hkv' & -> & Hok' & Hll' & Hent' & Hcb' & Hmax' & _).
  rewrite Hent in Hent'. apply app_inj_tail in Hent' as [-> <-].
  pose proof (total_nonneg (entries l')) as Htot.
  pose proof (charge_nonneg kv) as Hch.
  rewrite Hent, total_app in Hbytes, Hrange. simpl in Hbytes, Hrange.
  assert (Hnb : (evicted l kv (nbytes c, nevict c)).1
                = nbytes c - charge kv).
  { unfold evicted. rewrite Hcb. unfold onEvicted. simpl.
    fold (charge kv).
    rewrite (int64_id (charge kv)) by (unfold MaxInt64, MinInt64 in *; lia).
    rewrite int64_id by (unfold MaxInt64, MinInt64 in *; lia). done. }
  simpl. eexists. split; [reflexivity|].
  split; [|split; [done|by rewrite Hnb]].
  constructor; unfold cache_total, cache_entries; simpl.
  - by rewrite Hcb', Hmax'.
  - rewrite Hnb. lia.
  - lia.
Qed.

(** [cache.add] of a key the segment holds already: the entry is
    replaced, and [nbytes] grows by the charge of the new entry while the
    charge of the old one is not taken off. *)
Lemma cache_add_present c k v :
  cache_ok c → k ∈ cache_keys c →
  cache_total c + (strlen k + Len v) <= MaxInt64 →
  ∃ c' old es1 es2,
    cache_add c k v = Some c'
    ∧ cache_entries c = es1 ++ old :: es2 ∧ key old = k
    ∧ cache_entries c' = mkEntry k v :: es1 ++ es2
    ∧ nbytes c' = cache_total c' + charge old
    ∧ cache_keys c' = cache_keys c.
Proof.
  intros [Hlru Hbytes Hrange] Hk Hsum.
  pose proof (total_nonneg (cache_entries c)) as Htot.
  pose proof (Len_nonneg v) as Hv.
  assert (Hs : 0 <= strlen k) by (unfold strlen; lia).
  unfold cache_add, cache_total, cache_entries, cache_keys in *.
  destruct (groupcache.lru c) as [l|]; [|by apply elem_of_empty in Hk].
  destruct Hlru as (Hok & Hcb & Hmax).
  destruct (Add_present l k v (nbytes c, nevict c) Hok Hk)
    as (l' & old & es1 & es2 & -> & Hok' & Hent & Hkey & Hent' & _ & _ & Hkeys).
  simpl. eexists _, old, es1, es2. split; [reflexivity|]. simpl.
  repeat (split; [done|]). split; [|done].
  rewrite Hent'. rewrite Hent in Hbytes, Hsum, Htot.
  rewrite total_app in *. simpl in *. rewrite total_app.
  unfold charge at 1. simpl.
  pose proof (total_nonneg es1). pose proof (total_nonneg es2).
  pose proof (charge_nonneg old).
  rewrite (int64_id (strlen k + Len v)) by (unfold MaxInt64, MinInt64 in *; lia).
  rewrite int64_id by (unfold MaxInt64, MinInt64 in *; lia). lia.
Qed.

(** The operations of a segment, and a sequence of them. *)
Inductive op : Type :=
  | OpAdd (k : string) (v : ByteView)
  | OpGet (k : string)
  | OpRemoveOldest.

Definition apply_op (c : cache) (o : op) : option cache :=
  match o with
  | OpAdd k v => cache_add c k v
  | OpGet k => fst <$> cache_get c k
  | OpRemoveOldest => cache_removeOldest c
  end.

Fixpoint apply_ops (c : cache) (ops : list op) : option cache :=
  match ops with
  | [] => Some c
  | o :: ops => c' ← apply_op c o; apply_ops c' ops
  end.

(** The LRU cache of a segment is well formed and carries the callback of
    [cache.add]. *)
Definition cache_wf c : Prop :=
  match groupcache.lru c with
  | None => True
  | Some l => lru_ok l ∧ OnEvicted l = Some onEvicted ∧ MaxEntries l = 0
  end.

Lemma apply_op_wf c o :
  cache_wf c → ∃ c', apply_op c o = Some c' ∧ cache_wf c'.
Proof.
  unfold cache_wf. intros Hwf. destruct o as [k v|k|]; simpl.
  - unfold cache_add.
    set (l := match groupcache.lru c with Some l => l | None => lru_literal end).
    assert (Hl : lru_ok l ∧ OnEvicted l = Some onEvicted ∧ MaxEntries l = 0).
    { subst l. destruct (groupcache.lru c); [done|].
      split; [apply lru_ok_new|done]. }
    destruct Hl as (Hok & Hcb & Hmax).
    destruct (decide (k ∈ index_keys l)) as [Hk|Hk].
    + destruct (Add_present l k v (nbytes c, nevict c) Hok Hk)
        as (l' & _ & _ & _ & -> & Hok' & _ & _ & _ & Hcb' & Hmax' & _).
      simpl. eexists. split; [reflexivity|]. simpl.
      by rewrite Hcb', Hmax', Hcb, Hmax.
    + destruct (Add_fresh l k v (nbytes c, nevict c) Hok Hk Hmax)
        as (l' & -> & Hok' & _ & Hcb' & Hmax' & _).
      simpl. eexists. split; [reflexivity|]. simpl. by rewrite Hcb', Hcb.
  - unfold cache_get. destruct (groupcache.lru c) as [l|]; [|by eexists].
    destruct Hwf as (Hok & Hcb & Hmax).
    destruct (Get_returns l k Hok) as (l' & r & Hget & _). rewrite Hget.
    destruct (Get_ok l k l' r Hok Hget) as (Hok' & _ & _ & Hcb' & Hmax').
    simpl. destruct r; simpl; eexists; (split; [reflexivity|]); simpl;
      by rewrite Hcb', Hmax', Hcb, Hmax.
  - unfold cache_removeOldest.
    destruct (groupcache.lru c) as [l|] eqn:Hl; [|exists c; by rewrite Hl].
    destruct Hwf as (Hok & Hcb & Hmax).
    destruct (RemoveOldest_ok l (nbytes c, nevict c) Hok)
      as (l' & w' & -> & Hok' & Hcb' & Hmax' & _).
    simpl. eexists. split; [reflexivity|]. simpl.
    by rewrite Hcb', Hmax', Hcb, Hmax.
Qed.

(** After any sequence of [add], [get] and [removeOldest] on a new
    segment, adds of a key the segment holds included, no operation has
    panicked and the keys of the index are the keys of the order. *)
Lemma segment_keys_agree n ops :
  ∃ c, apply_ops (cache_literal n) ops = Some c
       ∧ cache_keys c = list_to_set (key <$> cache_entries c).
Proof.
  assert (Hgen : ∀ c, cache_wf c →
            ∃ c', apply_ops c ops = Some c' ∧ cache_wf c').
  { induction ops as [|o ops IH]; intros c Hwf; simpl; [by exists c|].
    destruct (apply_op_wf c o Hwf) as (c1 & -> & Hwf1). simpl.
    by apply IH. }
  destruct (Hgen (cache_literal n)) as (c & Hrun & Hwf); [done|].
  exists c. split; [done|]. unfold cache_wf in Hwf.
  unfold cache_keys, cache_entries.
  destruct (groupcache.lru c) as [l|]; [|done].
  destruct Hwf as (Hok & _). by apply index_keys_order_keys.
Qed.

End CacheFacts.

(** ** The byte budget of a group *)

Section BudgetFacts.
Import golang lru byteview sinks groupcache.
Context {S : Type} `{Sink S}.
Implicit Types (g : Group S) (which : CacheType).

(** Both segments are accounted, and their charges add up to an
    [int64]. *)
Record group_ok g : Prop := {
  go_main : cache_ok (mainCache g);
  go_hot : cache_ok (hotCache g);
  go_range : cache_total (mainCache g) + cache_total (hotCache g)
             <= MaxInt64
}.

(** The number of entries of the two segments. *)
Definition items g : nat :=
  (length (cache_entries (mainCache g))
   + length (cache_entries (hotCache g)))%nat.

Lemma get_set_cache g which c : get_cache (set_cache g which c) which = c.
Proof. by destruct which. Qed.

Lemma group_ok_sum g :
  group_ok g →
  int64 (cache_bytes (mainCache g) + cache_bytes (hotCache g))
  = cache_total (mainCache g) + cache_total (hotCache g).
Proof.
  intros [[_ Hm _] [_ Hh _] Hr]. unfold cache_bytes. rewrite Hm, Hh.
  pose proof (total_nonneg (cache_entries (mainCache g))).
  pose proof (total_nonneg (cache_entries (hotCache g))).
  apply int64_id. unfold cache_total, MinInt64, MaxInt64 in *. lia.
Qed.

(** When the loop returns, the charge it has computed is within the
    budget. *)
Lemma evict_within fuel g g' :
  evict fuel g = Some g' →
  int64 (cache_bytes (mainCache g') + cache_bytes (hotCache g'))
    <= cacheBytes g'
  ∧ cacheBytes g' = cacheBytes g.
Proof.
  revert g. induction fuel as [|fuel IH]; intros g; simpl; [done|].
  destruct (Z.leb_spec
              (int64 (cache_bytes (mainCache g) + cache_bytes (hotCache g)))
              (cacheBytes g)) as [Hle|Hgt].
  - by intros [= <-].
  - destruct (cache_removeOldest (get_cache g (victim g))) as [c'|];
      simpl; [|done].
    intros Hev. by apply IH in Hev.
Qed.

(** Over the budget, the victim of an accounted group has an entry. *)
Lemma victim_nonempty g :
  group_ok g → 0 < cacheBytes g →
  cacheBytes g < cache_total (mainCache g) + cache_total (hotCache g) →
  ∃ rest kv, cache_entries (get_cache g (victim g)) = rest ++ [kv].
Proof.
  intros [[_ Hm _] [_ Hh _] _] Hpos Hover.
  pose proof (total_nonneg (cache_entries (mainCache g))) as Hmn.
  pose proof (total_nonneg (cache_entries (hotCache g))) as Hhn.
  assert (Hne : cache_entries (get_cache g (victim g)) ≠ []).
  { unfold victim, cache_bytes. rewrite Hm, Hh. unfold cache_total in *.
    destruct (Z.gtb_spec (total (cache_entries (hotCache g)))
                (total (cache_entries (mainCache g)) ÷ 8)) as [Hgt|Hle];
      simpl; apply total_pos_nonempty.
    - pose proof (Z.quot_pos (total (cache_entries (mainCache g))) 8). lia.
    - destruct (Z.eq_dec (total (cache_entries (mainCache g))) 0) as [Hz|];
        [|lia].
      rewrite Hz in Hle. change (0 ÷ 8) with 0 in Hle. lia. }
  destruct (cache_entries (get_cache g (victim g))) as [|x l _]
    using rev_ind; [done|eauto].
Qed.

(** One iteration of the loop over the budget: the oldest entry of the
    victim is removed, the other segment is left as it is. *)
Lemma evict_step fuel g :
  group_ok g → 0 < cacheBytes g →
  cacheBytes g < cache_total (mainCache g) + cache_total (hotCache g) →
  ∃ rest kv c',
    cache_entries (get_cache g (victim g)) = rest ++ [kv]
    ∧ cache_removeOldest (get_cache g (victim g)) = Some c'
    ∧ cache_entries c' = rest
    ∧ evict (Datatypes.S fuel) g = evict fuel (set_cache g (victim g) c')
    ∧ group_ok (set_cache g (victim g) c')
    ∧ Datatypes.S (items (set_cache g (victim g) c')) = items g.
Proof.
  intros Hok Hpos Hover.
  destruct (victim_nonempty g Hok Hpos Hover) as (rest & kv & Hent).
  assert (Hvok : cache_ok (get_cache g (victim g))).
  { destruct Hok. by destruct (victim g). }
  destruct (cache_removeOldest_snoc _ rest kv Hvok Hent)
    as (c' & Hrm & Hok' & Hent' & Hnb).
  exists rest, kv, c'. split; [done|]. split; [done|]. split; [done|].
  split.
  { simpl. rewrite (group_ok_sum g Hok).
    destruct (Z.leb_spec (cache_total (mainCache g)
                          + cache_total (hotCache g)) (cacheBytes g));
      [lia|]. by rewrite Hrm. }
  pose proof (charge_nonneg kv) as Hch.
  pose proof (total_nonneg rest) as Hrest.
  destruct Hok as [Hm Hh Hr].
  unfold items. destruct (victim g); simpl in *.
  - split.
    + constructor; simpl; [done|done|]. unfold cache_total in *.
      rewrite Hent'. rewrite Hent, total_app in Hr. simpl in Hr. lia.
    + rewrite Hent', Hent, length_app. simpl. lia.
  - split.
    + constructor; simpl; [done|done|]. unfold cache_total in *.
      rewrite Hent'. rewrite Hent, total_app in Hr. simpl in Hr. lia.
    + rewrite Hent', Hent, length_app. simpl. lia.
Qed.

(** From an accounted group the loop returns within one iteration more
    than there are entries, and leaves an accounted group within its
    budget. *)
Lemma evict_returns fuel g :
  group_ok g → 0 < cacheBytes g → (items g < fuel)%nat →
  ∃ g', evict fuel g = Some g' ∧ group_ok g'
        ∧ cache_total (mainCache g') + cache_total (hotCache g')
          <= cacheBytes g.
Proof.
  revert g. induction fuel as [|fuel IH]; intros g Hok Hpos Hfuel; [lia|].
  destruct (Z.le_gt_cases
              (cache_total (mainCache g) + cache_total (hotCache g))
              (cacheBytes g)) as [Hle|Hgt].
  - exists g. simpl. rewrite (group_ok_sum g Hok).
    destruct (Z.leb_spec (cache_total (mainCache g)
                          + cache_total (hotCache g)) (cacheBytes g));
      [done|lia].
  - destruct (evict_step fuel g Hok Hpos Hgt)
      as (rest & kv & c' & _ & _ & _ & -> & Hok' & Hit).
    destruct (IH (set_cache g (victim g) c')) as (g' & Hev & Hg' & Hb);
      [done|done|lia|]. by exists g'.
Qed.

Lemma cache_ok_literal n : cache_ok (cache_literal n).
Proof. constructor; unfold cache_total, MaxInt64; simpl; [done|done|lia]. Qed.

Lemma group_ok_newGroup n budget gt pk rnd :
  group_ok (newGroup n budget gt pk rnd).
Proof.
  constructor; [apply cache_ok_literal..|].
  unfold cache_total, MaxInt64. simpl. lia.
Qed.

(** [populateCache] on an accounted group, for a key its segment does not
    hold: it returns, and the group it leaves is accounted and within its
    budget. *)
Lemma populateCache_returns g k value which :
  0 < cacheBytes g → group_ok g → k ∉ cache_keys (get_cache g which) →
  cache_total (mainCache g) + cache_total (hotCache g)
    + (strlen k + Len value) <= MaxInt64 →
  ∃ g', populateCache (2 + items g) g k value which = Some g'
        ∧ group_ok g'
        ∧ cache_bytes (mainCache g') + cache_bytes (hotCache g')
          <= cacheBytes g
        ∧ cacheBytes g' = cacheBytes g.
Proof.
  intros Hpos Hok Hk Hsum. pose proof Hok as [Hm Hh Hr].
  pose proof (total_nonneg (cache_entries (mainCache g))) as Hmn.
  pose proof (total_nonneg (cache_entries (hotCache g))) as Hhn.
  unfold populateCache. destruct (Z.leb_spec (cacheBytes g) 0); [lia|].
  assert (Hcok : cache_ok (get_cache g which)) by (by destruct which).
  destruct (cache_add_fresh (get_cache g which) k value Hcok Hk)
    as (c' & -> & Hok' & Hent' & _).
  { unfold cache_total in *. destruct which; simpl; lia. }
  simpl.
  assert (Hg1 : group_ok (set_cache g which c')).
  { unfold cache_total in *.
    destruct which; constructor; simpl in *; try done;
      unfold cache_total; rewrite Hent'; simpl; unfold charge; simpl; lia. }
  assert (Hit : items (set_cache g which c') = Datatypes.S (items g)).
  { unfold items. destruct which; simpl in *; rewrite Hent'; simpl; lia. }
  destruct (evict_returns (2 + items g) (set_cache g which c'))
    as (g' & Hev & Hg' & Hb); [done|by destruct which|lia|].
  exists g'. split; [done|]. split; [done|].
  destruct (evict_within _ _ _ Hev) as [_ Hcb].
  destruct Hg' as [[_ Hm' _] [_ Hh' _] _]. unfold cache_bytes.
  rewrite Hm', Hh', Hcb. split; [|by destruct which].
  by destruct which.
Qed.

(** One iteration of the loop that evicts, as the entries show it: the
    charges are over the budget; the victim is the hot segment when
    [hot.bytes > main.bytes / 8] and the main segment otherwise; the victim
    loses its oldest entry and the charge of this entry, and the other
    segment and the budget are as they were. *)
Definition removes_oldest g g' : Prop :=
  cacheBytes g < cache_bytes (mainCache g) + cache_bytes (hotCache g)
  ∧ let v := if cache_bytes (hotCache g) >? cache_bytes (mainCache g) / 8
             then HotCache else MainCache in
    ∃ rest kv,
      cache_entries (get_cache g v) = rest ++ [kv]
      ∧ cache_entries (get_cache g' v) = rest
      ∧ cache_bytes (get_cache g' v) = cache_bytes (get_cache g v) - charge kv
      ∧ (∀ other, other ≠ v → get_cache g' other = get_cache g other)
      ∧ cacheBytes g' = cacheBytes g.

(** The victim of an accounted group is the one of the rule. *)
Lemma victim_rule g :
  group_ok g →
  victim g = if cache_bytes (hotCache g) >? cache_bytes (mainCache g) / 8
             then HotCache else MainCache.
Proof.
  intros [[_ Hm _] _ _]. unfold victim.
  rewrite Z.quot_div_nonneg; [done| |lia].
  unfold cache_bytes. rewrite Hm. apply total_nonneg.
Qed.

(** The loop is a sequence of such iterations: it stops at the first
    group within the budget. *)
Lemma evict_path fuel g g' :
  group_ok g → 0 < cacheBytes g → evict fuel g = Some g' →
  rtc removes_oldest g g'.
Proof.
  revert g. induction fuel as [|fuel IH]; intros g Hok Hpos Hev; [done|].
  destruct (Z.le_gt_cases
              (cache_total (mainCache g) + cache_total (hotCache g))
              (cacheBytes g)) as [Hle|Hgt].
  - simpl in Hev. rewrite (group_ok_sum g Hok) in Hev.
    destruct (Z.leb_spec (cache_total (mainCache g)
                          + cache_total (hotCache g)) (cacheBytes g));
      [|lia].
    injection Hev as <-. apply rtc_refl.
  - destruct (evict_step fuel g Hok Hpos Hgt)
      as (rest & kv & c' & He & Hr & He' & Hstep & Hok' & _).
    rewrite Hstep in Hev.
    apply rtc_l with (set_cache g (victim g) c'); [|by apply IH].
    pose proof Hok as [Hmo Hho _].
    assert (Hvok : cache_ok (get_cache g (victim g))).
    { by destruct (victim g). }
    destruct (cache_removeOldest_snoc _ rest kv Hvok He)
      as (c'' & Hr'' & _ & _ & Hnb).
    rewrite Hr in Hr''. injection Hr'' as <-.
    split.
    { unfold cache_bytes. destruct Hmo as [_ -> _], Hho as [_ -> _]. lia. }
    rewrite <- (victim_rule g Hok). exists rest, kv.
    rewrite get_set_cache. repeat (split; [done|]). split; [|done].
    intros other Hother. by destruct (victim g), other.
Qed.

(** C1.  For a group whose byte budget is positive:
    (1) whenever [populateCache] returns, the charge [nbytes] of the main
    segment plus that of the hot segment, as the loop computes it, is at
    most the budget;
    (2) on an accounted group and for a key its segment does not hold,
    [populateCache] does return, within one iteration more than there are
    entries, and then the sum of the charges of the entries of both
    segments is at most the budget; the group it returns is the one
    reached from the group with the new entry by iterations that each
    start over the budget and remove the oldest entry of the victim, so
    that no entry is removed once the charges are within the budget;
    (3) the loop returns the group as it is, with no entry removed, when
    it is entered within the budget;
    (4) each iteration of the loop entered over the budget removes the
    oldest entry of one segment and nothing else: of the hot segment when
    [hot.bytes > main.bytes / 8], of the main segment otherwise. *)
Theorem populateCache_within_budget g k value which :
  0 < cacheBytes g →
  (∀ fuel g',
      populateCache fuel g k value which = Some g' →
      int64 (cache_bytes (mainCache g') + cache_bytes (hotCache g'))
        <= cacheBytes g)
  ∧ (group_ok g → k ∉ cache_keys (get_cache g which) →
     cache_total (mainCache g) + cache_total (hotCache g)
       + (strlen k + Len value) <= MaxInt64 →
     ∃ g', populateCache (2 + items g) g k value which = Some g'
           ∧ group_ok g'
           ∧ cache_total (mainCache g') + cache_total (hotCache g')
             <= cacheBytes g
           ∧ ∃ c0, cache_add (get_cache g which) k value = Some c0
                   ∧ cache_entries c0
                     = mkEntry k value :: cache_entries (get_cache g which)
                   ∧ rtc removes_oldest (set_cache g which c0) g')
  ∧ (∀ fuel g1,
      cacheBytes g1 = cacheBytes g →
      int64 (cache_bytes (mainCache g1) + cache_bytes (hotCache g1))
        <= cacheBytes g →
      evict (Datatypes.S fuel) g1 = Some g1)
  ∧ (∀ fuel g1,
      group_ok g1 → cacheBytes g1 = cacheBytes g →
      cacheBytes g < cache_bytes (mainCache g1) + cache_bytes (hotCache g1) →
      let v := if cache_bytes (hotCache g1) >? cache_bytes (mainCache g1) / 8
               then HotCache else MainCache in
      ∃ rest kv c',
        cache_entries (get_cache g1 v) = rest ++ [kv]
        ∧ cache_removeOldest (get_cache g1 v) = Some c'
        ∧ cache_entries c' = rest
        ∧ cache_bytes c' = cache_bytes (get_cache g1 v) - charge kv
        ∧ evict (Datatypes.S fuel) g1 = evict fuel (set_cache g1 v c')).
Proof.
  intros Hpos. split; [|split; [|split]].
  - intros fuel g' Hp. unfold populateCache in Hp.
    destruct (Z.leb_spec (cacheBytes g) 0); [lia|].
    destruct (cache_add (get_cache g which) k value) as [c'|]; [|done].
    simpl in Hp. apply evict_within in Hp as [Hle Hcb].
    rewrite Hcb in Hle. by destruct which.
  - intros Hok Hk Hsum.
    destruct (populateCache_returns g k value which)
      as (g' & Hp & Hg' & Hb & _); try done.
    exists g'. split; [done|]. split; [done|].
    split.
    { destruct Hg' as [[_ Hm' _] [_ Hh' _] _]. unfold cache_bytes in Hb.
      by rewrite <- Hm', <- Hh'. }
    pose proof Hok as [Hm Hh Hr].
    pose proof (total_nonneg (cache_entries (mainCache g))) as Hmn.
    pose proof (total_nonneg (cache_entries (hotCache g))) as Hhn.
    assert (Hcok : cache_ok (get_cache g which)) by (by destruct which).
    destruct (cache_add_fresh (get_cache g which) k value Hcok Hk)
      as (c0 & Hadd & Hok0 & Hent0 & _).
    { unfold cache_total in *. destruct which; simpl; lia. }
    exists c0. split; [done|]. split; [done|].
    unfold populateCache in Hp.
    destruct (Z.leb_spec (cacheBytes g) 0); [lia|].
    rewrite Hadd in Hp. cbn [mbind option_bind] in Hp.
    apply evict_path in Hp; [done| |by destruct which].
    pose proof (Len_nonneg value) as Hv.
    assert (Hs : 0 <= strlen k) by (unfold strlen; lia).
    unfold cache_total in *.
    destruct which; constructor; simpl in *; try done;
      unfold cache_total; rewrite Hent0; simpl; unfold charge; simpl; lia.
  - intros fuel g1 Hcb Hle. simpl. rewrite Hcb.
    by destruct (Z.leb_spec
                   (int64 (cache_bytes (mainCache g1)
                           + cache_bytes (hotCache g1))) (cacheBytes g));
      [|lia].
  - intros fuel g1 Hok1 Hcb Hover v.
    pose proof Hok1 as [[_ Hm _] [_ Hh _] _].
    assert (Hv : v = victim g1) by (by rewrite (victim_rule g1 Hok1)).
    rewrite Hv. unfold cache_bytes in Hover. rewrite Hm, Hh in Hover.
    destruct (evict_step fuel g1) as (rest & kv & c' & He & Hr & He' & Hev & _);
      [done|lia|lia|].
    exists rest, kv, c'. repeat (split; [done|]). split; [|done].
    assert (Hvok : cache_ok (get_cache g1 (victim g1))).
    { destruct Hok1. by destruct (victim g1). }
    destruct (cache_removeOldest_snoc _ rest kv Hvok He)
      as (c'' & Hr'' & _ & _ & Hnb).
    rewrite Hr in Hr''. by injection Hr'' as <-.
Qed.

End BudgetFacts.

(** A group of budget 8 whose main segment holds the keys ["a"] and
    ["b"], each with a value of three bytes: it is full. *)
Definition view3 : byteview.ByteView :=
  {| byteview.b := None; byteview.s := "xxx" |}.

Definition group_of_8 : groupcache.Group sinks.stringSink :=
  groupcache.newGroup "G" 8 (λ k d, sinks.SetString k d) groupcache.NoPeers
    (λ _, 1).

Definition full8 : groupcache.Group sinks.stringSink :=
  default group_of_8
    (g1 ← groupcache.populateCache 2 group_of_8 "a" view3
            groupcache.MainCache;
     groupcache.populateCache 3 g1 "b" view3 groupcache.MainCache).

Lemma full8_ok :
  group_ok full8
  ∧ cache_entries (groupcache.mainCache full8)
    = [lru.mkEntry "b" view3; lru.mkEntry "a" view3]
  ∧ cache_entries (groupcache.hotCache full8) = []
  ∧ cache_keys (groupcache.mainCache full8) = {[ "b"; "a" ]}.
Proof.
  destruct (populateCache_returns group_of_8 "a" view3 groupcache.MainCache)
    as (g1 & Hp1 & Hok1 & _).
  { done. }
  { apply group_ok_newGroup. }
  { apply not_elem_of_empty. }
  { vm_compute. discriminate. }
  assert (He1 : cache_entries (groupcache.mainCache g1)
                = [lru.mkEntry "a" view3]
                ∧ cache_entries (groupcache.hotCache g1) = []
                ∧ cache_keys (groupcache.mainCache g1) = {[ "a" ]}
                ∧ groupcache.cacheBytes g1 = 8).
  { injection Hp1 as <-. repeat split. }
  destruct He1 as (Hm1 & Hh1 & Hk1 & Hb1).
  destruct (populateCache_returns g1 "b" view3 groupcache.MainCache)
    as (g2 & Hp2 & Hok2 & _).
  { by rewrite Hb1. }
  { done. }
  { simpl. rewrite Hk1. by apply not_elem_of_singleton. }
  { unfold cache_total. rewrite Hm1, Hh1. vm_compute. discriminate. }
  assert (Hit : items g1 = 1%nat) by (unfold items; by rewrite Hm1, Hh1).
  rewrite Hit in Hp2.
  assert (Hfull : full8 = g2).
  { unfold full8. change (2 + items group_of_8)%nat with 2%nat in Hp1.
    rewrite Hp1. simpl. change (2 + 1)%nat with 3%nat in Hp2.
    by rewrite Hp2. }
  rewrite Hfull. split; [done|].
  rewrite <- Hfull. repeat split.
Qed.

(** The third key takes the place of the oldest one, and of no other. *)
Lemma populateCache_within_budget_witness :
  ∃ g', groupcache.populateCache 4 full8 "c" view3 groupcache.MainCache
        = Some g'
        ∧ group_ok g'
        ∧ cache_total (groupcache.mainCache g')
          + cache_total (groupcache.hotCache g') <= 8
        ∧ cache_entries (groupcache.mainCache g')
          = [lru.mkEntry "c" view3; lru.mkEntry "b" view3]
        ∧ cache_entries (groupcache.hotCache g') = [].
Proof.
  destruct (proj1 (proj2 (populateCache_within_budget full8 "c" view3
                            groupcache.MainCache ltac:(done))))
    as (g' & Hp & Hok & Hle & _).
  - apply full8_ok.
  - simpl. rewrite (proj2 (proj2 (proj2 full8_ok))).
    intros [Hb|Ha]%elem_of_union; [by apply elem_of_singleton in Hb|].
    by apply elem_of_singleton in Ha.
  - unfold cache_total.
    rewrite (proj1 (proj2 full8_ok)), (proj1 (proj2 (proj2 full8_ok))).
    vm_compute. discriminate.
  - assert (Hit : items full8 = 2%nat).
    { unfold items.
      by rewrite (proj1 (proj2 full8_ok)), (proj1 (proj2 (proj2 full8_ok))). }
    rewrite Hit in Hp. change (2 + 2)%nat with 4%nat in Hp.
    exists g'. split; [exact Hp|]. split; [exact Hok|]. split; [exact Hle|].
    assert (Hg' : g' = default full8
                         (groupcache.populateCache 4 full8 "c" view3
                            groupcache.MainCache)) by (by rewrite Hp).
    rewrite Hg'. split; reflexivity.
Defined.

(** ** The hash ring *)

Section RingFacts.
Import golang consistenthash.

(** [sort.Search] on a predicate that, once true, stays true: it returns
    the least index at which the predicate holds, or [n]. *)
Lemma search_loop_spec (f : Z → bool) (n : Z) :
  (∀ a c, 0 <= a <= c → c < n → f a = true → f c = true) →
  ∀ fuel i j,
    0 <= i <= j → j <= n → j - i <= Z.of_nat fuel →
    (∀ a, 0 <= a < i → f a = false) →
    (∀ a, j <= a < n → f a = true) →
    let r := search_loop fuel f i j in
    i <= r <= j ∧ (∀ a, 0 <= a < r → f a = false)
    ∧ (∀ a, r <= a < n → f a = true).
Proof.
  intros Hmono fuel.
  induction fuel as [|fuel IH]; intros i j Hij Hjn Hfuel Hlo Hhi; simpl.
  - assert (i = j) by lia. subst j. auto with lia.
  - destruct (Z.ltb_spec i j) as [Hlt|Hge]; [|assert (i = j) by lia; subst j;
                                               auto with lia].
    rewrite Z.shiftr_div_pow2 by lia. change (2 ^ 1) with 2.
    set (h := (i + j) / 2).
    assert (Hh : i <= h < j) by (subst h; split;
      [apply Z.div_le_lower_bound | apply Z.div_lt_upper_bound]; lia).
    destruct (f h) eqn:Hfh; simpl.
    + destruct (IH i h) as (Hr & Hlo' & Hhi'); try lia; try done.
      { intros a Ha. apply (Hmono h a); [lia|lia|done]. }
      split; [lia|]. done.
    + destruct (IH (h + 1) j) as (Hr & Hlo' & Hhi'); try lia; try done.
      { intros a Ha. destruct (f a) eqn:Hfa; [|done].
        rewrite (Hmono a h) in Hfh; [done|lia|lia|done]. }
      split; [lia|]. done.
Qed.

Lemma sort_Search_spec (f : Z → bool) (n : Z) :
  0 <= n →
  (∀ a c, 0 <= a <= c → c < n → f a = true → f c = true) →
  let r := sort_Search n f in
  0 <= r <= n ∧ (∀ a, 0 <= a < r → f a = false)
  ∧ (∀ a, r <= a < n → f a = true).
Proof.
  intros Hn Hmono. unfold sort_Search.
  apply (search_loop_spec f n Hmono); try lia.
Qed.

(** In a sorted list, positions are ordered as their contents. *)
Lemma sorted_lookup_le (ks : list Z) (i j : nat) (x y : Z) :
  StronglySorted Z.le ks → ks !! i = Some x → ks !! j = Some y →
  (i <= j)%nat → x <= y.
Proof.
  intros Hs. revert i j. induction Hs as [|z ks Hs IH Hall]; intros i j.
  - by rewrite lookup_nil.
  - destruct i as [|i], j as [|j]; simpl; try lia.
    + intros [= <-] [= <-] _. lia.
    + intros [= <-] Hy _. rewrite Forall_forall in Hall.
      apply Hall. by eapply list_elem_of_lookup_2.
    + intros Hx Hy Hij. apply (IH i j); [done|done|lia].
Qed.

Lemma filter_all {A} (P : A → Prop) `{∀ x, Decision (P x)} (l : list A) :
  Forall P l → filter P l = l.
Proof.
  induction 1 as [|x l Hx _ IH]; [done|].
  rewrite filter_cons_True by done. by rewrite IH.
Qed.

Lemma filter_none {A} (P : A → Prop) `{∀ x, Decision (P x)} (l : list A) :
  Forall (λ x, ¬ P x) l → filter P l = [].
Proof.
  induction 1 as [|x l Hx _ IH]; [done|].
  by rewrite filter_cons_False.
Qed.

(** The virtual points of a ring, in the order [Add] makes them: for each
    peer and each [i] in [0, replicas), the hash of [Itoa(i) ++ peer] and
    the peer. *)
Definition points (h32 : Hash) (n : Z) (ps : list string)
  : list (Z * string) :=
  p ← ps; (λ i, (h32 (bytes_of_string (Itoa i ++ p)), p)) <$> seqZ 0 n.

(** The peer a hash belongs to: the last peer to have made a point of this
    hash. *)
Definition owner (pts : list (Z * string)) (x : Z) : string :=
  default EmptyString ((list_to_map (reverse pts) : gmap Z string) !! x).

(** The index of the first key that is [>= h] in a sorted list: the number
    of keys below [h]. *)
Definition first_ge (ks : list Z) (h : Z) : Z :=
  len (filter (λ x, x < h) ks).

Lemma add_key_spec (m : Map) (p : string) :
  let pts := (λ i, (hash m (bytes_of_string (Itoa i ++ p)), p))
               <$> seqZ 0 (replicas m) in
  hash (add_key m p) = hash m ∧ replicas (add_key m p) = replicas m
  ∧ keys (add_key m p) = keys m ++ pts.*1
  ∧ hashMap (add_key m p) = list_to_map (reverse pts) ∪ hashMap m.
Proof.
  unfold add_key. generalize (seqZ 0 (replicas m)) as ixs.
  intros ixs. revert m. induction ixs as [|i ixs IH]; intros m; simpl.
  - rewrite app_nil_r. repeat split; try done.
    by rewrite (left_id_L ∅ (∪)).
  - destruct (IH (add_replica p m i)) as (Hh & Hr & Hk & Hm).
    simpl in *. rewrite Hh, Hr, Hk, Hm. repeat split; try done.
    + by rewrite <- app_assoc.
    + rewrite reverse_cons, list_to_map_app. simpl.
      rewrite <- (assoc_L (∪)). f_equal.
      rewrite insert_union_singleton_l.
      by rewrite insert_empty.
Qed.

Lemma foldl_add_key_spec (m : Map) (ps : list string) :
  let pts := points (hash m) (replicas m) ps in
  let m' := foldl add_key m ps in
  hash m' = hash m ∧ replicas m' = replicas m
  ∧ keys m' = keys m ++ pts.*1
  ∧ hashMap m' = list_to_map (reverse pts) ∪ hashMap m.
Proof.
  revert m. induction ps as [|p ps IH]; intros m; simpl.
  - rewrite app_nil_r. repeat split; try done.
    by rewrite (left_id_L ∅ (∪)).
  - destruct (add_key_spec m p) as (Hh & Hr & Hk & Hm).
    destruct (IH (add_key m p)) as (Hh' & Hr' & Hk' & Hm').
    simpl in *. rewrite Hh', Hr', Hk', Hm', Hh, Hr, Hk, Hm.
    repeat split; try done.
    + unfold points. simpl. by rewrite fmap_app, app_assoc.
    + unfold points. simpl. rewrite reverse_app, list_to_map_app.
      by rewrite (assoc_L (∪)).
Qed.

(** The ring [Add] builds on a new map. *)
Lemma Add_New_spec (n : Z) (fn : option Hash) (ps : list string) :
  let m := Add (New n fn) ps in
  let pts := points (hash (New n fn)) n ps in
  hash m = hash (New n fn) ∧ replicas m = n
  ∧ keys m = sort_Ints pts.*1
  ∧ hashMap m = list_to_map (reverse pts).
Proof.
  unfold Add. destruct (Z.eqb_spec (len ps) 0) as [Hz|Hnz].
  - destruct ps; [|unfold len in Hz; simpl in Hz; lia]. done.
  - destruct (foldl_add_key_spec (New n fn) ps) as (Hh & Hr & Hk & Hm).
    simpl in *. rewrite Hh, Hr, Hk, Hm. repeat split; try done.
    by rewrite (right_id_L ∅ (∪)).
Qed.

Lemma sort_Ints_sorted (a : list Z) : StronglySorted Z.le (sort_Ints a).
Proof. apply StronglySorted_merge_sort; apply _. Qed.

Lemma sort_Ints_perm (a : list Z) : sort_Ints a ≡ₚ a.
Proof. apply merge_sort_Permutation. Qed.

(** In a sorted list the keys below [h] are the first [first_ge] ones. *)
Lemma first_ge_spec (ks : list Z) (h : Z) (i : nat) (x : Z) :
  StronglySorted Z.le ks → ks !! i = Some x →
  (Z.of_nat i < first_ge ks h ↔ x < h).
Proof.
  unfold first_ge, len. intros Hs. revert i.
  induction Hs as [|z ks Hs IH Hall]; intros i; [by rewrite lookup_nil|].
  destruct (decide (z < h)) as [Hz|Hz].
  - rewrite filter_cons_True by done. destruct i as [|i]; simpl.
    + intros [= <-]. lia.
    + intros Hx. rewrite <- (IH i Hx). lia.
  - rewrite filter_cons_False by done.
    rewrite filter_none.
    2:{ eapply Forall_impl; [exact Hall|]. simpl. intros y Hy. lia. }
    rewrite Forall_forall in Hall. destruct i as [|i]; simpl.
    + intros [= <-]. lia.
    + intros Hx%list_elem_of_lookup_2%Hall. lia.
Qed.

Lemma first_ge_range (ks : list Z) (h : Z) : 0 <= first_ge ks h <= len ks.
Proof.
  unfold first_ge, len. pose proof (length_filter (λ x, x < h) ks). lia.
Qed.

(** The binary search of [Get] finds [first_ge]. *)
Lemma Get_search (m : Map) (h : Z) :
  StronglySorted Z.le (keys m) →
  sort_Search (len (keys m)) (λ i, keys_at m i >=? h) = first_ge (keys m) h.
Proof.
  intros Hs. set (f := λ i, keys_at m i >=? h).
  assert (Hat : ∀ a, 0 <= a < len (keys m) →
            ∃ x, keys m !! Z.to_nat a = Some x ∧ keys_at m a = x).
  { intros a Ha. unfold keys_at.
    destruct (lookup_lt_is_Some_2 (keys m) (Z.to_nat a)) as [x Hx];
      [unfold len in Ha; lia|]. exists x. by rewrite Hx. }
  destruct (sort_Search_spec f (len (keys m))) as (Hr & Hlo & Hhi).
  { unfold len. lia. }
  { intros a c Hac Hc. unfold f.
    destruct (Hat a) as (x & Hx & ->); [lia|].
    destruct (Hat c) as (y & Hy & ->); [lia|].
    pose proof (sorted_lookup_le _ _ _ _ _ Hs Hx Hy). 
    destruct (Z.geb_spec x h), (Z.geb_spec y h); try done. lia. }
  set (r := sort_Search (len (keys m)) f) in *.
  pose proof (first_ge_range (keys m) h) as Hfr.
  destruct (Z.lt_trichotomy r (first_ge (keys m) h)) as [Hlt|[Heq|Hgt]];
    [|done|].
  - destruct (Hat r) as (x & Hx & Hkx); [lia|].
    assert (Hxh : x < h).
    { apply (first_ge_spec (keys m) h (Z.to_nat r) x Hs Hx). lia. }
    specialize (Hhi r ltac:(lia)). unfold f in Hhi. rewrite Hkx in Hhi.
    destruct (Z.geb_spec x h); [lia|done].
  - destruct (Hat (first_ge (keys m) h)) as (x & Hx & Hkx); [lia|].
    assert (Hxh : ¬ x < h).
    { rewrite <- (first_ge_spec (keys m) h _ x Hs Hx). lia. }
    specialize (Hlo (first_ge (keys m) h) ltac:(lia)). unfold f in Hlo.
    rewrite Hkx in Hlo. destruct (Z.geb_spec x h); [done|lia].
Qed.

(** C4.  For the ring [m] that [Add] builds on a new map from the peers
    [ps] with [n] replicas:
    (1) the keys of [m] are the hashes of the virtual points
    [hash(Itoa(i) ++ peer)], for each peer and each [i] in [0, n), sorted;
    (2) the binary search of [Get] returns the lowest index [idx] whose key
    is at least [h = hash(key)]: the keys before [idx] are below [h], the
    keys from [idx] on are not;
    (3) [Get] returns the empty string on an empty ring, and otherwise the
    peer of the key at [idx], or of the key at 0 when [idx] is past the
    last key;
    (4) this peer has a virtual point of that hash. *)
Theorem ring_Get_spec (n : Z) (fn : option Hash) (ps : list string)
    (key : string) :
  let m := Add (New n fn) ps in
  let pts := points (hash m) n ps in
  let h := hash m (bytes_of_string key) in
  let idx := first_ge (keys m) h in
  let at_idx := if decide (idx = len (keys m)) then 0 else idx in
  (keys m ≡ₚ pts.*1 ∧ StronglySorted Z.le (keys m))
  ∧ (sort_Search (len (keys m)) (λ i, keys_at m i >=? h) = idx
     ∧ ∀ i x, keys m !! i = Some x → (Z.of_nat i < idx ↔ x < h))
  ∧ Get m key = (if decide (keys m = []) then EmptyString
                 else owner pts (keys_at m at_idx))
  ∧ (keys m ≠ [] →
     ∃ x, keys m !! Z.to_nat at_idx = Some x ∧ (x, Get m key) ∈ pts).
Proof.
  intros m pts h idx at_idx.
  destruct (Add_New_spec n fn ps) as (Hh & Hr & Hk & Hm).
  fold m in Hh, Hr, Hk, Hm. rewrite <- Hh in Hk, Hm. fold pts in Hk, Hm.
  assert (Hs : StronglySorted Z.le (keys m)).
  { rewrite Hk. apply sort_Ints_sorted. }
  assert (Hget : Get m key = (if decide (keys m = []) then EmptyString
                              else owner pts (keys_at m at_idx))).
  { unfold Get, IsEmpty. destruct (decide (keys m = [])) as [He|Hne].
    - by rewrite He.
    - destruct (Z.eqb_spec (len (keys m)) 0) as [Hz|_].
      { destruct (keys m); [done|unfold len in Hz; simpl in Hz; lia]. }
      fold h. rewrite (Get_search m h Hs). fold idx.
      unfold owner. rewrite Hm. subst at_idx.
      destruct (Z.eqb_spec idx (len (keys m))), (decide (idx = len (keys m)));
        done. }
  split; [split; [by rewrite Hk, sort_Ints_perm|done]|].
  split; [split; [by apply Get_search|]|].
  { intros i x Hx. by apply first_ge_spec. }
  split; [done|]. intros Hne.
  pose proof (first_ge_range (keys m) h) as Hfr. fold idx in Hfr.
  assert (Hlen : 0 < len (keys m)).
  { unfold len. destruct (keys m); [done|simpl; lia]. }
  assert (Hat : 0 <= at_idx < len (keys m)).
  { subst at_idx. destruct (decide (idx = len (keys m))); lia. }
  destruct (lookup_lt_is_Some_2 (keys m) (Z.to_nat at_idx)) as [x Hx];
    [unfold len in Hat; lia|].
  exists x. split; [done|]. rewrite Hget.
  destruct (decide (keys m = [])); [done|].
  unfold keys_at. rewrite Hx. simpl. unfold owner.
  assert (Hin : x ∈ (reverse pts).*1).
  { rewrite fmap_reverse, elem_of_reverse.
    apply list_elem_of_lookup_2 in Hx. rewrite Hk in Hx.
    by rewrite (sort_Ints_perm pts.*1) in Hx. }
  destruct ((list_to_map (reverse pts) : gmap Z string) !! x) as [p|] eqn:Hp.
  - simpl. apply elem_of_list_to_map_2 in Hp. by apply elem_of_reverse.
  - by apply not_elem_of_list_to_map in Hp.
Qed.

End RingFacts.

(** ** The engine: [Get] and [load] *)

Section EngineFacts.
Import golang lru byteview sinks groupcache.
Context {S : Type} `{Sink S}.
Implicit Types (g : Group S) (d : S).

(** Runs the engine on a group whose record and counters are given by
    their fields, down to the calls of the loader, the peer and the sink. *)
Ltac engine_unfold :=
  unfold Get, lookupCache, load, flightGroup_Do, load_fn, getFromPeer,
         getLocally, populateCache, draw, bump, Stats_Add; simpl.

(** A client that calls [Get] for each request in turn. *)
Fixpoint Gets (fuel : nat) (g : Group S) (reqs : list (string * option S))
  : option (Group S) :=
  match reqs with
  | [] => Some g
  | (k, dest) :: reqs =>
      '(g', _, _) ← Get fuel g k dest; Gets fuel g' reqs
  end.

(** Without a budget the lookup and populate leave the group as it is,
    and a [Get] that is given a sink takes the load path. *)
Lemma Get_no_budget g :
  cacheBytes g <= 0 →
  (∀ k, lookupCache g k = Some (g, (zero, false)))
  ∧ (∀ fuel k value which, populateCache fuel g k value which = Some g)
  ∧ (∀ fuel k d, ∃ g' d' err,
       Get fuel g k (Some d) = Some (g', Some d', err)
       ∧ mainCache g' = mainCache g ∧ hotCache g' = hotCache g
       ∧ cacheBytes g' = cacheBytes g
       ∧ CacheHits (stats g') = CacheHits (stats g)
       ∧ Loads (stats g') = AtomicInt_Add (Loads (stats g)) 1
       ∧ LoadsDeduped (stats g') = AtomicInt_Add (LoadsDeduped (stats g)) 1).
Proof.
  intros Hb. apply Z.leb_le in Hb.
  destruct g as [nm gt pk cb mc hc [] rnd rn]. simpl in Hb.
  split; [|split].
  - intros k. unfold lookupCache. simpl. by rewrite Hb.
  - intros fuel k value which. unfold populateCache. simpl. by rewrite Hb.
  - intros fuel k d. engine_unfold. rewrite Hb. simpl.
    repeat (case_match; simplify_eq/=; try rewrite Hb);
      eexists _, _, _; (split; [reflexivity|]); done.
Qed.

(** Without a budget no request, with or without a sink, changes a
    segment, whatever the number of requests. *)
Lemma Gets_no_budget fuel reqs g :
  cacheBytes g <= 0 →
  ∃ g', Gets fuel g reqs = Some g'
        ∧ mainCache g' = mainCache g ∧ hotCache g' = hotCache g.
Proof.
  revert g. induction reqs as [|[k [d|]] reqs IH]; intros g Hb; cbn [Gets].
  - by exists g.
  - destruct (Get_no_budget g Hb) as (_ & _ & Hget).
    destruct (Hget fuel k d) as (g1 & d' & err & -> & Hm & Hh & Hcb & _).
    cbn. destruct (IH g1) as (g' & -> & Hm' & Hh'); [lia|].
    exists g'. by rewrite Hm', Hh'.
  - cbn. destruct (IH (bump cGets g)) as (g' & -> & Hm' & Hh'); [done|].
    by exists g'.
Qed.

(** C10.  On a group whose byte budget is zero or negative: the lookup
    misses whatever the key, without a look at the segments; populate
    returns the group as it is; every [Get] that is given a sink takes the
    load path (it counts a load, and no cache hit) and leaves both
    segments as they were; and after any sequence of calls of [Get], with
    a sink or without, both segments are as they were at first. *)
Theorem Get_without_budget g :
  cacheBytes g <= 0 →
  (∀ k, lookupCache g k = Some (g, (zero, false)))
  ∧ (∀ fuel k value which, populateCache fuel g k value which = Some g)
  ∧ (∀ fuel k d, ∃ g' d' err,
       Get fuel g k (Some d) = Some (g', Some d', err)
       ∧ mainCache g' = mainCache g ∧ hotCache g' = hotCache g
       ∧ cacheBytes g' = cacheBytes g
       ∧ CacheHits (stats g') = CacheHits (stats g)
       ∧ Loads (stats g') = AtomicInt_Add (Loads (stats g)) 1
       ∧ LoadsDeduped (stats g') = AtomicInt_Add (LoadsDeduped (stats g)) 1)
  ∧ (∀ fuel reqs, ∃ g',
       Gets fuel g reqs = Some g'
       ∧ mainCache g' = mainCache g ∧ hotCache g' = hotCache g).
Proof.
  intros Hb. destruct (Get_no_budget g Hb) as (Hlk & Hpop & Hget).
  repeat (split; [done|]). intros fuel reqs. by apply Gets_no_budget.
Qed.

(** What a miss leaves of a segment: everything but the count of gets. *)
Definition same_entries (c c' : cache) : Prop :=
  groupcache.lru c' = groupcache.lru c ∧ nbytes c' = nbytes c
  ∧ nhit c' = nhit c ∧ nevict c' = nevict c.

Lemma lru_Get_None {K V W} `{Countable K} (c c' : Cache K V W) k :
  lru.Get c k = Some (c', None) → c' = c.
Proof.
  unfold lru.Get. destruct (lru.cache c) as [m|]; [|by intros [= <-]].
  destruct (m !! k) as [ele|]; [|by intros [= <-]].
  destruct (elems c !! ele); simpl; [|done]. by intros [=].
Qed.

Lemma cache_get_miss c c' k :
  cache_get c k = Some (c', None) → same_entries c c'.
Proof.
  unfold cache_get, same_entries.
  destruct (groupcache.lru c) as [l|] eqn:Hl; [|by intros [= <-]].
  destruct (lru.Get l k) as [[l' [v|]]|] eqn:Hg; simpl; try done.
  apply lru_Get_None in Hg as ->. by intros [= <-].
Qed.

(** A lookup that misses changes nothing of the group but the counts of
    gets of its segments. *)
Lemma lookupCache_miss g g1 k v0 :
  lookupCache g k = Some (g1, (v0, false)) →
  name g1 = name g ∧ getter g1 = getter g ∧ peers g1 = peers g
  ∧ cacheBytes g1 = cacheBytes g ∧ stats g1 = stats g ∧ rand g1 = rand g
  ∧ rand_next g1 = rand_next g
  ∧ same_entries (mainCache g) (mainCache g1)
  ∧ same_entries (hotCache g) (hotCache g1).
Proof.
  unfold lookupCache. destruct (cacheBytes g <=? 0).
  { intros [= <- _]. by repeat split. }
  destruct (cache_get (mainCache g) k) as [[mc [v|]]|] eqn:Hm; simpl;
    try done.
  destruct (cache_get (hotCache g) k) as [[hc [v|]]|] eqn:Hh; simpl;
    try done.
  intros [= <- _]. simpl.
  apply cache_get_miss in Hm, Hh. by repeat (split; [done|]).
Qed.

(** C5.  When the lookup of a [Get] misses, no remote peer answers for the
    key (none is picked, or the one picked fails) and the loader returns the
    error [e]: [Get] returns [e] itself, the counter of failed local loads
    is one more and that of local loads is as it was, and both segments
    are as the lookup left them, with the entries, the byte charge and the
    counters they had before the call but for the count of gets. *)
Theorem Get_loader_error fuel g g1 k d d' e v0 :
  lookupCache (bump cGets g) k = Some (g1, (v0, false)) →
  (peers g k = None
   ∨ ∃ peer rv pe, peers g k = Some peer ∧ peer (name g) k = (rv, Some pe)) →
  getter g k d = (d', Some e) →
  ∃ g', Get fuel g k (Some d) = Some (g', Some d', Some e)
        ∧ LocalLoadErrs (stats g')
          = AtomicInt_Add (LocalLoadErrs (stats g)) 1
        ∧ LocalLoads (stats g') = LocalLoads (stats g)
        ∧ mainCache g' = mainCache g1 ∧ hotCache g' = hotCache g1
        ∧ same_entries (mainCache g) (mainCache g')
        ∧ same_entries (hotCache g) (hotCache g').
Proof.
  intros Hlk Hlocal Hget.
  destruct (lookupCache_miss _ _ _ _ Hlk)
    as (Hn & Hg & Hp & Hcb & Hst & Hr & Hrn & Hm & Hh).
  simpl in *. unfold Get. rewrite Hlk. simpl.
  unfold load, flightGroup_Do, load_fn. simpl. rewrite Hp.
  destruct Hlocal as [Hnone | (peer & rv & pe & Hsome & Hfail)].
  - rewrite Hnone. simpl. unfold getLocally. simpl. rewrite Hg, Hget. simpl.
    eexists. split; [reflexivity|]. simpl. rewrite Hst.
    destruct (stats g). done.
  - rewrite Hsome. simpl. unfold getFromPeer.
    change (name (bump cLoadsDeduped (bump cLoads g1))) with (name g1).
    rewrite Hn, Hfail. simpl.
    unfold getLocally. simpl. rewrite Hg, Hget. simpl.
    eexists. split; [reflexivity|]. simpl. rewrite Hst.
    destruct (stats g). done.
Qed.

Lemma cache_get_not_cached c k :
  k ∉ cache_keys c → ∃ c', cache_get c k = Some (c', None).
Proof.
  unfold cache_keys, cache_get. destruct (groupcache.lru c) as [l|]; [|eauto].
  intros Hk. rewrite (Get_miss l k Hk). simpl. eauto.
Qed.

Lemma same_entries_ok c c' : same_entries c c' → cache_ok c → cache_ok c'.
Proof.
  intros (Hl & Hb & _) [Hlru Hbytes Hrange].
  constructor; unfold cache_total, cache_entries in *; rewrite Hl; try done.
  by rewrite Hb.
Qed.

Lemma same_entries_keys c c' : same_entries c c' → cache_keys c' = cache_keys c.
Proof. intros (Hl & _). unfold cache_keys. by rewrite Hl. Qed.

Lemma same_entries_entries c c' :
  same_entries c c' → cache_entries c' = cache_entries c.
Proof. intros (Hl & _). unfold cache_entries. by rewrite Hl. Qed.

(** The fields of a group that populating a segment leaves alone. *)
Definition frame (g g' : Group S) : Prop :=
  name g' = name g ∧ getter g' = getter g ∧ peers g' = peers g
  ∧ cacheBytes g' = cacheBytes g ∧ stats g' = stats g
  ∧ rand g' = rand g ∧ rand_next g' = rand_next g.

Lemma evict_frame fuel g g' : evict fuel g = Some g' → frame g g'.
Proof.
  revert g. induction fuel as [|fuel IH]; intros g; simpl; [done|].
  case_match; [by intros [= <-]|].
  destruct (cache_removeOldest (get_cache g (victim g))) as [c'|]; simpl;
    [|done].
  intros Hev%IH. unfold frame in *. by destruct (victim g).
Qed.

Lemma populateCache_frame fuel g g' k value which :
  populateCache fuel g k value which = Some g' → frame g g'.
Proof.
  unfold populateCache. case_match; [by intros [= <-]|].
  destruct (cache_add (get_cache g which) k value) as [c'|]; simpl; [|done].
  intros Hev%evict_frame. unfold frame in *. by destruct which.
Qed.

(** [populateCache], with or without a budget, on an accounted group and
    for a key its segment does not hold. *)
Lemma populateCache_total g k value which :
  group_ok g → (0 < cacheBytes g → k ∉ cache_keys (get_cache g which)) →
  cache_total (mainCache g) + cache_total (hotCache g)
    + (strlen k + byteview.Len value) <= MaxInt64 →
  ∃ g', populateCache (2 + items g) g k value which = Some g'
        ∧ group_ok g' ∧ frame g g'.
Proof.
  intros Hok Hk Hsum. destruct (Z.le_gt_cases (cacheBytes g) 0) as [Hb|Hb].
  - exists g. unfold populateCache.
    destruct (Z.leb_spec (cacheBytes g) 0); [|lia]. done.
  - destruct (populateCache_returns g k value which)
      as (g' & Hp & Hg' & _); [lia|done|apply Hk; lia|done|].
    exists g'. split; [done|]. split; [done|].
    by eapply populateCache_frame.
Qed.

(** A key that a segment misses is not one of its keys. *)
Lemma cache_get_miss_key c c' k :
  cache_get c k = Some (c', None) → k ∉ cache_keys c.
Proof.
  unfold cache_get, cache_keys.
  destruct (groupcache.lru c) as [l|]; [|intros _; apply not_elem_of_empty].
  unfold lru.Get, index_keys.
  destruct (lru.cache l) as [m|]; [|intros _; apply not_elem_of_empty].
  destruct (m !! k) as [ele|] eqn:Hk.
  - by destruct (lru.elems l !! ele).
  - intros _. by apply not_elem_of_dom.
Qed.

Lemma lookupCache_miss_keys g g1 k v0 :
  lookupCache g k = Some (g1, (v0, false)) → 0 < cacheBytes g →
  (k ∉ cache_keys (mainCache g)) ∧ (k ∉ cache_keys (hotCache g)).
Proof.
  unfold lookupCache. intros Hlk Hb.
  destruct (Z.leb_spec (cacheBytes g) 0); [lia|].
  destruct (cache_get (mainCache g) k) as [[mc [v|]]|] eqn:Hm; simpl in Hlk;
    try done.
  destruct (cache_get (hotCache g) k) as [[hc [v|]]|] eqn:Hh; simpl in Hlk;
    try done.
  split; by eapply cache_get_miss_key.
Qed.

(** C6.  When the lookup of a [Get] misses, the peer picker names a remote
    peer for the key and the request to this peer fails, the load counts a
    peer error and no peer load, and goes on to the loader, whatever the
    segments hold and charge: from the group in which the peer error is
    counted, [Get] returns the error of the loader, counted as a failed
    local load, or counts a local load and hands the value of the loader's
    sink to [populateCache] for the main segment, and returns no error
    with the sink as the loader left it as soon as [populateCache]
    returns.  On an accounted group [populateCache] does return: when the
    loader succeeds, [Get] returns no error, and has counted one peer
    error, no peer load, one local load and no failed local load. *)
Theorem Get_peer_failure_falls_through fuel g g1 k d peer rv pe v0 :
  lookupCache (bump cGets g) k = Some (g1, (v0, false)) →
  peers g k = Some peer → peer (name g) k = (rv, Some pe) →
  let g2 := bump cPeerErrors (bump cLoadsDeduped (bump cLoads g1)) in
  PeerErrors (stats g2) = AtomicInt_Add (PeerErrors (stats g)) 1
  ∧ PeerLoads (stats g2) = PeerLoads (stats g)
  ∧ LocalLoads (stats g2) = LocalLoads (stats g)
  ∧ LocalLoadErrs (stats g2) = LocalLoadErrs (stats g)
  ∧ Get fuel g k (Some d)
    = (let '(d', gerr) := getter g k d in
       match gerr with
       | Some e => Some (bump cLocalLoadErrs g2, Some d', Some e)
       | None =>
           match view d' with
           | (_, Some e) => Some (bump cLocalLoadErrs g2, Some d', Some e)
           | (value, None) =>
               g' ← populateCache fuel (bump cLocalLoads g2) k value
                      MainCache;
               Some (g', Some d', None)
           end
       end)
  ∧ (∀ d' value,
       group_ok g →
       cache_total (mainCache g) + cache_total (hotCache g)
         + (strlen k + byteview.Len value) <= MaxInt64 →
       getter g k d = (d', None) → view d' = (value, None) →
       ∃ g', Get (2 + items g) g k (Some d) = Some (g', Some d', None)
             ∧ PeerErrors (stats g') = AtomicInt_Add (PeerErrors (stats g)) 1
             ∧ PeerLoads (stats g') = PeerLoads (stats g)
             ∧ LocalLoads (stats g') = AtomicInt_Add (LocalLoads (stats g)) 1
             ∧ LocalLoadErrs (stats g') = LocalLoadErrs (stats g)
             ∧ group_ok g').
Proof.
  intros Hlk Hpeer Hfail g2.
  destruct (lookupCache_miss _ _ _ _ Hlk)
    as (Hn & Hg & Hp & Hcb & Hst & Hr & Hrn & Hm & Hh).
  simpl in Hn, Hg, Hp, Hcb, Hst, Hr, Hrn, Hm, Hh.
  (* the call as the code runs it, for any fuel *)
  assert (Hrun : ∀ fuel,
    Get fuel g k (Some d)
    = (let '(d', gerr) := getter g k d in
       match gerr with
       | Some e => Some (bump cLocalLoadErrs g2, Some d', Some e)
       | None =>
           match view d' with
           | (_, Some e) => Some (bump cLocalLoadErrs g2, Some d', Some e)
           | (value, None) =>
               g' ← populateCache fuel (bump cLocalLoads g2) k value
                      MainCache;
               Some (g', Some d', None)
           end
       end)).
  { intros fuel'. unfold Get. rewrite Hlk. simpl.
    unfold load, flightGroup_Do, load_fn. simpl. rewrite Hp, Hpeer. simpl.
    unfold getFromPeer.
    change (name (bump cLoadsDeduped (bump cLoads g1))) with (name g1).
    rewrite Hn, Hfail. simpl.
    unfold getLocally. simpl. rewrite Hg.
    destruct (getter g k d) as [d' [e|]]; simpl; [done|].
    destruct (view d') as [value [e|]]; simpl; [done|].
    fold g2.
    by destruct (populateCache fuel' (bump cLocalLoads g2) k value
                   MainCache). }
  split; [subst g2; simpl; rewrite Hst; by destruct (stats g)|].
  split; [subst g2; simpl; rewrite Hst; by destruct (stats g)|].
  split; [subst g2; simpl; rewrite Hst; by destruct (stats g)|].
  split; [subst g2; simpl; rewrite Hst; by destruct (stats g)|].
  split; [apply Hrun|].
  intros d' value Hok Hsum Hget Hview.
  assert (Hk : 0 < cacheBytes g →
               (k ∉ cache_keys (mainCache g)) ∧ (k ∉ cache_keys (hotCache g))).
  { apply (lookupCache_miss_keys (bump cGets g) g1 k v0 Hlk). }
  (* the group the loader hands to populateCache *)
  set (g3 := bump cLocalLoads g2).
  assert (Hok3 : group_ok g3).
  { destruct Hok as [Hmo Hho Hro]. constructor; simpl.
    - by apply (same_entries_ok _ _ Hm).
    - by apply (same_entries_ok _ _ Hh).
    - unfold cache_total.
      by rewrite (same_entries_entries _ _ Hm), (same_entries_entries _ _ Hh). }
  assert (Hit : items g3 = items g).
  { unfold items. simpl.
    by rewrite (same_entries_entries _ _ Hm), (same_entries_entries _ _ Hh). }
  destruct (populateCache_total g3 k value MainCache)
    as (g' & Hpop & Hg' & Hfr); [done| | |].
  { simpl. rewrite Hcb, (same_entries_keys _ _ Hm). intros Hb.
    by apply Hk. }
  { simpl. unfold cache_total.
    by rewrite (same_entries_entries _ _ Hm), (same_entries_entries _ _ Hh). }
  rewrite Hit in Hpop.
  exists g'. split.
  - rewrite Hrun, Hget, Hview. fold g3. by rewrite Hpop.
  - destruct Hfr as (_ & _ & _ & _ & -> & _). subst g3 g2. simpl. rewrite Hst.
    destruct (stats g). done.
Qed.

End EngineFacts.

(** *** The engine on concrete groups *)

Section EngineExamples.
Import golang lru byteview sinks groupcache.

(** A string sink that has received nothing yet. *)
Definition sink0 : stringSink := {| sp := EmptyString; ss_v := zero |}.

(** A loader that answers ["v:" ++ key], and one that fails. *)
Definition echo_getter : Getter stringSink :=
  λ k d, SetString ("v:" ++ k) d.

Definition failing_getter : Getter stringSink :=
  λ k d, (d, Some (errors_New "source unavailable")).

(** A peer that cannot be reached, and the picker that names it for every
    key. *)
Definition dead_peer : ProtoGetter :=
  λ _ _, (None, Some (errors_New "connection refused")).

Definition remote_picker : PeerPicker := λ _, Some dead_peer.

Lemma Get_without_budget_witness :
  let g := newGroup "G" 0 echo_getter NoPeers (λ _, 1) in
  ∃ g' d' err,
    Get 0 g "k" (Some sink0) = Some (g', Some d', err)
    ∧ mainCache g' = mainCache g ∧ hotCache g' = hotCache g
    ∧ cacheBytes g' = cacheBytes g
    ∧ CacheHits (stats g') = CacheHits (stats g)
    ∧ Loads (stats g') = AtomicInt_Add (Loads (stats g)) 1
    ∧ LoadsDeduped (stats g') = AtomicInt_Add (LoadsDeduped (stats g)) 1.
Proof.
  intros g.
  apply (proj1 (proj2 (proj2 (Get_without_budget g ltac:(simpl; lia))))).
Defined.

Lemma Get_loader_error_witness :
  let g := newGroup "G" 64 failing_getter NoPeers (λ _, 1) in
  ∃ g', Get 0 g "k" (Some sink0)
        = Some (g', Some sink0, Some (errors_New "source unavailable"))
        ∧ LocalLoadErrs (stats g') = 1
        ∧ cache_entries (mainCache g') = []
        ∧ cache_entries (hotCache g') = [].
Proof.
  intros g.
  destruct (Get_loader_error 0 g _ "k" sink0 sink0
              (errors_New "source unavailable") _
              ltac:(reflexivity) ltac:(left; reflexivity) ltac:(reflexivity))
    as (g' & Hget & Herr & _ & _ & _ & (Hm & _) & (Hh & _)).
  exists g'. split; [exact Hget|]. split; [exact Herr|].
  unfold cache_entries. rewrite Hm, Hh. split; reflexivity.
Defined.

Lemma Get_peer_failure_falls_through_witness :
  let g := newGroup "G" 64 echo_getter remote_picker (λ _, 1) in
  ∃ g', Get 2 g "k" (Some sink0)
        = Some (g', Some {| sp := "v:k"; ss_v := {| b := None; s := "v:k" |} |},
                None)
        ∧ PeerErrors (stats g') = 1 ∧ LocalLoads (stats g') = 1.
Proof.
  intros g.
  assert (Hlk : ∃ g1, lookupCache (bump cGets g) "k"
                      = Some (g1, (zero, false)))
    by (eexists; reflexivity).
  destruct Hlk as [g1 Hlk].
  destruct (Get_peer_failure_falls_through 2 g g1 "k" sink0
              dead_peer None (errors_New "connection refused") zero)
    as (_ & _ & _ & _ & _ & Hacc).
  - exact Hlk.
  - reflexivity.
  - reflexivity.
  - destruct (Hacc {| sp := "v:k"; ss_v := {| b := None; s := "v:k" |} |}
                {| b := None; s := "v:k" |})
      as (g' & Hget & Hpe & _ & Hll & _).
    + apply group_ok_newGroup.
    + vm_compute. discriminate.
    + reflexivity.
    + reflexivity.
    + exists g'. split; [exact Hget|]. split; [exact Hpe|exact Hll].
Defined.

End EngineExamples.

(** ** The flight collapser *)

Section FlightFacts.
Import singleflight.
Context {R : Type} (zeroR : R).
Implicit Types (σ : state R) (cl : call R) (p : pc R) (t c : nat) (k : string).

(** What the goroutine that made a call is doing, and what it says of the
    call. *)
Definition owner_phase σ c cl p : Prop :=
  match p with
  | L61 c' => c' = c ∧ wg cl = 1 ∧ runs cl = 0%nat
              ∧ inflight σ (ckey cl) = Some c
  | InFn c' | L62 c' => c' = c ∧ wg cl = 1 ∧ runs cl = 1%nat
                        ∧ inflight σ (ckey cl) = Some c
  | L65 c' => c' = c ∧ wg cl = 0 ∧ runs cl = 1%nat
              ∧ inflight σ (ckey cl) = Some c
  | L70 c' => c' = c ∧ wg cl = 0 ∧ runs cl = 1%nat
              ∧ inflight σ (ckey cl) ≠ Some c
  | Ret c' r => c' = c ∧ wg cl = 0 ∧ runs cl = 1%nat
                ∧ inflight σ (ckey cl) ≠ Some c ∧ r = val_err cl
  | _ => False
  end.

(** What the place of a goroutine says of the call it points to. *)
Definition thread_inv σ t k p : Prop :=
  match p with
  | L44 => True
  | L51 c => ∃ cl, heap σ !! c = Some cl ∧ ckey cl = k ∧ owner cl ≠ t
  | L53 c => ∃ cl, heap σ !! c = Some cl ∧ ckey cl = k ∧ owner cl ≠ t
                   ∧ wg cl = 0 ∧ runs cl = 1%nat
  | Ret c r => ∃ cl, heap σ !! c = Some cl ∧ ckey cl = k
                     ∧ wg cl = 0 ∧ runs cl = 1%nat ∧ r = val_err cl
  | L61 c | InFn c | L62 c | L65 c | L70 c =>
      ∃ cl, heap σ !! c = Some cl ∧ ckey cl = k ∧ owner cl = t
  end.

Record inv σ : Prop := {
  inv_threads : ∀ t k p, threads σ !! t = Some (k, p) → thread_inv σ t k p;
  inv_calls : ∀ c cl, heap σ !! c = Some cl →
      ∃ p, threads σ !! owner cl = Some (ckey cl, p) ∧ owner_phase σ c cl p;
  inv_map : ∀ k c, inflight σ k = Some c →
      ∃ cl, heap σ !! c = Some cl ∧ ckey cl = k
}.

Lemma inv_init ks : inv (init ks).
Proof.
  constructor; simpl.
  - intros t k p. rewrite list_lookup_fmap.
    destruct (ks !! t); simpl; [|done]. by intros [= <- <-].
  - intros c cl. by rewrite lookup_nil.
  - done.
Qed.

(** A goroutine that is not in the part of [Do] that only the maker of a
    call runs has made no call. *)
Definition waiting p : Prop :=
  match p with L44 | L51 _ | L53 _ => True | _ => False end.

Lemma waiting_not_owner σ t k p c cl :
  inv σ → threads σ !! t = Some (k, p) → waiting p →
  heap σ !! c = Some cl → owner cl ≠ t.
Proof.
  intros Hinv Ht Hw Hc Ho.
  destruct (inv_calls σ Hinv c cl Hc) as (p' & Hp' & Hph).
  rewrite Ho, Ht in Hp'. injection Hp' as _ <-. by destruct p.
Qed.

(** The maker of a call points to this call and to no other. *)
Lemma owner_points σ t k p c cl :
  inv σ → threads σ !! t = Some (k, p) → heap σ !! c = Some cl →
  owner cl = t → owner_phase σ c cl p ∧ ckey cl = k.
Proof.
  intros Hinv Ht Hc Ho.
  destruct (inv_calls σ Hinv c cl Hc) as (p' & Hp' & Hph).
  rewrite Ho, Ht in Hp'. by injection Hp' as <- <-.
Qed.

Lemma phase_same_call σ c1 c2 cl1 cl2 p :
  owner_phase σ c1 cl1 p → owner_phase σ c2 cl2 p → c1 = c2.
Proof. destruct p; simpl; naive_solver. Qed.

(** A step that moves a goroutine and touches neither the calls nor the
    map. *)
Lemma goto_inv σ t k p p' :
  inv σ → threads σ !! t = Some (k, p) →
  thread_inv σ t k p' →
  (∀ c cl, heap σ !! c = Some cl → owner cl = t → owner_phase σ c cl p') →
  inv (goto σ t k p').
Proof.
  intros Hinv Ht Hti Hph. pose proof Hinv as [HA HB HC].
  constructor; simpl.
  - intros t' k' p'' [(<- & [= <- <-] & _)|[Hne Ht']]%list_lookup_insert_Some;
      [done|by apply HA].
  - intros c cl Hc. destruct (decide (owner cl = t)) as [Ho|Ho].
    + destruct (owner_points σ t k p c cl Hinv Ht Hc Ho) as [_ <-].
      exists p'. split; [|by apply Hph].
      rewrite Ho. apply list_lookup_insert_eq. by eapply lookup_lt_Some.
    + destruct (HB c cl Hc) as (p0 & Hp0 & Hph0). exists p0.
      split; [|done]. by rewrite list_lookup_insert_ne.
  - done.
Qed.

(** A step by which the maker of a call whose waiters are not released yet
    updates the call and moves on. *)
Lemma store_goto_inv σ t k p p' c cl cl' :
  inv σ → threads σ !! t = Some (k, p) →
  heap σ !! c = Some cl → owner cl = t → wg cl = 1 →
  ckey cl' = ckey cl → owner cl' = t →
  thread_inv (store σ c cl') t k p' →
  owner_phase σ c cl' p' →
  inv (goto (store σ c cl') t k p').
Proof.
  intros Hinv Ht Hc Ho Hwg Hck Hown Hti Hph. pose proof Hinv as [HA HB HC].
  assert (Hlt : (c < length (heap σ))%nat) by (by eapply lookup_lt_Some).
  destruct (owner_points σ t k p c cl Hinv Ht Hc Ho) as [Hphc Hk].
  assert (Hheap : ∀ c0 cl0, <[c := cl']> (heap σ) !! c0 = Some cl0 →
            (c0 = c ∧ cl0 = cl') ∨ (c0 ≠ c ∧ heap σ !! c0 = Some cl0)).
  { intros c0 cl0 [(<- & <- & _)|[? ?]]%list_lookup_insert_Some; auto. }
  constructor; simpl.
  - intros t' k' p'' [(<- & [= <- <-] & _)|[Hne Ht']]%list_lookup_insert_Some;
      [done|].
    specialize (HA t' k' p'' Ht').
    assert (Hkeep : ∀ c0 cl0, heap σ !! c0 = Some cl0 → c0 ≠ c →
              <[c := cl']> (heap σ) !! c0 = Some cl0).
    { intros c0 cl0 Hc0 Hne0. by rewrite list_lookup_insert_ne. }
    destruct p'' as [|c0|c0|c0|c0|c0|c0|c0|c0 r0]; simpl in *; [done|..];
      destruct HA as (cl0 & Hc0 & HA);
      (destruct (decide (c0 = c)) as [->|Hne0];
       [rewrite Hc in Hc0; injection Hc0 as <-;
        exists cl'; split; [by apply list_lookup_insert_eq|];
        rewrite ?Hck, ?Hown; try naive_solver lia
       |exists cl0; split; [by apply Hkeep|done]]).
  - intros c0 cl0 [[-> ->]|[Hne0 Hc0]]%Hheap.
    + exists p'. rewrite Hown, Hck, Hk. split; [|done].
      apply list_lookup_insert_eq. by eapply lookup_lt_Some.
    + destruct (HB c0 cl0 Hc0) as (p0 & Hp0 & Hph0).
      assert (owner cl0 ≠ t) as Hno.
      { intros Ho0. rewrite Ho0, Ht in Hp0. injection Hp0 as _ <-.
        by destruct (Hne0 (phase_same_call σ c0 c cl0 cl p Hph0 Hphc)). }
      exists p0. split; [by rewrite list_lookup_insert_ne|done].
  - intros k0 c0 (cl0 & Hc0 & Hk0)%HC.
    destruct (decide (c0 = c)) as [->|Hne0].
    + exists cl'. split; [by apply list_lookup_insert_eq|].
      rewrite Hc in Hc0. injection Hc0 as <-. by rewrite Hck.
    + exists cl0. split; [by rewrite list_lookup_insert_ne|done].
Qed.

Lemma thread_inv_mono σ σ' t k p :
  (∀ c cl, heap σ !! c = Some cl → heap σ' !! c = Some cl) →
  thread_inv σ t k p → thread_inv σ' t k p.
Proof.
  intros Hmono. destruct p; simpl; [done|..];
    intros (cl & Hc%Hmono & Hrest); by exists cl.
Qed.

Lemma phase_transfer σ σ' c cl p :
  (inflight σ (ckey cl) = Some c ↔ inflight σ' (ckey cl) = Some c) →
  owner_phase σ c cl p → owner_phase σ' c cl p.
Proof. intros Hiff. destruct p; simpl; rewrite <- ?Hiff; done. Qed.

(** Every step keeps the invariant. *)
Lemma step_inv σ σ' t r :
  inv σ → step zeroR σ t r = Some σ' → inv σ'.
Proof.
  intros Hinv. pose proof Hinv as [HA HB HC]. unfold step.
  destruct (threads σ !! t) as [[k p]|] eqn:Ht; simpl; [|done].
  assert (Htlt : (t < length (threads σ))%nat) by (by eapply lookup_lt_Some).
  pose proof (HA t k p Ht) as Hti.
  destruct p as [|c|c|c|c|c|c|c|c r0]; simpl in Hti.
  - (* lines 44 to 59 *)
    assert (Hinf : ∀ k', inflight σ k' = default ∅ (m σ) !! k').
    { intros k'. unfold inflight. by destruct (m σ). }
    assert (Hnown : ∀ c cl, heap σ !! c = Some cl → owner cl ≠ t).
    { intros c cl. by apply (waiting_not_owner σ t k L44). }
    destruct (default ∅ (m σ) !! k) as [c|] eqn:Hm; intros [= <-].
    + (* a call is in flight for the key *)
      assert (Hσ : {| m := Some (default ∅ (m σ)); heap := heap σ;
                      threads := <[t := (k, L51 c)]> (threads σ) |}
                   = goto σ t k (L51 c)).
      { unfold goto. destruct (m σ) as [m0|]; [done|].
        simpl in Hm. by rewrite lookup_empty in Hm. }
      rewrite Hσ. apply (goto_inv σ t k L44); [done|done| |].
      * simpl. destruct (HC k c) as (cl & Hc & Hk); [by rewrite Hinf|].
        exists cl. split; [done|]. split; [done|]. by eapply Hnown.
      * intros c0 cl0 Hc0 Ho0. by destruct (Hnown c0 cl0 Hc0).
    + (* no call is in flight: a call is made *)
      set (new := mkCall 1 zeroR k t 0).
      assert (Hmono : ∀ c cl, heap σ !! c = Some cl →
                (heap σ ++ [new]) !! c = Some cl).
      { intros c cl Hc. by apply lookup_app_l_Some. }
      constructor; simpl.
      * intros t' k' p'
          [(<- & [= <- <-] & _)|[Hne Ht']]%list_lookup_insert_Some.
        -- simpl. exists new. split; [|done].
           rewrite lookup_app_r by lia. by rewrite Nat.sub_diag.
        -- eapply thread_inv_mono; [|by apply HA]. done.
      * intros c0 cl0 [[Hlt Hc0]|[-> <-]]%lookup_snoc_Some.
        -- destruct (HB c0 cl0 Hc0) as (p0 & Hp0 & Hph0). exists p0.
           split; [rewrite list_lookup_insert_ne; [done|]|].
           { intros Heq. by apply (Hnown c0 cl0). }
           eapply phase_transfer; [|exact Hph0].
           unfold inflight at 2. simpl. rewrite Hinf.
           destruct (decide (ckey cl0 = k)) as [->|Hnek].
           ++ rewrite lookup_insert_eq, Hm. split; [done|]. intros [=]. lia.
           ++ by rewrite lookup_insert_ne.
        -- exists (L61 (length (heap σ))). simpl.
           split; [by apply list_lookup_insert_eq|].
           unfold inflight. simpl. by rewrite lookup_insert_eq.
      * intros k' c'. unfold inflight at 1. simpl.
        destruct (decide (k' = k)) as [->|Hnek].
        -- rewrite lookup_insert_eq. intros [= <-]. exists new.
           split; [|done]. rewrite lookup_app_r by lia.
           by rewrite Nat.sub_diag.
        -- rewrite lookup_insert_ne by done. rewrite <- Hinf.
           intros (cl & Hc & Hk)%HC. exists cl. split; [by apply Hmono|done].
  - (* line 51: Wait *)
    destruct Hti as (cl & Hc & Hk & Ho). rewrite Hc. simpl.
    destruct (Z.eqb_spec (wg cl) 0) as [Hwg|]; [|done]. intros [= <-].
    apply (goto_inv σ t k (L51 c)); [done|done| |].
    + simpl. exists cl. repeat (split; [done|]).
      destruct (HB c cl Hc) as (p0 & _ & Hph0).
      destruct p0; simpl in Hph0; naive_solver lia.
    + intros c0 cl0 Hc0 Ho0.
      by destruct (waiting_not_owner σ t k (L51 c) c0 cl0).
  - (* line 53: return *)
    destruct Hti as (cl & Hc & Hk & Ho & Hwg & Hruns). rewrite Hc. simpl.
    intros [= <-]. apply (goto_inv σ t k (L53 c)); [done|done| |].
    + simpl. by exists cl.
    + intros c0 cl0 Hc0 Ho0.
      by destruct (waiting_not_owner σ t k (L53 c) c0 cl0).
  - (* line 61: fn starts *)
    destruct Hti as (cl & Hc & Hk & Ho). rewrite Hc. simpl. intros [= <-].
    destruct (owner_points σ t k _ c cl Hinv Ht Hc Ho)
      as [(_ & Hwg & Hruns & Hin) _].
    eapply (store_goto_inv σ t k (L61 c)); try done; simpl.
    + eexists. split; [apply list_lookup_insert_eq; by eapply lookup_lt_Some|].
      done.
    + by rewrite Hruns.
  - (* line 61: fn returns *)
    destruct Hti as (cl & Hc & Hk & Ho). rewrite Hc. simpl. intros [= <-].
    destruct (owner_points σ t k _ c cl Hinv Ht Hc Ho)
      as [(_ & Hwg & Hruns & Hin) _].
    eapply (store_goto_inv σ t k (InFn c)); try done; simpl.
    eexists. split; [apply list_lookup_insert_eq; by eapply lookup_lt_Some|].
    done.
  - (* line 62: Done *)
    destruct Hti as (cl & Hc & Hk & Ho). rewrite Hc. simpl. intros [= <-].
    destruct (owner_points σ t k _ c cl Hinv Ht Hc Ho)
      as [(_ & Hwg & Hruns & Hin) _].
    eapply (store_goto_inv σ t k (L62 c)); try done; simpl.
    + eexists. split; [apply list_lookup_insert_eq; by eapply lookup_lt_Some|].
      done.
    + repeat (split; [done|]). split; [lia|done].
  - (* lines 65 to 68: delete *)
    destruct Hti as (cl & Hc & Hk & Ho). intros [= <-].
    destruct (owner_points σ t k _ c cl Hinv Ht Hc Ho)
      as [(_ & Hwg & Hruns & Hin) _].
    assert (Hinf : ∀ ths k', inflight {| m := delete k <$> m σ;
                               heap := heap σ; threads := ths |} k'
                      = if decide (k' = k) then None else inflight σ k').
    { intros ths k'. unfold inflight. simpl. destruct (m σ) as [m0|]; simpl.
      - case_decide; [subst; by rewrite lookup_delete_eq|].
        by rewrite lookup_delete_ne.
      - by case_decide. }
    constructor; simpl.
    + intros t' k' p'
        [(<- & [= <- <-] & _)|[Hne Ht']]%list_lookup_insert_Some.
      * simpl. by exists cl.
      * eapply thread_inv_mono; [|by apply HA]. done.
    + intros c0 cl0 Hc0. destruct (decide (owner cl0 = t)) as [Ho0|Ho0].
      * destruct (owner_points σ t k _ c0 cl0 Hinv Ht Hc0 Ho0) as [Hph0 Hk0].
        destruct Hph0 as (<- & _). rewrite Hc in Hc0. injection Hc0 as <-.
        exists (L70 c). rewrite Ho, Hk. split;
          [by apply list_lookup_insert_eq|].
        simpl. rewrite Hinf, Hk. repeat (split; [done|]).
        by rewrite decide_True.
      * destruct (HB c0 cl0 Hc0) as (p0 & Hp0 & Hph0). exists p0.
        split; [by rewrite list_lookup_insert_ne|].
        eapply phase_transfer; [|exact Hph0]. rewrite Hinf.
        case_decide as Hk0; [|done].
        rewrite Hk0, <- Hk, Hin. split; [|done]. intros [= ->].
        rewrite Hc in Hc0. by injection Hc0 as <-.
    + intros k' c'. rewrite Hinf. case_decide; [done|]. by apply HC.
  - (* line 70: return *)
    destruct Hti as (cl & Hc & Hk & Ho). rewrite Hc. simpl. intros [= <-].
    destruct (owner_points σ t k _ c cl Hinv Ht Hc Ho)
      as [(_ & Hwg & Hruns & Hin) _].
    apply (goto_inv σ t k (L70 c)); [done|done| |].
    + simpl. by exists cl.
    + intros c0 cl0 Hc0 Ho0.
      destruct (owner_points σ t k _ c0 cl0 Hinv Ht Hc0 Ho0) as [Hph0 _].
      destruct Hph0 as (<- & _). rewrite Hc in Hc0. injection Hc0 as <-.
      done.
  - done.
Qed.

Lemma run_inv σ σ' sched :
  inv σ → run zeroR σ sched = Some σ' → inv σ'.
Proof.
  revert σ. induction sched as [|[t r] sched IH]; intros σ Hinv; simpl.
  - by intros [= <-].
  - destruct (step zeroR σ t r) as [σ1|] eqn:Hs; simpl; [|done].
    apply IH. by eapply step_inv.
Qed.

Lemma run_cons σ σ1 t r sched :
  step zeroR σ t r = Some σ1 →
  run zeroR σ ((t, r) :: sched) = run zeroR σ1 sched.
Proof. intros Hs. simpl. by rewrite Hs. Qed.

(** A caller that overlaps no other: it makes a call, runs [fn], and
    returns what [fn] has returned, and leaves no call registered. *)
Lemma Do_alone k r :
  ∃ σ, run zeroR (init [k]) (replicate 6 (0%nat, r)) = Some σ
       ∧ threads σ = [(k, Ret 0 r)]
       ∧ heap σ = [mkCall 0 r k 0 1]
       ∧ inflight σ k = None.
Proof.
  eexists. split.
  - cbn [replicate].
    erewrite run_cons;
      [|unfold step; simpl; rewrite lookup_empty; reflexivity].
    simpl. reflexivity.
  - simpl. repeat (split; [reflexivity|]).
    unfold inflight. simpl. apply lookup_delete_eq.
Qed.

(** C2.  In every state that concurrent calls of [Do] reach:
    (1) [fn] has been started at most once for each call that was made;
    (2) a goroutine that runs [fn] is the one that made the call, that is
    the first caller of the flight, and no two goroutines run [fn] for
    the same key at the same time;
    (3) a caller that arrives while a call is registered for its key
    joins this call and does not start [fn];
    (4) a caller that has joined a call cannot go past [Wait] before [fn]
    has returned and the maker of the call has called [Done];
    (5) every caller that has returned from a call, its maker or not,
    has returned the pair stored in the call, after the one run of [fn]
    for it. *)
Theorem Do_runs_fn_once ks sched σ :
  run zeroR (init ks) sched = Some σ →
  (∀ c cl, heap σ !! c = Some cl → (runs cl <= 1)%nat)
  ∧ (∀ t k c, threads σ !! t = Some (k, InFn c) →
       (∃ cl, heap σ !! c = Some cl ∧ owner cl = t ∧ ckey cl = k
              ∧ inflight σ k = Some c)
       ∧ ∀ t' c', threads σ !! t' = Some (k, InFn c') → t' = t ∧ c' = c)
  ∧ (∀ t k c r, threads σ !! t = Some (k, L44) → inflight σ k = Some c →
       ∃ σ', step zeroR σ t r = Some σ'
             ∧ threads σ' !! t = Some (k, L51 c) ∧ heap σ' = heap σ)
  ∧ (∀ t k c r σ', threads σ !! t = Some (k, L51 c) →
       step zeroR σ t r = Some σ' →
       ∃ cl p, heap σ !! c = Some cl ∧ wg cl = 0 ∧ runs cl = 1%nat
               ∧ threads σ !! owner cl = Some (k, p)
               ∧ (p = L65 c ∨ p = L70 c ∨ p = Ret c (val_err cl)))
  ∧ (∀ t k c r, threads σ !! t = Some (k, Ret c r) →
       ∃ cl, heap σ !! c = Some cl ∧ ckey cl = k ∧ runs cl = 1%nat
             ∧ r = val_err cl).
Proof.
  intros Hrun. pose proof (run_inv _ _ _ (inv_init ks) Hrun) as Hinv.
  pose proof Hinv as [HA HB HC].
  split; [|split; [|split; [|split]]].
  - intros c cl Hc. destruct (HB c cl Hc) as (p & _ & Hph).
    destruct p; simpl in Hph; naive_solver lia.
  - intros t k c Ht. destruct (HA t k _ Ht) as (cl & Hc & Hk & Ho).
    destruct (owner_points σ t k _ c cl Hinv Ht Hc Ho)
      as [(_ & _ & _ & Hin) _].
    rewrite Hk in Hin. split; [by exists cl|].
    intros t' c' Ht'. destruct (HA t' k _ Ht') as (cl' & Hc' & Hk' & Ho').
    destruct (owner_points σ t' k _ c' cl' Hinv Ht' Hc' Ho')
      as [(_ & _ & _ & Hin') _].
    rewrite Hk', Hin in Hin'. injection Hin' as <-.
    rewrite Hc in Hc'. injection Hc' as <-. by rewrite <- Ho, <- Ho'.
  - intros t k c r Ht Hin. unfold step. rewrite Ht. simpl.
    unfold inflight in Hin. destruct (m σ) as [m0|]; [|done]. simpl in *.
    rewrite Hin. eexists. split; [done|]. simpl. split; [|done].
    apply list_lookup_insert_eq. by eapply lookup_lt_Some.
  - intros t k c r σ' Ht. unfold step. rewrite Ht. simpl.
    destruct (HA t k _ Ht) as (cl & Hc & Hk & Ho). rewrite Hc. simpl.
    destruct (Z.eqb_spec (wg cl) 0) as [Hwg|]; [|done]. intros _.
    destruct (HB c cl Hc) as (p & Hp & Hph). exists cl, p. rewrite <- Hk.
    destruct p; simpl in Hph; naive_solver lia.
  - intros t k c r Ht. destruct (HA t k _ Ht) as (cl & Hc & Hk & _ & ? & ?).
    by exists cl.
Qed.

(** C7, as the program has it.  In every state that concurrent calls of
    [Do] reach, for every call: once [fn] has returned and until [Done]
    the waiters are held and the key is registered; after [Done] and until
    the deletion the waiters are released while the key is still
    registered; after the deletion the key is not registered to this call.
    A caller that arrives when no call is registered for its key makes a
    call of its own, for which [fn] has not run; one that arrives when a
    call is registered joins it, and if its waiters are released already
    it goes past [Wait] at once and returns the result of the call. *)
Theorem Do_releases_then_deletes ks sched σ :
  run zeroR (init ks) sched = Some σ →
  (∀ c cl, heap σ !! c = Some cl →
     ∃ p, threads σ !! owner cl = Some (ckey cl, p)
          ∧ match p with
            | L62 _ => wg cl = 1 ∧ inflight σ (ckey cl) = Some c
            | L65 _ => wg cl = 0 ∧ inflight σ (ckey cl) = Some c
            | L70 _ | Ret _ _ => wg cl = 0 ∧ inflight σ (ckey cl) ≠ Some c
            | _ => wg cl = 1
            end)
  ∧ (∀ t k r, threads σ !! t = Some (k, L44) → inflight σ k = None →
       ∃ σ', step zeroR σ t r = Some σ'
             ∧ threads σ' !! t = Some (k, L61 (length (heap σ)))
             ∧ heap σ' = heap σ ++ [mkCall 1 zeroR k t 0])
  ∧ (∀ t k c cl r, threads σ !! t = Some (k, L44) →
       inflight σ k = Some c → heap σ !! c = Some cl → wg cl = 0 →
       run zeroR σ [(t, r); (t, r); (t, r)]
       = Some (goto σ t k (Ret c (val_err cl)))).
Proof.
  intros Hrun. pose proof (run_inv _ _ _ (inv_init ks) Hrun) as Hinv.
  pose proof Hinv as [HA HB HC].
  split; [|split].
  - intros c cl Hc. destruct (HB c cl Hc) as (p & Hp & Hph). exists p.
    split; [done|]. destruct p; simpl in Hph; naive_solver.
  - intros t k r Ht Hin. unfold step. rewrite Ht. simpl.
    assert (Hm : default ∅ (m σ) !! k = None).
    { unfold inflight in Hin. by destruct (m σ). }
    rewrite Hm. eexists. split; [done|]. simpl. split; [|done].
    apply list_lookup_insert_eq. by eapply lookup_lt_Some.
  - intros t k c cl r Ht Hin Hc Hwg.
    assert (Hlt : (t < length (threads σ))%nat) by (by eapply lookup_lt_Some).
    assert (H1 : step zeroR σ t r = Some (goto σ t k (L51 c))).
    { unfold step. rewrite Ht. simpl. unfold inflight in Hin.
      destruct (m σ) as [m0|] eqn:Hm; [|done]. simpl in *. rewrite Hin.
      unfold goto. by rewrite Hm. }
    assert (H2 : step zeroR (goto σ t k (L51 c)) t r
                 = Some (goto σ t k (L53 c))).
    { unfold step. simpl. rewrite list_lookup_insert_eq by done. simpl.
      rewrite Hc. simpl. rewrite Hwg. simpl. unfold goto. simpl.
      by rewrite list_insert_insert_eq. }
    assert (H3 : step zeroR (goto σ t k (L53 c)) t r
                 = Some (goto σ t k (Ret c (val_err cl)))).
    { unfold step. simpl. rewrite list_lookup_insert_eq by done. simpl.
      rewrite Hc. simpl. unfold goto. simpl.
      by rewrite list_insert_insert_eq. }
    by rewrite (run_cons _ _ _ _ _ H1), (run_cons _ _ _ _ _ H2),
      (run_cons _ _ _ _ _ H3).
Qed.

End FlightFacts.

Section FlightExamples.
Import golang singleflight.

(** The pairs [(val, err)] of the examples. *)
Definition result : Type := option string * option error.
Definition nil_result : result := (None, None).
Definition ok (x : string) : result := (Some x, None).

(** Three callers of the same key.  The first makes the call and runs
    [fn]; the second joins before [fn] returns, the third after [Done] and
    before the deletion. *)
Definition sched3 : list (nat * result) :=
  (λ t, (t, ok "v")) <$>
    [0; 1; 0; 0; 0; 2; 1; 1; 2; 2; 0; 0]%nat.

Lemma Do_runs_fn_once_witness :
  ∃ σ, run nil_result (init ["k"; "k"; "k"]) sched3 = Some σ
       ∧ threads σ = [("k", Ret 0 (ok "v")); ("k", Ret 0 (ok "v"));
                      ("k", Ret 0 (ok "v"))]
       ∧ ∀ c cl, heap σ !! c = Some cl → (runs cl <= 1)%nat.
Proof.
  eexists. split; [vm_compute; reflexivity|]. split; [reflexivity|].
  apply (Do_runs_fn_once nil_result ["k"; "k"; "k"] sched3).
  vm_compute. reflexivity.
Defined.

(** C7 as stated fails: after the first caller has run [fn] and called
    [Done], and before it deletes the key, the second caller is past
    [Wait] while the key is still registered to the call. *)
Lemma Do_waiter_released_before_delete :
  ¬ (∀ ks sched (σ : state result) t k c,
       run nil_result (init ks) sched = Some σ →
       threads σ !! t = Some (k, L53 c) → inflight σ k ≠ Some c).
Proof.
  intros Hclaim.
  pose (sched := (λ t, (t, ok "v")) <$> [0; 1; 0; 0; 0; 1]%nat).
  destruct (run nil_result (init ["k"; "k"]) sched) as [σ|] eqn:Hrun;
    [|by vm_compute in Hrun].
  apply (Hclaim ["k"; "k"] sched σ 1%nat "k" 0%nat Hrun).
  - vm_compute in Hrun. injection Hrun as <-. reflexivity.
  - vm_compute in Hrun. injection Hrun as <-. vm_compute. reflexivity.
Qed.

(** The first caller of two has run [fn] and called [Done]. *)
Definition sched_done : list (nat * result) :=
  (λ t, (t, ok "v")) <$> [0; 0; 0; 0]%nat.

Lemma Do_releases_then_deletes_witness :
  ∃ σ, run nil_result (init ["k"; "k"]) sched_done = Some σ
       ∧ threads σ = [("k", L65 0%nat); ("k", L44)]
       ∧ run nil_result σ [(1%nat, ok "w"); (1%nat, ok "w"); (1%nat, ok "w")]
         = Some (goto σ 1 "k" (Ret 0 (ok "v"))).
Proof.
  destruct (run nil_result (init ["k"; "k"]) sched_done) as [σ|] eqn:Hrun;
    [|by vm_compute in Hrun].
  exists σ. split; [reflexivity|].
  destruct (Do_releases_then_deletes nil_result ["k"; "k"] sched_done σ Hrun)
    as (_ & _ & Hjoin).
  vm_compute in Hrun. injection Hrun as <-. split; [reflexivity|].
  apply (Hjoin 1%nat "k" 0%nat
           (mkCall 0 (ok "v") "k" 0%nat 1%nat) (ok "w")); reflexivity.
Defined.

End FlightExamples.

(** ** Pruning the table of peers *)

Section PruneFacts.
Import golang peermanager.

#[local] Instance string_le_total : Total string_le.
Proof. intros x y. apply String.leb_total. Qed.

(** A duration that is not the least one is compared with a difference of
    instants as with its saturation. *)
Lemma time_Since_lt (now t timeout : Z) :
  MinInt64 < timeout <= MaxInt64 →
  (time_Since now t <? timeout) = (now - t <? timeout).
Proof.
  unfold time_Since, Time_Sub, MinInt64, MaxInt64. intros Ht.
  destruct (Z.ltb_spec (now - t) timeout), (Z.ltb_spec
    (Z.max (- 2 ^ 63) (Z.min (2 ^ 63 - 1) (now - t))) timeout); lia.
Qed.

(** Whether the loop keeps the entry of an address. *)
Definition kept (ps : PeerStore) (now : string → Z) (addr : string)
    (e : PeerEntry) : bool :=
  bool_decide (addr = selfGroupcacheAddr ps)
  || (time_Since (now addr) (LastSeen e) <? peerTimeoutDuration ps).

Definition live (ps : PeerStore) (now : string → Z) (addr : string)
    (e : PeerEntry) : bool :=
  negb (bool_decide (addr = selfGroupcacheAddr ps))
  && (time_Since (now addr) (LastSeen e) <? peerTimeoutDuration ps).

(** What the loop has computed once it has visited the entries of [mp]. *)
Lemma prune_loop ps now (mp : gmap string PeerEntry) :
  let '(livePeers, updated, removedCount) :=
    map_fold (prune_body ps now) ([], ∅, 0) mp in
  (∀ addr, updated !! addr
           = e ← mp !! addr; if kept ps now addr e then Some e else None)
  ∧ NoDup livePeers
  ∧ (∀ addr, addr ∈ livePeers ↔
             ∃ e, mp !! addr = Some e ∧ live ps now addr e = true).
Proof.
  apply (map_fold_weak_ind
    (λ acc (mp : gmap string PeerEntry),
       let '(livePeers, updated, removedCount) := acc in
       (∀ addr, updated !! addr
                = e ← mp !! addr; if kept ps now addr e then Some e else None)
       ∧ NoDup livePeers
       ∧ (∀ addr, addr ∈ livePeers ↔
                  ∃ e, mp !! addr = Some e ∧ live ps now addr e = true))).
  - split; [|split].
    + intros addr. by rewrite !lookup_empty.
    + constructor.
    + intros addr. rewrite lookup_empty. split; [by intros ?%elem_of_nil|].
      by intros (e & ? & _).
  - intros addr e mp' [[livePeers updated] removedCount] Hfresh
      (Hupd & Hnd & Hlive).
    unfold prune_body.
    assert (Hnotin : addr ∉ livePeers).
    { intros (e' & He' & _)%Hlive. by rewrite Hfresh in He'. }
    assert (Hother : ∀ a, a ≠ addr →
              (∃ e0, <[addr := e]> mp' !! a = Some e0
                     ∧ live ps now a e0 = true)
              ↔ a ∈ livePeers).
    { intros a Hne. rewrite lookup_insert_ne by done. by rewrite Hlive. }
    destruct (decide (addr = selfGroupcacheAddr ps)) as [Hself|Hself];
      [|destruct (time_Since (now addr) (LastSeen e)
                  <? peerTimeoutDuration ps) eqn:Halive].
    + split; [|split; [done|]].
      * intros a. destruct (decide (a = addr)) as [->|Hne].
        -- rewrite !lookup_insert_eq. simpl. unfold kept.
           by rewrite bool_decide_eq_true_2.
        -- rewrite !lookup_insert_ne by done. apply Hupd.
      * intros a. destruct (decide (a = addr)) as [->|Hne];
          [|by rewrite Hother].
        split; [done|]. intros (e0 & He0 & Hl). exfalso.
        unfold live in Hl. by rewrite bool_decide_eq_true_2 in Hl.
    + split; [|split].
      * intros a. destruct (decide (a = addr)) as [->|Hne].
        -- rewrite !lookup_insert_eq. simpl. unfold kept.
           by rewrite Halive, orb_true_r.
        -- rewrite !lookup_insert_ne by done. apply Hupd.
      * apply NoDup_app. split; [done|]. split; [|apply NoDup_singleton].
        intros a Ha ->%list_elem_of_singleton. done.
      * intros a. rewrite elem_of_app, list_elem_of_singleton.
        destruct (decide (a = addr)) as [->|Hne].
        -- split; [|by right]. intros _. exists e.
           rewrite lookup_insert_eq. split; [done|]. unfold live.
           by rewrite bool_decide_eq_false_2, Halive.
        -- rewrite Hother by done. naive_solver.
    + split; [|split; [done|]].
      * intros a. destruct (decide (a = addr)) as [->|Hne].
        -- rewrite lookup_insert_eq. simpl. unfold kept.
           rewrite bool_decide_eq_false_2, Halive by done. simpl.
           rewrite Hupd, Hfresh. done.
        -- rewrite lookup_insert_ne by done. apply Hupd.
      * intros a. destruct (decide (a = addr)) as [->|Hne];
          [|by rewrite Hother].
        split; [done|]. intros (e0 & He0 & Hl). exfalso.
        rewrite lookup_insert_eq in He0. injection He0 as <-.
        unfold live in Hl. rewrite Halive in Hl.
        by rewrite andb_false_r in Hl.
Qed.

(** C8, as the program has it.  For a timeout that is an [int64]
    duration other than the least one, [GetLivePeerGroupcacheAddrsAndPrune]
    drops from the table exactly the entries of the peers other than self
    that were last seen a timeout or more ago ([now - last-seen >=
    peer-timeout]) and keeps every other entry as it is, that of self
    whatever its age; it adds no entry; the list it returns is sorted, has
    no duplicate, and holds exactly the addresses other than self whose
    entry was seen less than a timeout ago, so never self. *)
Theorem prune_spec (ps : PeerStore) (now : string → Z) :
  MinInt64 < peerTimeoutDuration ps <= MaxInt64 →
  let ps' := (GetLivePeerGroupcacheAddrsAndPrune ps now).1 in
  let livePeers := (GetLivePeerGroupcacheAddrsAndPrune ps now).2 in
  let self := selfGroupcacheAddr ps in
  let timeout := peerTimeoutDuration ps in
  (∀ addr e, peers ps !! addr = Some e →
     (addr ≠ self ∧ timeout <= now addr - LastSeen e →
      peers ps' !! addr = None)
     ∧ (addr = self ∨ now addr - LastSeen e < timeout →
        peers ps' !! addr = Some e))
  ∧ (∀ addr, peers ps !! addr = None → peers ps' !! addr = None)
  ∧ peers ps' !! self = peers ps !! self
  ∧ (∀ addr, addr ∈ livePeers ↔
       addr ≠ self ∧ ∃ e, peers ps !! addr = Some e
                          ∧ now addr - LastSeen e < timeout)
  ∧ (self ∉ livePeers)
  ∧ Sorted string_le livePeers ∧ NoDup livePeers
  ∧ selfGroupcacheAddr ps' = self ∧ peerTimeoutDuration ps' = timeout.
Proof.
  intros Ht ps' livePeers self timeout.
  subst ps' livePeers. unfold GetLivePeerGroupcacheAddrsAndPrune.
  pose proof (prune_loop ps now (peers ps)) as Hloop.
  destruct (map_fold (prune_body ps now) ([], ∅, 0) (peers ps))
    as [[lp updated] removedCount].
  destruct Hloop as (Hupd & Hnd & Hlive). simpl.
  assert (Hlt : ∀ addr e,
            (time_Since (now addr) (LastSeen e) <? peerTimeoutDuration ps)
            = (now addr - LastSeen e <? timeout)).
  { intros addr e. by apply time_Since_lt. }
  assert (Hmem : ∀ addr, addr ∈ sort_Strings lp ↔
            addr ≠ self ∧ ∃ e, peers ps !! addr = Some e
                               ∧ now addr - LastSeen e < timeout).
  { intros addr. unfold sort_Strings.
    rewrite (merge_sort_Permutation string_le lp), Hlive. unfold live.
    split.
    - intros (e & He & [Hns Hal]%andb_true_iff). rewrite Hlt in Hal.
      apply negb_true_iff, bool_decide_eq_false in Hns.
      split; [done|]. exists e. split; [done|]. by apply Z.ltb_lt.
    - intros (Hns & e & He & Hal). exists e. split; [done|].
      apply andb_true_iff. split.
      + by apply negb_true_iff, bool_decide_eq_false.
      + rewrite Hlt. by apply Z.ltb_lt. }
  split; [|split; [|split; [|split; [done|split; [|split; [|split]]]]]].
  - intros addr e He. rewrite Hupd, He. simpl. unfold kept. rewrite Hlt.
    split.
    + intros [Hns Hold]. rewrite bool_decide_eq_false_2 by done.
      destruct (Z.ltb_spec (now addr - LastSeen e) timeout); [lia|done].
    + intros [Hs|Hal].
      * by rewrite bool_decide_eq_true_2.
      * destruct (Z.ltb_spec (now addr - LastSeen e) timeout); [|lia].
        by rewrite orb_true_r.
  - intros addr He. by rewrite Hupd, He.
  - rewrite Hupd. destruct (peers ps !! self) as [e|]; [|done]. simpl.
    unfold kept. by rewrite bool_decide_eq_true_2.
  - intros (Hns & _)%Hmem. done.
  - apply Sorted_merge_sort. apply _.
  - unfold sort_Strings. by rewrite (merge_sort_Permutation string_le lp).
  - done.
Qed.

End PruneFacts.

Section PruneExamples.
Import golang peermanager.

(** The pool of the node ["self"], as [NewHTTPPoolOpts] makes it from nil
    options. *)
Definition pool0 : http.HTTPPool :=
  {| http.self := "self";
     http.opts := {| http.BasePath := http.defaultBasePath;
                     http.Replicas := http.defaultReplicas;
                     http.HashFn := None |};
     http.peers := consistenthash.New http.defaultReplicas None;
     http.httpGetters := ∅ |}.

(** The table of the peer ["self"], made at instant 0 with this pool,
    after it has heard, at instant 0 too, of the peer ["p"]; the timeout
    is the default one, 15 seconds. *)
Definition store0 : PeerStore :=
  (AddOrUpdatePeer (NewPeerStore "api-self" "self" [] (Some pool0) 0 0)
     "p" "api-p" 0).1.

Lemma prune_spec_witness :
  let r := GetLivePeerGroupcacheAddrsAndPrune store0 (λ _, 10 * Second) in
  peers r.1 !! "self" = peers store0 !! "self"
  ∧ r.2 = ["p"] ∧ "self" ∉ r.2.
Proof.
  intros r.
  destruct (prune_spec store0 (λ _, 10 * Second))
    as (_ & _ & Hself & _ & Hnot & _).
  { vm_compute. split; [reflexivity|discriminate]. }
  split; [exact Hself|]. split; [vm_compute; reflexivity|exact Hnot].
Defined.

(** C8 as stated fails: an entry seen exactly a timeout ago is dropped,
    though its age does not exceed the timeout. *)
Lemma prune_drops_at_the_timeout :
  ¬ (∀ (ps : PeerStore) (now : string → Z) addr e,
       peers ps !! addr = Some e → addr ≠ selfGroupcacheAddr ps →
       (peers (GetLivePeerGroupcacheAddrsAndPrune ps now).1 !! addr = None
        ↔ now addr - LastSeen e > peerTimeoutDuration ps)).
Proof.
  intros Hclaim.
  destruct (Hclaim store0 (λ _, 15 * Second) "p" (mkPeerEntry "p" "api-p" 0))
    as [Hdrop _]; [by vm_compute|done|].
  assert (Hgt : 15 * Second - 0 > peerTimeoutDuration store0)
    by (apply Hdrop; by vm_compute).
  vm_compute in Hgt. discriminate Hgt.
Qed.

End PruneExamples.

(** ** A key added twice to a segment *)

Section OverwriteExamples.
Import golang lru byteview sinks groupcache.

Definition view_xx : ByteView := {| b := None; s := "xx" |}.
Definition view_xxxx : ByteView := {| b := None; s := "xxxx" |}.

(** C3 at two calls of [cache.add] for one key on a new segment: the
    index and the order hold the same key, the one entry left charges 3
    bytes, and [nbytes] is 6. *)
Theorem cache_add_twice_counts_twice :
  ∃ c1 c2,
    cache_add (cache_literal "hot") "a" view_xx = Some c1
    ∧ cache_add c1 "a" view_xx = Some c2
    ∧ cache_entries c2 = [mkEntry "a" view_xx]
    ∧ cache_total c2 = 3
    ∧ nbytes c2 = 6
    ∧ cache_keys c2 = list_to_set (key <$> cache_entries c2).
Proof.
  eexists _, _. split; [reflexivity|]. split; [reflexivity|].
  repeat (split; [vm_compute; reflexivity|]). vm_compute. reflexivity.
Qed.

(** A group of budget 10; the same group after the key ["a"] has been put
    twice in the hot segment and the key ["b"] in the main one: the hot
    segment has no entry left and a charge of 3 bytes. *)
Definition group10 : Group stringSink :=
  newGroup "G" 10 echo_getter NoPeers (λ _, 1).

Definition after_overwrite : Group stringSink :=
  default group10
    (g1 ← populateCache 5 group10 "a" view_xx HotCache;
     g2 ← populateCache 5 g1 "a" view_xx HotCache;
     populateCache 5 g2 "b" view_xxxx MainCache).

Lemma after_overwrite_reached :
  (g1 ← populateCache 5 group10 "a" view_xx HotCache;
   g2 ← populateCache 5 g1 "a" view_xx HotCache;
   populateCache 5 g2 "b" view_xxxx MainCache) = Some after_overwrite
  ∧ cache_entries (hotCache after_overwrite) = []
  ∧ nbytes (hotCache after_overwrite) = 3
  ∧ nbytes (mainCache after_overwrite) = 5.
Proof.
  split; [reflexivity|]. repeat split; vm_compute; reflexivity.
Qed.

(** The group while [populateCache] of ["c"] in the main segment is in
    its loop. *)
Definition spinning : Group stringSink :=
  set_cache after_overwrite MainCache
    (default (mainCache after_overwrite)
       (cache_add (mainCache after_overwrite) "c" view_xx)).

(** From there the loop of [populateCache] never returns: the charges add
    up to 11, over the budget, the victim is the hot segment, and it has
    no entry to remove. *)
Lemma populateCache_spins_after_overwrite (fuel : nat) :
  populateCache fuel after_overwrite "c" view_xx MainCache = None.
Proof.
  assert (Hadd : populateCache fuel after_overwrite "c" view_xx MainCache
                 = evict fuel spinning).
  { unfold populateCache.
    replace (cacheBytes after_overwrite <=? 0) with false
      by (vm_compute; reflexivity).
    replace (cache_add (get_cache after_overwrite MainCache) "c" view_xx)
      with (Some (mainCache spinning)) by reflexivity.
    reflexivity. }
  rewrite Hadd. clear Hadd. induction fuel as [|fuel IH]; [done|].
  cbn [evict].
  replace (int64 (cache_bytes (mainCache spinning)
                  + cache_bytes (hotCache spinning)) <=? cacheBytes spinning)
    with false by (vm_compute; reflexivity).
  replace (victim spinning) with HotCache by (vm_compute; reflexivity).
  replace (cache_removeOldest (get_cache spinning HotCache))
    with (Some (hotCache spinning)) by reflexivity.
  exact IH.
Qed.

End OverwriteExamples.

(** ** Views of bytes: equality and conversions *)

Section ByteViewEquality.
Import golang byteview.

Lemma at_index_Some {A} (x : list A) (i : Z) :
  0 <= i < len x → at_index x i = x !! Z.to_nat i ∧ is_Some (x !! Z.to_nat i).
Proof.
  intros Hi. unfold at_index.
  destruct (Z.leb_spec 0 i), (Z.ltb_spec i (len x)); try lia. simpl.
  split; [done|]. apply lookup_lt_is_Some_2. unfold len in Hi. lia.
Qed.

Lemma at_index_None {A} (x : list A) (i : Z) :
  ¬ (0 <= i < len x) → at_index x i = None.
Proof.
  intros Hi. unfold at_index.
  destruct (Z.leb_spec 0 i), (Z.ltb_spec i (len x)); simpl; try done. lia.
Qed.

Lemma bytes_of_string_inj x y :
  bytes_of_string x = bytes_of_string y → x = y.
Proof.
  unfold bytes_of_string. intros Hxy.
  rewrite <- (string_of_list_byte_of_string x),
          <- (string_of_list_byte_of_string y). by rewrite Hxy.
Qed.

(** The loop compares [x] with the bytes of [y] from [i] on. *)
Lemma range_equal_spec (x y : list byte) (i : nat) :
  (i + length x <= length y)%nat →
  range_equal x y (Z.of_nat i)
  = Some (bool_decide (x = take (length x) (drop i y))).
Proof.
  revert i. induction x as [|bi x IH]; intros i Hlen; simpl.
  - done.
  - simpl in Hlen.
    destruct (at_index_Some y (Z.of_nat i)) as [-> [yi Hyi]];
      [unfold len; lia|].
    rewrite Nat2Z.id in *. rewrite Hyi. simpl.
    rewrite (drop_S _ _ _ Hyi). simpl.
    destruct (Byte.eqb bi yi) eqn:E; simpl.
    + apply Byte.byte_dec_bl in E as ->.
      replace (Z.of_nat i + 1) with (Z.of_nat (Datatypes.S i)) by lia.
      rewrite IH by lia. f_equal. apply bool_decide_ext.
      split; [intros Hx; by f_equal|intros Hx; by injection Hx].
    + f_equal. symmetry. apply bool_decide_eq_false_2. intros Heq.
      injection Heq as Hb _. by rewrite (Byte.byte_dec_lb Hb) in E.
Qed.

Lemma range_equal_whole (x y : list byte) :
  length x = length y →
  range_equal x y 0 = Some (bool_decide (x = y)).
Proof.
  intros Hlen. change 0 with (Z.of_nat 0).
  rewrite (range_equal_spec x y 0) by (simpl; lia).
  rewrite drop_0, Hlen, firstn_all. done.
Qed.

(** X1.  [Equal] never panics, and it holds exactly when the two views
    have the same bytes, whether each of them wraps a byte slice or a
    string. *)
Theorem Equal_spec (v v2 : ByteView) :
  Equal v v2 = Some (bool_decide (ByteSlice v = ByteSlice v2)).
Proof.
  unfold Equal, EqualString, EqualBytes, ByteSlice, Len.
  destruct (b v2) as [b2|], (b v) as [vb|]; simpl.
  - done.
  - destruct (Z.eqb_spec (len b2) (strlen (s v))) as [He|Hne]; simpl.
    + rewrite range_equal_whole.
      * f_equal. apply bool_decide_ext. split; by intros ->.
      * rewrite <- len_bytes_of_string in He. unfold len in He. lia.
    + f_equal. symmetry. apply bool_decide_eq_false_2. intros Heq.
      apply Hne. by rewrite <- len_bytes_of_string, Heq.
  - destruct (Z.eqb_spec (strlen (s v2)) (len vb)) as [He|Hne]; simpl.
    + rewrite range_equal_whole; [done|].
      rewrite <- len_bytes_of_string in He. unfold len in He. lia.
    + f_equal. symmetry. apply bool_decide_eq_false_2. intros Heq.
      apply Hne. by rewrite <- len_bytes_of_string, Heq.
  - f_equal. apply bool_decide_ext. split; [by intros ->|].
    apply bytes_of_string_inj.
Qed.

(** X2.  [String] and [ByteSlice] give the same bytes, the one as a
    string and the other as a slice, whichever of the two the view wraps,
    and [Len] is the number of these bytes. *)
Theorem String_ByteSlice (v : ByteView) :
  bytes_of_string (String v) = ByteSlice v
  ∧ String v = string_of_bytes (ByteSlice v)
  ∧ Len v = strlen (String v)
  ∧ Len v = len (ByteSlice v).
Proof.
  unfold String, ByteSlice, Len. destruct (b v) as [vb|].
  - rewrite bytes_of_string_of_bytes. split; [done|]. split; [done|].
    split; [|done].
    by rewrite <- len_bytes_of_string, bytes_of_string_of_bytes.
  - split; [done|]. split.
    + unfold string_of_bytes, bytes_of_string.
      by rewrite string_of_list_byte_of_string.
    + split; [done|]. by rewrite len_bytes_of_string.
Qed.

End ByteViewEquality.

(** ** Views of bytes: slicing *)

Section ByteViewSlicing.
Import golang byteview.

Lemma slice_from_Some {A} (x : list A) (from : Z) :
  0 <= from <= len x → slice_from x from = Some (drop (Z.to_nat from) x).
Proof.
  intros Hr. unfold slice_from.
  by destruct (Z.leb_spec 0 from), (Z.leb_spec from (len x)); try lia.
Qed.

Lemma slice_from_None {A} (x : list A) (from : Z) :
  ¬ (0 <= from <= len x) → slice_from x from = None.
Proof.
  intros Hr. unfold slice_from.
  destruct (Z.leb_spec 0 from), (Z.leb_spec from (len x)); simpl; try done.
  lia.
Qed.

Lemma at_index_drop {A} (x : list A) (from i : Z) :
  0 <= from → 0 <= i →
  at_index (drop (Z.to_nat from) x) i = at_index x (from + i).
Proof.
  intros Hf Hi. unfold at_index, len. rewrite length_drop.
  destruct (Z.leb_spec 0 i), (Z.leb_spec 0 (from + i)); try lia. simpl.
  destruct (Z.ltb_spec i (Z.of_nat (length x - Z.to_nat from))),
    (Z.ltb_spec (from + i) (Z.of_nat (length x))); try lia; [|done].
  rewrite lookup_drop. f_equal. lia.
Qed.

(** X3.  [SliceFrom] panics exactly when [from] is negative or past the
    end of the view.  Otherwise it returns the view of the bytes from
    [from] on: its length is [Len - from], its byte at [i] is the byte at
    [from + i] of the view, and slicing it again at [from2] is slicing the
    view at [from + from2]. *)
Theorem SliceFrom_At (v : ByteView) (from : Z) :
  (¬ (0 <= from <= Len v) → SliceFrom v from = None)
  ∧ (0 <= from <= Len v →
     ∃ v', SliceFrom v from = Some v'
           ∧ Len v' = Len v - from
           ∧ ByteSlice v' = drop (Z.to_nat from) (ByteSlice v)
           ∧ (∀ i, 0 <= i → At v' i = At v (from + i))
           ∧ (∀ from2, 0 <= from2 <= Len v' →
                SliceFrom v' from2 = SliceFrom v (from + from2))).
Proof.
  split.
  - intros Hr. rewrite Len_ByteSlice in Hr. unfold SliceFrom, ByteSlice in *.
    destruct (b v) as [vb|]; by rewrite slice_from_None.
  - intros Hr. rewrite Len_ByteSlice in Hr.
    unfold SliceFrom, ByteSlice, At, Len in *.
    destruct (b v) as [vb|] eqn:Hb; rewrite slice_from_Some by done; simpl.
    + eexists. split; [done|]. simpl.
      split; [unfold len in *; rewrite length_drop; lia|].
      split; [done|]. split.
      * intros i Hi. apply at_index_drop; lia.
      * intros from2 Hr2. unfold len in Hr2. rewrite length_drop in Hr2.
        rewrite (slice_from_Some (drop _ _)).
        2:{ unfold len in *. rewrite length_drop. lia. }
        rewrite slice_from_Some by (unfold len in *; lia).
        simpl. rewrite drop_drop.
        by replace (Z.to_nat from + Z.to_nat from2)%nat
             with (Z.to_nat (from + from2)) by lia.
    + eexists. split; [done|]. simpl.
      rewrite bytes_of_string_of_bytes.
      split.
      { rewrite <- !len_bytes_of_string, bytes_of_string_of_bytes.
        unfold len in *. rewrite length_drop. lia. }
      split; [done|]. split.
      * intros i Hi. apply at_index_drop; lia.
      * intros from2 Hr2.
        rewrite <- len_bytes_of_string, bytes_of_string_of_bytes in Hr2.
        unfold len in Hr2. rewrite length_drop in Hr2.
        rewrite (slice_from_Some (drop _ _)).
        2:{ unfold len in *. rewrite length_drop. lia. }
        rewrite slice_from_Some by (unfold len in *; lia).
        simpl. rewrite drop_drop.
        by replace (Z.to_nat from + Z.to_nat from2)%nat
             with (Z.to_nat (from + from2)) by lia.
Qed.

Lemma SliceFrom_At_witness :
  ∃ v', SliceFrom {| b := None; s := "hello" |} 2 = Some v'
        ∧ Len v' = 3 ∧ At v' 0 = Some x6c ∧ At v' 3 = None.
Proof.
  destruct (proj2 (SliceFrom_At {| b := None; s := "hello" |} 2))
    as (v' & Hs & Hl & _ & Hat & _); [vm_compute; split; discriminate|].
  exists v'. split; [exact Hs|]. split; [exact Hl|].
  split; [rewrite (Hat 0)|rewrite (Hat 3)]; try lia; reflexivity.
Defined.

End ByteViewSlicing.

(** ** The replacement policy of the LRU cache *)

Section LruPolicy.
Import golang lru.
Context {Key : Type} `{Countable Key} {Value W : Type}.
Implicit Types (c : Cache Key Value W) (e : nat) (l : list nat).

(** The cache after [PushFront] and the update of the index in [Add],
    before the bound on the entries is looked at. *)
Definition pushed c (k : Key) (v : Value) : Cache Key Value W :=
  {| MaxEntries := MaxEntries c; OnEvicted := OnEvicted c;
     ll := next c :: ll c;
     cache := Some (<[k := next c]> (default ∅ (lru.cache c)));
     elems := <[next c := mkEntry k v]> (elems c);
     next := S (next c) |}.

Lemma Add_pushed c k v w :
  lru_ok c → k ∉ index_keys c →
  Add c k v w
  = (if negb (MaxEntries c =? 0) && (len (ll (pushed c k v)) >? MaxEntries c)
     then RemoveOldest (pushed c k v) w else Some (pushed c k v, w))
  ∧ lru_ok (pushed c k v)
  ∧ entries (pushed c k v) = mkEntry k v :: entries c
  ∧ index_keys (pushed c k v) = {[ k ]} ∪ index_keys c.
Proof.
  intros Hok Hk. pose proof Hok as [Hnd Halloc Hfresh _].
  destruct (Add_start c Hok) as (m0 & Hst & Hdom & Hidx).
  assert (Hm0 : default ∅ (lru.cache c) = m0).
  { destruct (lru.cache c); simpl in *; congruence. }
  rewrite Hdom in Hk. apply not_elem_of_dom in Hk.
  assert (Hnext : ∀ e, e ∈ ll c → e ≠ next c).
  { intros e He%Halloc%Hfresh. lia. }
  split; [|split; [|split]].
  - unfold Add, pushed. rewrite Hst, Hk, Hm0. done.
  - unfold pushed. rewrite Hm0. constructor; simpl.
    + constructor; [|done]. intros Hin. by apply (Hnext _ Hin).
    + intros e [->|He]%elem_of_cons.
      * rewrite lookup_insert_eq. eauto.
      * rewrite lookup_insert_ne by (symmetry; by apply Hnext). auto.
    + intros e. destruct (decide (e = next c)) as [->|Hne]; [lia|].
      rewrite lookup_insert_ne by done. intros He%Hfresh. lia.
    + intros k' e. split.
      * destruct (decide (k' = k)) as [->|Hne].
        -- rewrite lookup_insert_eq. intros [= <-]. split; [by left|].
           rewrite lookup_insert_eq. eauto.
        -- rewrite lookup_insert_ne by done.
           intros (He & kv & Hkv & Hkey)%Hidx. split; [by right|].
           rewrite lookup_insert_ne by (symmetry; by apply Hnext). eauto.
      * intros (He & kv & Hkv & Hkey).
        destruct (decide (e = next c)) as [->|Hne].
        -- rewrite lookup_insert_eq in Hkv. injection Hkv as <-.
           simpl in Hkey. subst k'. by rewrite lookup_insert_eq.
        -- rewrite lookup_insert_ne in Hkv by done.
           apply elem_of_cons in He as [?|He]; [done|].
           assert (Hm : m0 !! k' = Some e) by (apply Hidx; eauto).
           rewrite lookup_insert_ne; [done|]. congruence.
  - unfold entries, pushed. simpl. rewrite lookup_insert_eq. simpl. f_equal.
    apply omap_ext_in. intros e He.
    rewrite lookup_insert_ne by (symmetry; by apply Hnext). done.
  - unfold index_keys at 1, pushed. simpl.
    by rewrite Hm0, dom_insert_L, Hdom.
Qed.

(** The keys of the entries are pairwise distinct. *)
Lemma entries_keys_NoDup c : lru_ok c → NoDup (key <$> entries c).
Proof.
  intros [Hnd Halloc _ Hidx]. unfold entries.
  destruct (lru.cache c) as [m|]; [|by rewrite Hidx; constructor].
  assert (Hinj : ∀ e1 e2 kv1 kv2, e1 ∈ ll c → e2 ∈ ll c →
            elems c !! e1 = Some kv1 → elems c !! e2 = Some kv2 →
            key kv1 = key kv2 → e1 = e2).
  { intros e1 e2 kv1 kv2 H1 H2 Hk1 Hk2 Hkey.
    assert (m !! key kv1 = Some e1) as Hm1 by (apply Hidx; eauto).
    assert (m !! key kv1 = Some e2) as Hm2 by (apply Hidx; eauto).
    congruence. }
  revert Hnd Hinj. generalize (ll c) as l.
  induction l as [|x l IH]; intros Hnd Hinj; [constructor|].
  apply NoDup_cons in Hnd as [Hx Hnd]. cbn.
  assert (Hl : NoDup (key <$> omap (λ e, elems c !! e) l)).
  { apply IH; [done|]. intros e1 e2 ?? H1 H2. apply Hinj; by right. }
  destruct (elems c !! x) as [kv|] eqn:Hkv; [|done]. simpl.
  constructor; [|done].
  intros (kv' & Hkey & (e' & He' & Hkv')%list_elem_of_omap)%list_elem_of_fmap.
  assert (x = e'); [|by subst].
  apply (Hinj x e' kv kv'); [by left|by right|done|done|done].
Qed.

(** The number of entries is the length of the order. *)
Lemma Len_entries c : lru_ok c → Len c = len (entries c).
Proof.
  intros Hok. unfold Len, len. rewrite (entries_length c Hok).
  destruct Hok as [_ _ _ Hidx]. destruct (lru.cache c); [done|].
  by rewrite Hidx.
Qed.

(** [removeElement] of an element of the order. *)
Lemma removeElement_ok c l1 e l2 w :
  lru_ok c → ll c = l1 ++ e :: l2 →
  ∃ kv c',
    elems c !! e = Some kv
    ∧ removeElement c e w = Some (c', evicted c kv w)
    ∧ lru_ok c' ∧ ll c' = l1 ++ l2
    ∧ entries c = omap (λ x, elems c !! x) l1 ++ kv
                  :: omap (λ x, elems c !! x) l2
    ∧ entries c' = omap (λ x, elems c !! x) l1
                   ++ omap (λ x, elems c !! x) l2
    ∧ OnEvicted c' = OnEvicted c ∧ MaxEntries c' = MaxEntries c
    ∧ index_keys c' = index_keys c ∖ {[ key kv ]}
    ∧ lru.cache c' ≠ None.
Proof.
  intros Hok Hll. pose proof Hok as [Hnd Halloc Hfresh Hidx].
  destruct (Halloc e) as [kv Hkv].
  { rewrite Hll. apply elem_of_app. right. by left. }
  destruct (lru.cache c) as [m|] eqn:Hm;
    [|rewrite Hll in Hidx; by destruct l1].
  rewrite Hll in Hnd.
  assert (Hrm : Remove e (l1 ++ e :: l2) = l1 ++ l2).
  { apply NoDup_app in Hnd as (_ & Hdisj & [Hne2 _]%NoDup_cons).
    unfold Remove. rewrite filter_app, filter_cons_False by (intros ?; done).
    rewrite !filter_ne_notin; [done|done|].
    intros Hin. apply (Hdisj e Hin). by left. }
  assert (Hne : ∀ x, x ∈ l1 ++ l2 → x ≠ e).
  { apply NoDup_app in Hnd as (_ & Hdisj & [Hne2 _]%NoDup_cons).
    intros x [Hx|Hx]%elem_of_app ->; [|done].
    apply (Hdisj e Hx). by left. }
  unfold removeElement. rewrite Hkv. simpl. rewrite Hll, Hrm, Hm. simpl.
  eexists kv, _. split; [done|]. split; [reflexivity|].
  split; [|split; [done|split; [|split; [|split; [done|split; [done|split]]]]]].
  - constructor; simpl.
    + apply NoDup_app in Hnd as (Hn1 & Hdisj & [_ Hn2]%NoDup_cons).
      apply NoDup_app. split; [done|]. split; [|done].
      intros x Hx1 Hx2. apply (Hdisj x Hx1). by right.
    + intros x Hx. apply Halloc. rewrite Hll.
      apply elem_of_app in Hx as [?|?]; apply elem_of_app; [by left|].
      right. by right.
    + done.
    + intros k x. destruct (decide (k = key kv)) as [->|Hk].
      * rewrite lookup_delete_eq. split; [done|].
        intros (Hx & kv' & Hkv' & Hkey).
        assert (m !! key kv = Some x) as Hmx.
        { apply Hidx. split; [|eauto]. rewrite Hll.
          apply elem_of_app in Hx as [?|?]; apply elem_of_app; [by left|].
          right. by right. }
        assert (m !! key kv = Some e) as Hme.
        { apply Hidx. split; [|eauto]. rewrite Hll.
          apply elem_of_app. right. by left. }
        exfalso. apply (Hne x Hx). congruence.
      * rewrite lookup_delete_ne by done. rewrite Hidx, Hll. split.
        -- intros (Hx & kv' & Hkv' & Hkey). split; [|eauto].
           apply elem_of_app in Hx as [Hx|[->|Hx]%elem_of_cons];
             apply elem_of_app; [by left| |by right].
           congruence.
        -- intros (Hx & Hrest). split; [|done].
           apply elem_of_app in Hx as [?|?]; apply elem_of_app; [by left|].
           right. by right.
  - unfold entries. rewrite Hll, omap_app. simpl. by rewrite Hkv.
  - unfold entries. simpl. by rewrite omap_app.
  - unfold index_keys. simpl. rewrite Hm. by rewrite dom_delete_L.
  - done.
Qed.

(** [Get] of a key the index holds: its value is returned and its entry
    becomes the first of the order. *)
Lemma Get_hit c k :
  lru_ok c → k ∈ index_keys c →
  ∃ c' v es1 es2,
    Get c k = Some (c', Some v) ∧ lru_ok c'
    ∧ entries c = es1 ++ mkEntry k v :: es2
    ∧ entries c' = mkEntry k v :: es1 ++ es2
    ∧ OnEvicted c' = OnEvicted c ∧ MaxEntries c' = MaxEntries c
    ∧ index_keys c' = index_keys c.
Proof.
  intros Hok Hk. pose proof Hok as [Hnd Halloc Hfresh Hidx].
  unfold index_keys in Hk.
  destruct (lru.cache c) as [m|] eqn:Hm; [|by apply elem_of_empty in Hk].
  apply elem_of_dom in Hk as [ele Hele].
  pose proof Hele as (Hin & [k0 v] & Hkv & Hkey)%Hidx. simpl in Hkey. subst k0.
  apply list_elem_of_split in Hin as (a1 & a2 & Hll).
  assert (Hget : Get c k = Some
            ({| MaxEntries := MaxEntries c; OnEvicted := OnEvicted c;
                ll := MoveToFront ele (ll c); cache := lru.cache c;
                elems := elems c; next := next c |}, Some v)).
  { unfold Get. by rewrite Hm, Hele, Hkv. }
  destruct (Get_ok c k _ _ Hok Hget) as (Hok' & Hkeys & _ & Hcb & Hmax).
  eexists _, v, (omap (λ x, elems c !! x) a1), (omap (λ x, elems c !! x) a2).
  split; [exact Hget|]. split; [done|].
  split; [|split; [|done]].
  - unfold entries. rewrite Hll, omap_app. simpl. by rewrite Hkv.
  - unfold entries. simpl. rewrite Hll in Hnd.
    rewrite Hll, MoveToFront_split by done. simpl. rewrite Hkv. simpl.
    by rewrite omap_app.
Qed.


Lemma NoDup_keys_head (a b : entry Key Value) es es1 es2 :
  NoDup (key <$> a :: es) → a :: es = es1 ++ b :: es2 → key a = key b →
  es1 = [] ∧ a = b ∧ es = es2.
Proof.
  intros Hnd Heq Hkey. destruct es1 as [|a' es1]; simpl in Heq.
  - by injection Heq as -> ->.
  - injection Heq as <- ->. exfalso.
    rewrite fmap_cons in Hnd. apply NoDup_cons in Hnd as [Hnin _].
    apply Hnin. rewrite Hkey, fmap_app, fmap_cons.
    apply elem_of_app. right. by left.
Qed.

(** [Get] of the key of the first entry returns its value and leaves the
    order as it is. *)
Lemma Get_head c k v es :
  lru_ok c → entries c = mkEntry k v :: es →
  ∃ c', Get c k = Some (c', Some v) ∧ lru_ok c' ∧ entries c' = entries c.
Proof.
  intros Hok Hent.
  assert (Hk : k ∈ index_keys c).
  { rewrite (index_keys_order_keys c Hok). unfold order_keys.
    rewrite Hent, fmap_cons. simpl. apply elem_of_union. left.
    by apply elem_of_singleton. }
  destruct (Get_hit c k Hok Hk)
    as (c' & v' & es1 & es2 & Hget & Hok' & He & He' & _).
  pose proof (entries_keys_NoDup c Hok) as Hnd. rewrite Hent in Hnd, He.
  destruct (NoDup_keys_head _ _ _ _ _ Hnd He) as (-> & Hv & ->); [done|].
  injection Hv as <-. exists c'. by rewrite He', Hent.
Qed.

(** [Add] with a bound that is not negative puts the entry first. *)
Lemma Add_head c k v w :
  lru_ok c → 0 <= MaxEntries c →
  ∃ c1 w1 es, Add c k v w = Some (c1, w1) ∧ lru_ok c1
              ∧ entries c1 = mkEntry k v :: es
              ∧ OnEvicted c1 = OnEvicted c ∧ MaxEntries c1 = MaxEntries c.
Proof.
  intros Hok Hmax. destruct (decide (k ∈ index_keys c)) as [Hk|Hk].
  - destruct (Add_present c k v w Hok Hk)
      as (c1 & old & es1 & es2 & Ha & Hok1 & _ & _ & He1 & Hcb & Hm & _).
    by exists c1, w, (es1 ++ es2).
  - destruct (Add_pushed c k v w Hok Hk) as (Ha & Hokp & Hep & _).
    rewrite Ha. clear Ha.
    destruct (Z.eqb_spec (MaxEntries c) 0) as [Hz|Hnz]; cbn [negb andb].
    { by exists (pushed c k v), w, (entries c). }
    destruct (Z.gtb_spec (len (ll (pushed c k v))) (MaxEntries c)) as [Hgt|Hle].
    2:{ by exists (pushed c k v), w, (entries c). }
    assert (Hne : ll c ≠ []).
    { intros Hnil. unfold pushed, len in Hgt. simpl in Hgt.
      rewrite Hnil in Hgt. simpl in Hgt. lia. }
    destruct (ll c) as [|x l _] eqn:Hll using rev_ind; [done|]. clear Hne.
    destruct (RemoveOldest_snoc (pushed c k v) (next c :: l) x w Hokp)
      as (kv & c1 & _ & Hr & Hok1 & Hll1 & He & Hcb & Hm & _).
    { unfold pushed. simpl. by rewrite Hll. }
    rewrite Hep in He.
    assert (Hlen : length (entries c1) = S (length l)).
    { by rewrite (entries_length c1 Hok1), Hll1. }
    destruct (entries c1) as [|a es] eqn:He1; [done|].
    simpl in He. injection He as <- _.
    exists c1, (evicted (pushed c k v) kv w), es. done.
Qed.

(** X4.  In a cache whose bound is zero (no bound) or positive, a value
    that has been added is the value [Get] returns for its key, whether
    the key was new or not, and whether an entry had to be evicted or not;
    the entry is then the most recent one. *)
Theorem Add_then_Get c k v w :
  lru_ok c → 0 <= MaxEntries c →
  ∃ c1 w1 c2 es,
    Add c k v w = Some (c1, w1)
    ∧ entries c1 = mkEntry k v :: es
    ∧ Get c1 k = Some (c2, Some v)
    ∧ entries c2 = mkEntry k v :: es.
Proof.
  intros Hok Hmax.
  destruct (Add_head c k v w Hok Hmax) as (c1 & w1 & es & Ha & Hok1 & He1 & _).
  destruct (Get_head c1 k v es Hok1 He1) as (c2 & Hg & _ & He2).
  exists c1, w1, c2, es. by rewrite He2.
Qed.

(** X5.  [Get] of a key that is not cached misses and changes nothing.
    [Get] of a cached key returns the value of its entry, which becomes
    the first of the recency order while the other entries keep their
    order; no two entries carry the same key. *)
Theorem Get_moves_to_front c k :
  lru_ok c →
  NoDup (key <$> entries c)
  ∧ (k ∉ index_keys c → Get c k = Some (c, None))
  ∧ (k ∈ index_keys c →
     ∃ c' v es1 es2,
       Get c k = Some (c', Some v)
       ∧ entries c = es1 ++ mkEntry k v :: es2
       ∧ entries c' = mkEntry k v :: es1 ++ es2
       ∧ index_keys c' = index_keys c ∧ lru_ok c').
Proof.
  intros Hok. split; [by apply entries_keys_NoDup|].
  split; [apply Get_miss|]. intros Hk.
  destruct (Get_hit c k Hok Hk)
    as (c' & v & es1 & es2 & Hget & Hok' & He & He' & _ & _ & Hkeys).
  by exists c', v, es1, es2.
Qed.

(** X6.  [Add] of a new key to a cache that is full (its bound is not
    zero and it holds at least that many entries) evicts exactly the
    last entry of the recency order, the least recently used one: the
    callback is called once, on this entry, and the new entry is put
    first. *)
Theorem Add_evicts_oldest c k v w es old :
  lru_ok c → MaxEntries c ≠ 0 → MaxEntries c <= len (entries c) →
  k ∉ index_keys c → entries c = es ++ [old] →
  ∃ c', Add c k v w = Some (c', evicted c old w) ∧ lru_ok c'
        ∧ entries c' = mkEntry k v :: es
        ∧ index_keys c' = ({[ k ]} ∪ index_keys c) ∖ {[ key old ]}.
Proof.
  intros Hok Hnz Hfull Hk Hent.
  destruct (Add_pushed c k v w Hok Hk) as (Ha & Hokp & Hep & Hkp).
  rewrite Ha. clear Ha.
  assert (Hlen : length (ll c) = length (es ++ [old])).
  { by rewrite <- Hent, entries_length. }
  destruct (Z.eqb_spec (MaxEntries c) 0) as [|_]; [done|]. cbn [negb andb].
  destruct (Z.gtb_spec (len (ll (pushed c k v))) (MaxEntries c)) as [_|Hle].
  2:{ unfold pushed, len in Hle. simpl in Hle. rewrite Hent in Hfull.
      unfold len in Hfull. lia. }
  destruct (ll c) as [|x l _] eqn:Hll using rev_ind.
  { rewrite length_app in Hlen. simpl in Hlen. lia. }
  destruct (RemoveOldest_snoc (pushed c k v) (next c :: l) x w Hokp)
    as (kv & c1 & Hkv & Hr & Hok1 & Hll1 & He & Hcb & Hm & Hkeys).
  { unfold pushed. simpl. by rewrite Hll. }
  rewrite Hep, Hent in He.
  change (mkEntry k v :: es ++ [old])
    with ((mkEntry k v :: es) ++ [old]) in He.
  apply app_inj_tail in He as [He <-].
  exists c1. rewrite Hr. split; [done|]. split; [done|].
  split; [done|]. by rewrite Hkeys, Hkp.
Qed.

(** X7.  [Remove] of a key that is not cached changes nothing and does
    not call the callback.  [Remove] of a cached key takes its entry, and
    no other, out of the order and of the index, and calls the callback
    once, on this entry; the key is then missed by [Get]. *)
Theorem Cache_Remove_spec c k w :
  lru_ok c →
  (k ∉ index_keys c → Cache_Remove c k w = Some (c, w))
  ∧ (k ∈ index_keys c →
     ∃ c' kv es1 es2,
       Cache_Remove c k w = Some (c', evicted c kv w)
       ∧ key kv = k ∧ entries c = es1 ++ kv :: es2
       ∧ entries c' = es1 ++ es2
       ∧ index_keys c' = index_keys c ∖ {[ k ]}
       ∧ lru_ok c' ∧ Get c' k = Some (c', None)).
Proof.
  intros Hok. pose proof Hok as [Hnd Halloc Hfresh Hidx]. split.
  - intros Hk. unfold Cache_Remove. unfold index_keys in Hk.
    destruct (lru.cache c) as [m|]; [|done].
    apply not_elem_of_dom in Hk. by rewrite Hk.
  - intros Hk.
    assert (∃ m ele, lru.cache c = Some m ∧ m !! k = Some ele)
      as (m & ele & Hm & Hele).
    { unfold index_keys in Hk.
      destruct (lru.cache c) as [m|]; [|by apply elem_of_empty in Hk].
      apply elem_of_dom in Hk as [ele Hele]. eauto. }
    rewrite Hm in Hidx. unfold Cache_Remove. rewrite Hm, Hele.
    pose proof Hele as (Hin & kv0 & Hkv0 & Hkey)%Hidx.
    apply list_elem_of_split in Hin as (l1 & l2 & Hll).
    destruct (removeElement_ok c l1 ele l2 w Hok Hll)
      as (kv & c' & Hkv & Hr & Hok' & _ & He & He' & _ & _ & Hkeys & _).
    assert (kv = kv0) by congruence. subst kv0.
    exists c', kv, (omap (λ x, elems c !! x) l1),
      (omap (λ x, elems c !! x) l2).
    repeat (split; [done|]). rewrite Hkey in Hkeys.
    split; [done|]. split; [done|].
    apply Get_miss. rewrite Hkeys.
    intros [_ Hn]%elem_of_difference. apply Hn. by apply elem_of_singleton.
Qed.

End LruPolicy.

(** ** The bound on the entries of the LRU cache *)

Section LruBound.
Import golang lru.
Context {Key : Type} `{Countable Key} {Value W : Type}.
Implicit Types (c : Cache Key Value W) (e : nat) (l : list nat).

Lemma lru_ok_New (n : Z) : lru_ok (New n : Cache Key Value W).
Proof.
  constructor; simpl; [constructor| | |].
  - intros e He. by apply elem_of_nil in He.
  - intros e [x Hx]. by rewrite lookup_empty in Hx.
  - intros k e. rewrite lookup_empty. split; [done|].
    intros [Hin _]. by apply elem_of_nil in Hin.
Qed.

(** The elements the index points to are the elements of the order. *)
Lemma index_elements c m :
  lru_ok c → lru.cache c = Some m → (map_to_list m).*2 ≡ₚ ll c.
Proof.
  intros [Hnd Halloc _ Hidx] Hm. rewrite Hm in Hidx.
  apply NoDup_Permutation; [|done|].
  - apply NoDup_fmap_2_strong; [|apply NoDup_map_to_list].
    intros [k1 e1] [k2 e2] H1%elem_of_map_to_list H2%elem_of_map_to_list.
    simpl. intros <-.
    apply Hidx in H1 as (_ & kv1 & Hkv1 & <-).
    apply Hidx in H2 as (_ & kv2 & Hkv2 & <-). congruence.
  - intros e. rewrite list_elem_of_fmap. split.
    + intros ([k e'] & -> & Hin%elem_of_map_to_list). simpl.
      by apply Hidx in Hin as (? & _).
    + intros He. destruct (Halloc e He) as [kv Hkv].
      exists (key kv, e). split; [done|]. apply elem_of_map_to_list.
      apply Hidx. eauto.
Qed.

(** The loop of [Clear] calls the callback on the entry of each element
    it visits. *)
Lemma Clear_loop c (f : Key → Value → W → W) (w : W) (kes : list (Key * nat)) :
  (∀ e, e ∈ kes.*2 → is_Some (elems c !! e)) →
  foldr (λ '(_, e) acc,
           w ← acc; kv ← elems c !! e; Some (f (key kv) (value kv) w))
        (Some w) kes
  = Some (foldr (λ kv, f (key kv) (value kv)) w
            (omap (λ e, elems c !! e) kes.*2)).
Proof.
  induction kes as [|[k e] kes IH]; intros Hall; [done|].
  simpl. rewrite IH.
  2:{ intros e' He'. apply Hall. rewrite fmap_cons. by right. }
  destruct (Hall e) as [kv Hkv]; [rewrite fmap_cons; by left|].
  simpl. by rewrite Hkv.
Qed.

(** [Clear] does not panic: it returns the empty cache and what the
    callback has made of the entries. *)
Lemma Clear_returns c w :
  lru_ok c →
  ∃ c' es,
    es ≡ₚ entries c
    ∧ Clear c w
      = Some (c', match OnEvicted c with
                  | Some f => foldr (λ kv, f (key kv) (value kv)) w es
                  | None => w
                  end)
    ∧ lru_ok c' ∧ entries c' = [] ∧ Len c' = 0 ∧ index_keys c' = ∅
    ∧ (∀ k, Get c' k = Some (c', None))
    ∧ OnEvicted c' = OnEvicted c ∧ MaxEntries c' = MaxEntries c.
Proof.
  intros Hok. pose proof Hok as [Hnd Halloc Hfresh Hidx].
  set (c' := {| MaxEntries := MaxEntries c; OnEvicted := OnEvicted c;
                ll := []; cache := None; elems := elems c;
                next := next c |}).
  assert (Hok' : lru_ok c').
  { constructor; simpl; [constructor| |done|done].
    intros e He. by apply elem_of_nil in He. }
  assert (Hrest : lru_ok c' ∧ entries c' = [] ∧ Len c' = 0
                  ∧ index_keys c' = ∅
                  ∧ (∀ k, Get c' k = Some (c', None))
                  ∧ OnEvicted c' = OnEvicted c
                  ∧ MaxEntries c' = MaxEntries c) by done.
  unfold Clear. fold c'.
  destruct (OnEvicted c) as [f|]; [|by exists c', (entries c)].
  destruct (lru.cache c) as [m|] eqn:Hm.
  2:{ exists c', []. unfold entries. rewrite Hidx. done. }
  rewrite map_fold_foldr.
  pose proof (index_elements c m Hok Hm) as Hperm.
  rewrite (Clear_loop c f w (map_to_list m)).
  2:{ intros e He. apply Halloc. by rewrite <- Hperm. }
  simpl. eexists c', _. split; [|split; [reflexivity|done]].
  unfold entries. by apply omap_Permutation.
Qed.

(** X8.  [Clear] calls the callback once on every entry of the cache, in
    the order in which the index is visited, and leaves a cache without
    entries, which misses every key; it does not panic. *)
Theorem Clear_spec c w :
  lru_ok c →
  ∃ c' es,
    es ≡ₚ entries c
    ∧ Clear c w
      = Some (c', match OnEvicted c with
                  | Some f => foldr (λ kv, f (key kv) (value kv)) w es
                  | None => w
                  end)
    ∧ entries c' = [] ∧ Len c' = 0
    ∧ (∀ k, Get c' k = Some (c', None)).
Proof.
  intros Hok.
  destruct (Clear_returns c w Hok)
    as (c' & es & Hp & Hc & _ & He & Hl & _ & Hg & _).
  by exists c', es.
Qed.

(** The operations of a cache, and a sequence of them. *)
Inductive lop : Type :=
  | LAdd (k : Key) (v : Value)
  | LGet (k : Key)
  | LRemove (k : Key)
  | LRemoveOldest
  | LClear.

Definition apply_lop c (o : lop) (w : W) : option (Cache Key Value W * W) :=
  match o with
  | LAdd k v => Add c k v w
  | LGet k => '(c', _) ← Get c k; Some (c', w)
  | LRemove k => Cache_Remove c k w
  | LRemoveOldest => RemoveOldest c w
  | LClear => Clear c w
  end.

Fixpoint apply_lops c (ops : list lop) (w : W)
  : option (Cache Key Value W * W) :=
  match ops with
  | [] => Some (c, w)
  | o :: ops => '(c', w') ← apply_lop c o w; apply_lops c' ops w'
  end.

(** A well-formed cache that respects its bound, when it has one. *)
Definition bounded c : Prop :=
  lru_ok c ∧ (MaxEntries c ≠ 0 → len (entries c) <= Z.max 0 (MaxEntries c)).

Lemma RemoveOldest_shrinks c w :
  lru_ok c →
  ∃ c' w', RemoveOldest c w = Some (c', w') ∧ lru_ok c'
           ∧ MaxEntries c' = MaxEntries c ∧ OnEvicted c' = OnEvicted c
           ∧ len (entries c') = Z.max 0 (len (entries c) - 1).
Proof.
  intros Hok. destruct (ll c) as [|x l _] eqn:Hll using rev_ind.
  - destruct (RemoveOldest_ok c w Hok) as (c' & w' & Hr & Hok' & Hcb & Hm & Hnil).
    destruct (Hnil Hll) as [-> ->]. exists c, w.
    repeat (split; [done|]). unfold len.
    rewrite (entries_length c Hok), Hll. simpl. lia.
  - destruct (RemoveOldest_snoc c l x w Hok Hll)
      as (kv & c' & _ & Hr & Hok' & Hll' & He & Hcb & Hm & _).
    exists c', (evicted c kv w). repeat (split; [done|]).
    rewrite He. unfold len. rewrite length_app. simpl. lia.
Qed.

Lemma apply_lop_bounded c o w :
  bounded c →
  ∃ c' w', apply_lop c o w = Some (c', w') ∧ bounded c'
           ∧ MaxEntries c' = MaxEntries c.
Proof.
  intros [Hok Hb]. destruct o as [k v|k|k| |]; simpl.
  - destruct (decide (k ∈ index_keys c)) as [Hk|Hk].
    + destruct (Add_present c k v w Hok Hk)
        as (c1 & old & es1 & es2 & Ha & Hok1 & He & _ & He1 & _ & Hm & _).
      exists c1, w. split; [done|]. split; [|done]. split; [done|].
      rewrite Hm, He1. rewrite He in Hb. unfold len in *.
      rewrite length_cons, length_app. rewrite length_app, length_cons in Hb.
      intros Hnz. specialize (Hb Hnz). lia.
    + destruct (Add_pushed c k v w Hok Hk) as (Ha & Hokp & Hep & _).
      rewrite Ha. clear Ha.
      assert (Hlp : len (ll (pushed c k v)) = len (entries c) + 1).
      { unfold len. rewrite <- (entries_length _ Hokp), Hep. simpl. lia. }
      destruct (Z.eqb_spec (MaxEntries c) 0) as [Hz|Hnz]; cbn [negb andb].
      { exists (pushed c k v), w. split; [done|]. split; [|done].
        split; [done|]. simpl. intros Hnz. done. }
      destruct (Z.gtb_spec (len (ll (pushed c k v))) (MaxEntries c))
        as [Hgt|Hle].
      * destruct (RemoveOldest_shrinks (pushed c k v) w Hokp)
          as (c1 & w1 & -> & Hok1 & Hm1 & _ & Hl1).
        exists c1, w1. split; [done|]. split; [|done]. split; [done|].
        rewrite Hm1, Hl1, Hep. simpl. intros _. specialize (Hb Hnz).
        unfold len in *. simpl. lia.
      * exists (pushed c k v), w. split; [done|]. split; [|done].
        split; [done|]. simpl. intros _. rewrite Hep. unfold len in *.
        simpl. lia.
  - destruct (Get_returns c k Hok) as (c' & r & Hget & _). rewrite Hget.
    destruct (Get_ok c k c' r Hok Hget) as (Hok' & _ & Hperm & _ & Hm).
    simpl. exists c', w. split; [done|]. split; [|done]. split; [done|].
    rewrite Hm. unfold len. by rewrite Hperm.
  - unfold Cache_Remove. destruct (lru.cache c) as [m|] eqn:Hm;
      [|by exists c, w].
    destruct (m !! k) as [ele|] eqn:Hele; [|by exists c, w].
    assert (Hin : ele ∈ ll c).
    { destruct Hok as [_ _ _ Hidx]. rewrite Hm in Hidx.
      by apply Hidx in Hele as (? & _). }
    apply list_elem_of_split in Hin as (l1 & l2 & Hll).
    destruct (removeElement_ok c l1 ele l2 w Hok Hll)
      as (kv & c' & _ & Hr & Hok' & _ & He & He' & _ & Hmx & _).
    exists c', (evicted c kv w). split; [done|]. split; [|done].
    split; [done|]. rewrite Hmx, He'. rewrite He in Hb. unfold len in *.
    rewrite length_app. rewrite length_app, length_cons in Hb.
    intros Hnz. specialize (Hb Hnz). lia.
  - destruct (RemoveOldest_shrinks c w Hok)
      as (c1 & w1 & -> & Hok1 & Hm1 & _ & Hl1).
    exists c1, w1. split; [done|]. split; [|done]. split; [done|].
    rewrite Hm1, Hl1. intros Hnz. specialize (Hb Hnz). lia.
  - destruct (Clear_returns c w Hok)
      as (c' & es & _ & -> & Hok' & He & _ & _ & _ & _ & Hm).
    eexists c', _. split; [done|]. split; [|done]. split; [done|].
    rewrite He, Hm. unfold len. simpl. lia.
Qed.

(** X9.  A cache whose bound [MaxEntries] is not zero never holds more
    entries than its bound, whatever the operations applied to it: none
    of them panics, and [Len] stays at most [MaxEntries] (at most 0 when
    the bound is negative). *)
Theorem Len_within_MaxEntries c ops w :
  lru_ok c → MaxEntries c ≠ 0 → Len c <= Z.max 0 (MaxEntries c) →
  ∃ c' w', apply_lops c ops w = Some (c', w') ∧ lru_ok c'
           ∧ MaxEntries c' = MaxEntries c
           ∧ Len c' <= Z.max 0 (MaxEntries c).
Proof.
  intros Hok Hnz Hlen.
  assert (Hb : bounded c).
  { split; [done|]. intros _. by rewrite <- (Len_entries c Hok). }
  clear Hok Hlen. revert c w Hb Hnz.
  induction ops as [|o ops IH]; intros c w Hb Hnz; simpl.
  - destruct Hb as [Hok Hb]. exists c, w. repeat (split; [done|]).
    rewrite (Len_entries c Hok). by apply Hb.
  - destruct (apply_lop_bounded c o w Hb) as (c1 & w1 & -> & Hb1 & Hm1).
    simpl. destruct (IH c1 w1 Hb1) as (c' & w' & Hr & Hok' & Hm' & Hl');
      [by rewrite Hm1|].
    exists c', w'. rewrite Hm1 in Hm', Hl'. done.
Qed.

End LruBound.

(** ** Growing the hash ring *)

Section RingGrowth.
Import golang consistenthash.

(** [Add] on any ring. *)
Lemma Add_spec (m : Map) (ps : list string) :
  let pts := points (hash m) (replicas m) ps in
  hash (Add m ps) = hash m ∧ replicas (Add m ps) = replicas m
  ∧ keys (Add m ps) = (if decide (ps = []) then keys m
                       else sort_Ints (keys m ++ pts.*1))
  ∧ hashMap (Add m ps) = list_to_map (reverse pts) ∪ hashMap m.
Proof.
  unfold Add. destruct (Z.eqb_spec (len ps) 0) as [Hz|Hnz].
  - destruct ps; [|unfold len in Hz; simpl in Hz; lia]. simpl.
    repeat split; try done. by rewrite (left_id_L ∅ (∪)).
  - destruct (foldl_add_key_spec m ps) as (Hh & Hr & Hk & Hm).
    simpl in *. rewrite Hh, Hr, Hk, Hm.
    destruct (decide (ps = [])) as [->|_]; [done|]. done.
Qed.

Lemma points_app h32 n (ps qs : list string) :
  points h32 n (ps ++ qs) = points h32 n ps ++ points h32 n qs.
Proof. unfold points. by rewrite bind_app. Qed.

Lemma points_peer h32 n ps x p : (x, p) ∈ points h32 n ps → p ∈ ps.
Proof.
  unfold points. intros (q & Hin & Hq)%list_elem_of_bind.
  apply list_elem_of_fmap in Hin as (i & [= _ ->] & _). done.
Qed.

(** X10.  Adding peers to a ring in two calls of [Add] gives the ring that
    one call with all the peers gives: the same sorted keys and the same
    owners. *)
Theorem Add_Add (m : Map) (ps qs : list string) :
  Add (Add m ps) qs = Add m (ps ++ qs).
Proof.
  destruct (Add_spec m ps) as (Hh1 & Hr1 & Hk1 & Hm1).
  destruct (Add_spec (Add m ps) qs) as (Hh2 & Hr2 & Hk2 & Hm2).
  destruct (Add_spec m (ps ++ qs)) as (Hh3 & Hr3 & Hk3 & Hm3).
  rewrite Hh1, Hr1 in Hk2, Hm2. rewrite Hh1 in Hh2. rewrite Hr1 in Hr2.
  rewrite points_app in Hk3, Hm3.
  assert (Hk : keys (Add (Add m ps) qs) = keys (Add m (ps ++ qs))).
  { rewrite Hk2, Hk3, Hk1.
    destruct (decide (qs = [])) as [->|Hq].
    { rewrite app_nil_r. destruct (decide (ps = [])); [done|].
      unfold points at 2. simpl. by rewrite app_nil_r. }
    destruct (decide (ps ++ qs = [])) as [Hpq|_].
    { by apply app_eq_nil in Hpq as [_ ?]. }
    destruct (decide (ps = [])) as [->|_]; [done|].
    apply (StronglySorted_unique Z.le); try apply sort_Ints_sorted.
    by rewrite !sort_Ints_perm, fmap_app, app_assoc. }
  assert (HM : hashMap (Add (Add m ps) qs) = hashMap (Add m (ps ++ qs))).
  { rewrite Hm2, Hm3, Hm1, reverse_app, list_to_map_app.
    by rewrite (assoc_L (∪)). }
  destruct (Add (Add m ps) qs), (Add m (ps ++ qs)). simpl in *. congruence.
Qed.

(** A ring is well formed when its keys are sorted and are the hashes
    the map of owners holds. *)
Definition ring_ok (m : Map) : Prop :=
  StronglySorted Z.le (keys m)
  ∧ ∀ x, x ∈ keys m ↔ is_Some (hashMap m !! x).

Lemma ring_ok_New n fn : ring_ok (New n fn).
Proof.
  split; simpl; [constructor|]. intros x. rewrite lookup_empty.
  split; [by intros ?%elem_of_nil|by intros [? ?]].
Qed.

Lemma ring_ok_Add m ps : ring_ok m → ring_ok (Add m ps).
Proof.
  intros [Hs Hd]. destruct (Add_spec m ps) as (_ & _ & Hk & Hm).
  destruct (decide (ps = [])) as [->|Hne].
  { split; [by rewrite Hk|]. intros x. rewrite Hk, Hm. unfold points. simpl.
    by rewrite (left_id_L ∅ (∪)). }
  split; [rewrite Hk; apply sort_Ints_sorted|].
  intros x. rewrite Hk, Hm, sort_Ints_perm, elem_of_app, Hd.
  rewrite lookup_union_is_Some.
  assert (x ∈ (points (hash m) (replicas m) ps).*1
          ↔ is_Some ((list_to_map (reverse (points (hash m) (replicas m) ps))
                        : gmap Z string) !! x)) as ->; [|tauto].
  rewrite <- elem_of_reverse, <- fmap_reverse.
  split.
  - intros Hin.
    destruct ((list_to_map (reverse (points (hash m) (replicas m) ps))
                : gmap Z string) !! x) eqn:E; [done|].
    by apply not_elem_of_list_to_map in E.
  - intros [p Hp]. apply elem_of_list_to_map_2 in Hp.
    apply list_elem_of_fmap. by exists (x, p).
Qed.

(** The key a hash is served by: the least key that is at least the
    hash, or the least key of all when there is none. *)
Definition successor (ks : list Z) (h x : Z) : Prop :=
  x ∈ ks
  ∧ ((h <= x ∧ ∀ y, y ∈ ks → h <= y → x <= y)
     ∨ ((∀ y, y ∈ ks → y < h) ∧ ∀ y, y ∈ ks → x <= y)).

Lemma successor_unique ks h x y :
  successor ks h x → successor ks h y → x = y.
Proof.
  intros [Hx [[Hhx Hminx]|[Hallx Hminx]]] [Hy [[Hhy Hminy]|[Hally Hminy]]].
  - pose proof (Hminx y Hy Hhy). pose proof (Hminy x Hx Hhx). lia.
  - pose proof (Hally x Hx). lia.
  - pose proof (Hallx y Hy). lia.
  - pose proof (Hminx y Hy). pose proof (Hminy x Hx). lia.
Qed.

Lemma successor_sub ks ks' h x :
  (∀ y, y ∈ ks → y ∈ ks') → successor ks' h x → x ∈ ks → successor ks h x.
Proof.
  intros Hsub [_ [[Hhx Hmin]|[Hall Hmin]]] Hx; (split; [done|]).
  - left. split; [done|]. intros y Hy. apply Hmin. by apply Hsub.
  - right. split; intros y Hy; [apply Hall|apply Hmin]; by apply Hsub.
Qed.

(** [Get] on a ring that is not empty returns the owner of the successor
    of the hash of the key. *)
Lemma Get_successor (m : Map) (key : string) :
  ring_ok m → keys m ≠ [] →
  ∃ x, successor (keys m) (hash m (bytes_of_string key)) x
       ∧ Get m key = default EmptyString (hashMap m !! x).
Proof.
  intros [Hs Hd] Hne. set (h := hash m (bytes_of_string key)).
  pose proof (first_ge_range (keys m) h) as Hfr.
  set (at_idx := if first_ge (keys m) h =? len (keys m) then 0
                 else first_ge (keys m) h).
  assert (Hlen : 0 < len (keys m)).
  { unfold len. destruct (keys m); [done|simpl; lia]. }
  assert (Hat : 0 <= at_idx < len (keys m)).
  { subst at_idx. destruct (Z.eqb_spec (first_ge (keys m) h) (len (keys m)));
      lia. }
  destruct (lookup_lt_is_Some_2 (keys m) (Z.to_nat at_idx)) as [x Hx];
    [unfold len in Hat; lia|].
  exists x. split.
  - split; [by eapply list_elem_of_lookup_2|].
    subst at_idx.
    destruct (Z.eqb_spec (first_ge (keys m) h) (len (keys m))) as [He|Hn].
    + right. assert (Hall : ∀ y, y ∈ keys m → y < h).
      { intros y (i & Hi)%list_elem_of_lookup_1.
        apply (first_ge_spec (keys m) h i y Hs Hi).
        apply lookup_lt_Some in Hi. unfold len in He. lia. }
      split; [done|]. intros y (i & Hi)%list_elem_of_lookup_1.
      apply (sorted_lookup_le (keys m) (Z.to_nat 0) i x y Hs Hx Hi).
      simpl. lia.
    + left. split.
      * assert (¬ x < h); [|lia].
        rewrite <- (first_ge_spec (keys m) h _ x Hs Hx). lia.
      * intros y (i & Hi)%list_elem_of_lookup_1 Hy.
        apply (sorted_lookup_le (keys m) _ i x y Hs Hx Hi).
        assert (¬ (Z.of_nat i < first_ge (keys m) h)); [|lia].
        rewrite (first_ge_spec (keys m) h i y Hs Hi). lia.
  - unfold Get, IsEmpty. destruct (Z.eqb_spec (len (keys m)) 0); [lia|].
    fold h. rewrite (Get_search m h Hs). fold at_idx.
    unfold keys_at. by rewrite Hx.
Qed.

(** X11.  Adding peers to a ring moves a key to one of the new peers or
    leaves it with the peer it had: no key moves between two peers that
    were in the ring before. *)
Theorem Add_moves_keys_to_new_peers (m : Map) (ps : list string)
    (key : string) :
  ring_ok m →
  Get (Add m ps) key = Get m key ∨ Get (Add m ps) key ∈ ps.
Proof.
  intros Hok. pose proof Hok as [Hs Hd].
  destruct (Add_spec m ps) as (Hh & _ & Hk & Hm).
  destruct (decide (ps = [])) as [->|Hne]; [by left|].
  pose proof (ring_ok_Add m ps Hok) as Hok'.
  set (pts := points (hash m) (replicas m) ps) in *.
  destruct (decide (keys (Add m ps) = [])) as [He'|Hne'].
  { left. assert (He : keys m = []).
    { rewrite Hk in He'.
      pose proof (sort_Ints_perm (keys m ++ pts.*1)) as Hp.
      rewrite He' in Hp. apply Permutation_nil in Hp.
      by apply app_eq_nil in Hp as [-> _]. }
    unfold Get, IsEmpty. by rewrite He', He. }
  destruct (Get_successor (Add m ps) key Hok' Hne') as (x & Hsucc & ->).
  rewrite Hh in Hsucc. rewrite Hm.
  destruct ((list_to_map (reverse pts) : gmap Z string) !! x) as [p|] eqn:Hp.
  - right. rewrite (lookup_union_Some_l _ _ _ _ Hp). simpl.
    apply elem_of_list_to_map_2 in Hp. rewrite elem_of_reverse in Hp.
    by eapply points_peer.
  - left. rewrite lookup_union_r by done.
    assert (Hx : x ∈ keys m).
    { destruct Hsucc as [Hx _]. rewrite Hk, sort_Ints_perm in Hx.
      apply elem_of_app in Hx as [?|Hx]; [done|]. exfalso.
      apply not_elem_of_list_to_map in Hp. apply Hp.
      by rewrite fmap_reverse, elem_of_reverse. }
    assert (Hnem : keys m ≠ []) by (intros E; rewrite E in Hx; by apply elem_of_nil in Hx).
    destruct (Get_successor m key Hok Hnem) as (x0 & Hsucc0 & ->).
    assert (Hsub : successor (keys m) (hash m (bytes_of_string key)) x).
    { apply (successor_sub _ (keys (Add m ps))); [|done|done].
      intros y Hy. rewrite Hk, sort_Ints_perm. apply elem_of_app. by left. }
    by rewrite (successor_unique _ _ _ _ Hsub Hsucc0).
Qed.

Lemma Add_moves_keys_to_new_peers_witness :
  let m := Add (New 3 None) ["a"; "b"] in
  Get (Add m ["c"]) "k" = Get m "k" ∨ Get (Add m ["c"]) "k" ∈ ["c"].
Proof.
  intros m. apply (Add_moves_keys_to_new_peers m ["c"] "k").
  apply ring_ok_Add, ring_ok_New.
Defined.

End RingGrowth.

(** ** The pool of peers *)

Section PoolFacts.
Import golang consistenthash http.

(** The ring [Set] builds is empty exactly when no peer is given or the
    number of replicas is not positive. *)
Lemma ring_empty (n : Z) (fn : option Hash) (ps : list string) :
  keys (Add (New n fn) ps) = [] ↔ ps = [] ∨ n <= 0.
Proof.
  destruct (Add_New_spec n fn ps) as (_ & _ & Hk & _). rewrite Hk.
  split.
  - intros He. pose proof (sort_Ints_perm (points (hash (New n fn)) n ps).*1)
      as Hp. rewrite He in Hp. apply Permutation_nil in Hp.
    apply fmap_nil_inv in Hp. destruct ps as [|p ps]; [by left|]. right.
    unfold points in Hp. simpl in Hp. apply app_eq_nil in Hp as [Hp _].
    apply fmap_nil_inv in Hp. destruct (Z.le_gt_cases n 0) as [|Hpos]; [done|].
    assert (Hlen : length (seqZ 0 n) = Z.to_nat n) by apply length_seqZ.
    rewrite Hp in Hlen. simpl in Hlen. lia.
  - intros Hor. apply Permutation_nil. rewrite sort_Ints_perm.
    destruct Hor as [->|Hn]; [done|].
    assert (Hs : seqZ 0 n = []).
    { apply length_zero_iff_nil. rewrite length_seqZ. lia. }
    assert (Hpts : points (hash (New n fn)) n ps = []).
    { unfold points. rewrite Hs. clear Hk.
      induction ps as [|p ps IH]; [done|]. simpl. exact IH. }
    by rewrite Hpts.
Qed.

(** On a ring that is not empty, [Get] returns one of its peers. *)
Lemma Get_in_peers (n : Z) (fn : option Hash) (ps : list string) key :
  keys (Add (New n fn) ps) ≠ [] → Get (Add (New n fn) ps) key ∈ ps.
Proof.
  intros Hne. set (m := Add (New n fn) ps) in *.
  assert (Hok : ring_ok m) by apply ring_ok_Add, ring_ok_New.
  destruct (Get_successor m key Hok Hne) as (x & [Hx _] & ->).
  destruct Hok as [_ Hd]. apply Hd in Hx as [p Hp]. rewrite Hp. simpl.
  destruct (Add_New_spec n fn ps) as (_ & _ & _ & Hm). fold m in Hm.
  rewrite Hm in Hp. apply elem_of_list_to_map_2 in Hp.
  rewrite elem_of_reverse in Hp. by eapply points_peer.
Qed.

(** The getters [Set] makes: one for each peer, at the base URL of the
    peer followed by the base path. *)
Lemma Set_getters (base : string) (ps : list string) (peer : string) :
  foldl (λ (m : gmap string httpGetter) q,
           <[q := {| baseURL := q ++ base |}]> m) ∅ ps !! peer
  = if decide (peer ∈ ps) then Some {| baseURL := peer ++ base |} else None.
Proof.
  assert (Hgen : ∀ (m0 : gmap string httpGetter),
    foldl (λ (m : gmap string httpGetter) q,
             <[q := {| baseURL := q ++ base |}]> m) m0 ps !! peer
    = if decide (peer ∈ ps) then Some {| baseURL := peer ++ base |}
      else m0 !! peer).
  { induction ps as [|q ps IH]; intros m0; cbn [foldl].
    - case_decide as Hin; [by apply elem_of_nil in Hin|done].
    - rewrite IH. destruct (decide (peer ∈ ps)) as [Hin|Hnin].
      + by rewrite decide_True by (by right).
      + destruct (decide (peer = q)) as [->|Hne].
        * rewrite decide_True by (by left). by rewrite lookup_insert_eq.
        * rewrite decide_False by (rewrite elem_of_cons; tauto).
          by rewrite lookup_insert_ne. }
  rewrite Hgen. by destruct (decide (peer ∈ ps)).
Qed.

(** X12.  After [Set(peers...)], [PickPeer] answers from the new ring
    alone.  With no peer, or a number of replicas that is not positive,
    it names no peer, whatever the key.  Otherwise the owner of the key
    on the ring is one of the peers given: when it is the pool itself,
    no peer is named; when it is not, the getter of this peer is
    returned, whose base URL is the peer followed by the base path;
    a nil getter is never returned with [ok = true]. *)
Theorem PickPeer_after_Set (p : HTTPPool) (ps : list string) (key : string) :
  let p' := HTTPPool_Set p ps in
  let owner := consistenthash.Get (peers p') key in
  (ps = [] ∨ Replicas (opts p) <= 0 → PickPeer p' key = (None, false))
  ∧ (ps ≠ [] → 0 < Replicas (opts p) →
     owner ∈ ps
     ∧ PickPeer p' key
       = (if decide (owner = self p) then (None, false)
          else (Some {| baseURL := owner ++ BasePath (opts p) |}, true))).
Proof.
  intros p' owner. unfold PickPeer, IsEmpty. simpl. split.
  - intros Hor. apply (ring_empty _ (HashFn (opts p))) in Hor.
    by rewrite Hor.
  - intros Hne Hpos.
    assert (Hk : keys (Add (New (Replicas (opts p)) (HashFn (opts p))) ps)
                 ≠ []).
    { rewrite ring_empty. intros [?|?]; [done|lia]. }
    pose proof (Get_in_peers _ _ _ key Hk) as Hin. fold owner in Hin.
    split; [done|].
    destruct (Z.eqb_spec
                (len (keys (Add (New (Replicas (opts p)) (HashFn (opts p)))
                              ps))) 0) as [Hz|_].
    { exfalso. apply Hk. apply length_zero_iff_nil. unfold len in Hz. lia. }
    fold owner. destruct (decide (owner = self p)) as [He|Hn].
    + by rewrite decide_False by (intros Hx; by apply Hx).
    + rewrite decide_True by done. rewrite Set_getters.
      by rewrite decide_True.
Qed.

(** The first pool a process makes, from nil options, has the base
    path ["/_groupcache/"] and 50 replicas, and names no peer until [Set]
    is called; options with an empty base path or zero replicas get these
    defaults, other values are kept; a second pool cannot be made. *)
Theorem NewHTTPPoolOpts_defaults (self0 : string)
    (o : option HTTPPoolOptions) :
  (∀ picker, NewHTTPPoolOpts true picker self0 o = None)
  ∧ NewHTTPPoolOpts false true self0 o = None
  ∧ ∃ p, NewHTTPPoolOpts false false self0 o = Some p
         ∧ self p = self0
         ∧ BasePath (opts p)
           = (match o with
              | Some o => if decide (BasePath o = EmptyString)
                          then defaultBasePath else BasePath o
              | None => defaultBasePath
              end)
         ∧ Replicas (opts p)
           = (match o with
              | Some o => if Replicas o =? 0 then 50 else Replicas o
              | None => 50
              end)
         ∧ BasePath (opts p) ≠ EmptyString ∧ Replicas (opts p) ≠ 0
         ∧ ∀ key, PickPeer p key = (None, false).
Proof.
  split; [done|]. split.
  { unfold NewHTTPPoolOpts. done. }
  unfold NewHTTPPoolOpts. simpl. eexists. split; [reflexivity|].
  destruct o as [[bp rp hf]|]; simpl.
  - destruct (decide (bp = EmptyString)) as [->|Hbp]; simpl;
      destruct (Z.eqb_spec rp 0) as [->|Hrp]; simpl; repeat split; done.
  - repeat split; done.
Qed.

End PoolFacts.

(** ** Progress of the calls in flight *)

Section FlightProgress.
Import singleflight.
Context {R : Type} (zeroR : R).
Implicit Types (σ : state R) (cl : call R) (p : pc R) (t c : nat) (k : string).

(** The number of steps a goroutine has left at most. *)
Definition rank p : nat :=
  match p with
  | L44 => 6
  | L61 _ => 5
  | InFn _ => 4
  | L62 _ => 3
  | L65 _ => 2
  | L70 _ => 1
  | L51 _ => 2
  | L53 _ => 1
  | Ret _ _ => 0
  end.

Definition steps_left σ : nat := sum_list ((λ kp, rank kp.2) <$> threads σ).

Lemma sum_list_insert (l : list (string * pc R)) t x y :
  l !! t = Some x →
  (sum_list ((λ kp, rank kp.2) <$> <[t := y]> l) + rank x.2
   = sum_list ((λ kp, rank kp.2) <$> l) + rank y.2)%nat.
Proof.
  revert t. induction l as [|a l IH]; intros [|t]; simpl; try done.
  - intros [= ->]. lia.
  - intros Hx. specialize (IH t Hx). unfold fmap in IH. lia.
Qed.

(** A step moves one goroutine, to a place with fewer steps left. *)
Lemma step_rank σ σ' t r :
  step zeroR σ t r = Some σ' →
  ∃ k p p', threads σ !! t = Some (k, p)
            ∧ threads σ' = <[t := (k, p')]> (threads σ)
            ∧ (rank p' < rank p)%nat.
Proof.
  unfold step. destruct (threads σ !! t) as [[k p]|] eqn:Ht; simpl; [|done].
  intros Hs. exists k, p.
  destruct p as [|c|c|c|c|c|c|c|c r0]; simpl in Hs.
  - destruct (default ∅ (m σ) !! k) as [c|]; injection Hs as <-;
      eexists; (split; [done|]); simpl; (split; [done|]); simpl; lia.
  - destruct (heap σ !! c) as [cl|]; simpl in Hs; [|done].
    destruct (wg cl =? 0); [|done]. injection Hs as <-.
    eexists; (split; [done|]); simpl; (split; [done|]); simpl; lia.
  - destruct (heap σ !! c) as [cl|]; simpl in Hs; [|done].
    injection Hs as <-.
    eexists; (split; [done|]); simpl; (split; [done|]); simpl; lia.
  - destruct (heap σ !! c) as [cl|]; simpl in Hs; [|done].
    injection Hs as <-.
    eexists; (split; [done|]); simpl; (split; [done|]); simpl; lia.
  - destruct (heap σ !! c) as [cl|]; simpl in Hs; [|done].
    injection Hs as <-.
    eexists; (split; [done|]); simpl; (split; [done|]); simpl; lia.
  - destruct (heap σ !! c) as [cl|]; simpl in Hs; [|done].
    injection Hs as <-.
    eexists; (split; [done|]); simpl; (split; [done|]); simpl; lia.
  - injection Hs as <-.
    eexists; (split; [done|]); simpl; (split; [done|]); simpl; lia.
  - destruct (heap σ !! c) as [cl|]; simpl in Hs; [|done].
    injection Hs as <-.
    eexists; (split; [done|]); simpl; (split; [done|]); simpl; lia.
  - done.
Qed.

Lemma step_steps_left σ σ' t r :
  step zeroR σ t r = Some σ' → (steps_left σ' < steps_left σ)%nat.
Proof.
  intros (k & p & p' & Ht & Hth & Hlt)%step_rank. unfold steps_left.
  rewrite Hth. pose proof (sum_list_insert (threads σ) t (k, p) (k, p') Ht).
  simpl in *. lia.
Qed.

Lemma run_steps_left σ σ' sched :
  run zeroR σ sched = Some σ' →
  (steps_left σ' + length sched <= steps_left σ)%nat.
Proof.
  revert σ. induction sched as [|[t r] sched IH]; intros σ; simpl.
  - intros [= <-]. lia.
  - destruct (step zeroR σ t r) as [σ1|] eqn:Hs; simpl; [|done].
    intros Hrun%IH. apply step_steps_left in Hs. lia.
Qed.

Lemma steps_left_init ks : steps_left (init (R := R) ks) = (6 * length ks)%nat.
Proof.
  unfold steps_left, init. simpl. induction ks as [|k ks IH]; [done|].
  simpl in *. unfold fmap in *. lia.
Qed.

(** In a state concurrent calls reach, a goroutine that has not returned
    can take a step, unless it waits for a call whose function has not
    returned yet, and then the goroutine that made this call can. *)
Lemma enabled σ t k p r :
  inv σ → threads σ !! t = Some (k, p) →
  match p with
  | Ret _ _ => step zeroR σ t r = None
  | L51 c =>
      is_Some (step zeroR σ t r)
      ∨ ∃ cl p', heap σ !! c = Some cl ∧ owner cl ≠ t
                 ∧ threads σ !! owner cl = Some (k, p')
                 ∧ (p' = L61 c ∨ p' = InFn c ∨ p' = L62 c)
                 ∧ is_Some (step zeroR σ (owner cl) r)
  | _ => is_Some (step zeroR σ t r)
  end.
Proof.
  intros Hinv Ht. pose proof (inv_threads σ Hinv t k p Ht) as Hti.
  assert (Hown : ∀ c p', threads σ !! t = Some (k, p') →
            (p' = L61 c ∨ p' = InFn c ∨ p' = L62 c ∨ p' = L65 c ∨ p' = L70 c
             ∨ p' = L53 c) →
            thread_inv σ t k p' → is_Some (step zeroR σ t r)).
  { intros c p' Ht' Hp' Hi. unfold step. rewrite Ht'. simpl.
    destruct Hp' as [-> | [-> | [-> | [-> | [-> | ->]]]]]; simpl in *;
      try (destruct Hi as (cl & -> & _); simpl; eauto); eauto. }
  destruct p as [|c|c|c|c|c|c|c|c r0]; try (by eapply Hown; eauto 10).
  - unfold step. rewrite Ht. simpl.
    destruct (default ∅ (m σ) !! k); eauto.
  - simpl in Hti. destruct Hti as (cl & Hcl & Hk & Hne).
    destruct (Z.eqb_spec (wg cl) 0) as [Hz|Hnz].
    + left. unfold step. rewrite Ht. simpl. rewrite Hcl. simpl.
      destruct (Z.eqb_spec (wg cl) 0); [eauto|done].
    + right. destruct (inv_calls σ Hinv c cl Hcl) as (p' & Hto & Hph).
      rewrite Hk in Hto. exists cl, p'. split; [done|]. split; [done|].
      split; [done|].
      assert (Hp' : p' = L61 c ∨ p' = InFn c ∨ p' = L62 c).
      { destruct p'; simpl in Hph; try done;
          destruct Hph as (-> & Hw & _); try lia; eauto. }
      split; [done|].
      pose proof (inv_threads σ Hinv _ _ _ Hto) as Hoi.
      unfold step. rewrite Hto. simpl.
      destruct Hp' as [-> | [-> | ->]]; simpl in *;
        destruct Hoi as (cl' & -> & _); simpl; eauto.
  - unfold step. by rewrite Ht.
Qed.

(** X13.  Concurrent calls of [Do] never deadlock and always end, as long
    as [fn] returns: a run of [n] callers has at most [6 n] steps; in
    every state it reaches, a caller that has not returned can take a
    step or waits for a call whose maker can; so a run that cannot go on
    is one in which every caller has returned. *)
Theorem Do_always_returns ks sched σ :
  run zeroR (init ks) sched = Some σ →
  (length sched <= 6 * length ks)%nat
  ∧ (∀ t k p r, threads σ !! t = Some (k, p) →
       match p with
       | Ret _ _ => step zeroR σ t r = None
       | L51 c =>
           is_Some (step zeroR σ t r)
           ∨ ∃ cl p', heap σ !! c = Some cl ∧ owner cl ≠ t
                      ∧ threads σ !! owner cl = Some (k, p')
                      ∧ (p' = L61 c ∨ p' = InFn c ∨ p' = L62 c)
                      ∧ is_Some (step zeroR σ (owner cl) r)
       | _ => is_Some (step zeroR σ t r)
       end)
  ∧ ((∀ t r, step zeroR σ t r = None) →
     ∀ t k p, threads σ !! t = Some (k, p) → ∃ c r, p = Ret c r).
Proof.
  intros Hrun.
  assert (Hinv : inv σ) by (eapply run_inv; [apply inv_init|done]).
  split; [|split].
  - pose proof (run_steps_left _ _ _ Hrun) as Hs.
    rewrite steps_left_init in Hs. lia.
  - intros t k p r Ht. by apply enabled.
  - intros Hstuck t k p Ht.
    pose proof (enabled σ t k p zeroR Hinv Ht) as He.
    destruct p as [|c|c|c|c|c|c|c|c r0]; try (by eauto);
      try (rewrite Hstuck in He; by destruct He as [? ?]).
    destruct He as [He|(cl & p' & _ & _ & _ & _ & He)];
      rewrite Hstuck in He; by destruct He as [? ?].
Qed.

(** X14.  The map of calls in flight holds a key only while the goroutine
    that made its call is between the store of the call and the delete:
    once every caller has returned the map is empty, and a later call of
    any key runs [fn] anew. *)
Theorem Do_leaves_no_call ks sched σ :
  run zeroR (init ks) sched = Some σ →
  (∀ k c, inflight σ k = Some c →
     ∃ cl p, heap σ !! c = Some cl ∧ ckey cl = k
             ∧ threads σ !! owner cl = Some (k, p)
             ∧ (p = L61 c ∨ p = InFn c ∨ p = L62 c ∨ p = L65 c))
  ∧ ((∀ t k p, threads σ !! t = Some (k, p) → ∃ c r, p = Ret c r) →
     ∀ k, inflight σ k = None).
Proof.
  intros Hrun.
  assert (Hinv : inv σ) by (eapply run_inv; [apply inv_init|done]).
  assert (Hmap : ∀ k c, inflight σ k = Some c →
     ∃ cl p, heap σ !! c = Some cl ∧ ckey cl = k
             ∧ threads σ !! owner cl = Some (k, p)
             ∧ (p = L61 c ∨ p = InFn c ∨ p = L62 c ∨ p = L65 c)).
  { intros k c Hk. destruct (inv_map σ Hinv k c Hk) as (cl & Hcl & Hck).
    destruct (inv_calls σ Hinv c cl Hcl) as (p & Hto & Hph).
    rewrite Hck in Hto. exists cl, p. repeat (split; [done|]).
    destruct p; simpl in Hph; try done; rewrite ?Hck in Hph;
      try (destruct Hph as (-> & _); by eauto 6).
    - by destruct Hph as (_ & _ & _ & Hn).
    - by destruct Hph as (_ & _ & _ & Hn & _). }
  split; [done|]. intros Hall k.
  destruct (inflight σ k) as [c|] eqn:Hk; [|done].
  destruct (Hmap k c Hk) as (cl & p & _ & _ & Hto & Hp).
  destruct (Hall _ _ _ Hto) as (c' & r & ->).
  by destruct Hp as [?|[?|[?|?]]].
Qed.

End FlightProgress.

(** ** The sorted list of the live peers *)

Section PeerStoreFacts.
Import golang peermanager.
#[local] Existing Instance string_le_total.

Lemma string_compare_trans_le (x y z : string) :
  String.compare x y ≠ Gt → String.compare y z ≠ Gt →
  String.compare x z ≠ Gt.
Proof.
  revert y z. induction x as [|a x IH]; intros [|b y] [|c z]; simpl;
    try done.
  unfold Ascii.compare.
  destruct (N.compare_spec (N_of_ascii a) (N_of_ascii b)) as [Hab|Hab|Hab];
    destruct (N.compare_spec (N_of_ascii b) (N_of_ascii c)) as [Hbc|Hbc|Hbc];
    try done; intros H1 H2;
    destruct (N.compare_spec (N_of_ascii a) (N_of_ascii c)) as [Hac|Hac|Hac];
    try done; try lia.
  by apply (IH y z).
Qed.

#[local] Instance string_le_trans : Transitive string_le.
Proof.
  intros x y z. unfold string_le, String.leb.
  pose proof (string_compare_trans_le x y z) as Ht.
  destruct (String.compare x y), (String.compare y z),
    (String.compare x z); try done; intros _ _; exfalso; by apply Ht.
Qed.

#[local] Instance string_le_antisym : AntiSymm (=) string_le.
Proof. intros x y Hxy Hyx. by apply String.leb_antisym. Qed.

(** A sorted list without duplicates is determined by its elements. *)
Lemma sort_Strings_unique (l1 l2 : list string) :
  NoDup l1 → NoDup l2 → (∀ x, x ∈ l1 ↔ x ∈ l2) →
  sort_Strings l1 = sort_Strings l2.
Proof.
  intros Hn1 Hn2 Heq. unfold sort_Strings.
  apply (Sorted_unique string_le); try (apply Sorted_merge_sort; apply _).
  rewrite !merge_sort_Permutation. by apply NoDup_Permutation.
Qed.

Lemma sort_Strings_sorted_id (l : list string) :
  Sorted string_le l → sort_Strings l = l.
Proof.
  intros Hs. unfold sort_Strings.
  apply (Sorted_unique string_le); [apply Sorted_merge_sort; apply _|done|].
  apply merge_sort_Permutation.
Qed.

(** The loop of [equalSorted] compares [a] with [b] from [i] on. *)
Lemma equalSorted_loop_spec (a b : list string) (i : nat) :
  (i + length a <= length b)%nat →
  equalSorted_loop a b (Z.of_nat i)
  = Some (bool_decide (a = take (length a) (drop i b))).
Proof.
  revert i. induction a as [|ai a IH]; intros i Hlen; simpl; [done|].
  simpl in Hlen.
  destruct (at_index_Some b (Z.of_nat i)) as [-> [bi Hbi]];
    [unfold len; lia|].
  rewrite Nat2Z.id in *. rewrite Hbi. simpl.
  rewrite (drop_S _ _ _ Hbi). simpl.
  destruct (decide (ai ≠ bi)) as [Hne|Heq].
  - f_equal. symmetry. apply bool_decide_eq_false_2. intros Hx.
    by injection Hx.
  - apply dec_stable in Heq. subst bi.
    replace (Z.of_nat i + 1) with (Z.of_nat (Datatypes.S i)) by lia.
    rewrite IH by lia. f_equal. apply bool_decide_ext.
    split; [intros Hx; by f_equal|intros Hx; by injection Hx].
Qed.

(** [equalSorted] does not panic and tells whether the lists are equal. *)
Lemma equalSorted_spec (a b : list string) :
  equalSorted a b = Some (bool_decide (a = b)).
Proof.
  unfold equalSorted. destruct (Z.eqb_spec (len a) (len b)) as [He|Hne]; simpl.
  - change 0 with (Z.of_nat 0). unfold len in He.
    rewrite equalSorted_loop_spec by (simpl; lia).
    rewrite drop_0. replace (length a) with (length b) by lia.
    by rewrite firstn_all.
  - f_equal. symmetry. apply bool_decide_eq_false_2. intros ->. done.
Qed.

Lemma copy_make {A} (z : A) (l : list A) :
  (copy (make z (len l)) l).1 = l.
Proof.
  unfold copy, make, len. simpl. rewrite length_replicate, Nat2Z.id.
  rewrite Nat.min_id, firstn_all, drop_ge; [by rewrite app_nil_r|].
  by rewrite length_replicate.
Qed.

(** What the prune returns, by the entries of the table. *)
Lemma prune_returns (ps : PeerStore) (now : string → Z) :
  ∃ lp updated,
    GetLivePeerGroupcacheAddrsAndPrune ps now
    = ({| peers := updated;
          selfApiAddr := selfApiAddr ps;
          selfGroupcacheAddr := selfGroupcacheAddr ps;
          initialPeerApiAddrs := initialPeerApiAddrs ps;
          groupcachePool := groupcachePool ps;
          lastSetGroupcachePeers := lastSetGroupcachePeers ps;
          peerTimeoutDuration := peerTimeoutDuration ps |},
       sort_Strings lp)
    ∧ (∀ addr, updated !! addr
               = e ← peers ps !! addr;
                 if kept ps now addr e then Some e else None)
    ∧ NoDup lp
    ∧ (∀ addr, addr ∈ lp ↔
               ∃ e, peers ps !! addr = Some e ∧ live ps now addr e = true).
Proof.
  unfold GetLivePeerGroupcacheAddrsAndPrune.
  pose proof (prune_loop ps now (peers ps)) as Hloop.
  destruct (map_fold (prune_body ps now) ([], ∅, 0) (peers ps))
    as [[lp updated] removedCount].
  by exists lp, updated.
Qed.

Lemma live_kept ps now addr e : live ps now addr e = true → kept ps now addr e = true.
Proof.
  unfold live, kept. intros [_ ->]%andb_true_iff. by rewrite orb_true_r.
Qed.

(** Pruning a table that has just been pruned, at the same instants,
    changes nothing. *)
Lemma prune_twice (ps : PeerStore) (now : string → Z) :
  let r := GetLivePeerGroupcacheAddrsAndPrune ps now in
  GetLivePeerGroupcacheAddrsAndPrune r.1 now = r.
Proof.
  intros r. subst r.
  destruct (prune_returns ps now) as (lp & upd & -> & Hupd & Hnd & Hlive).
  simpl.
  destruct (prune_returns
              {| peers := upd; selfApiAddr := selfApiAddr ps;
                 selfGroupcacheAddr := selfGroupcacheAddr ps;
                 initialPeerApiAddrs := initialPeerApiAddrs ps;
                 groupcachePool := groupcachePool ps;
                 lastSetGroupcachePeers := lastSetGroupcachePeers ps;
                 peerTimeoutDuration := peerTimeoutDuration ps |} now)
    as (lp2 & upd2 & -> & Hupd2 & Hnd2 & Hlive2).
  simpl in *.
  assert (Hk : ∀ addr e, upd !! addr = Some e →
            peers ps !! addr = Some e ∧ kept ps now addr e = true).
  { intros addr e. rewrite Hupd. destruct (peers ps !! addr) as [e0|]; [|done].
    simpl. destruct (kept ps now addr e0) eqn:Hke; [|done].
    by intros [= <-]. }
  f_equal; [f_equal|].
  - apply map_eq. intros addr. rewrite Hupd2.
    destruct (upd !! addr) as [e|] eqn:He; [|done]. simpl.
    destruct (Hk addr e He) as [_ Hke]. unfold kept in *. simpl. by rewrite Hke.
  - apply sort_Strings_unique; [done|done|]. intros addr.
    rewrite Hlive2, Hlive. unfold live. simpl. split.
    + intros (e & He & Hl). destruct (Hk addr e He) as [Hp _]. eauto.
    + intros (e & He & Hl). exists e. split; [|done].
      rewrite Hupd, He. simpl. by rewrite (live_kept ps now addr e Hl).
Qed.

End PeerStoreFacts.

(** ** Updating the table of peers and the pool *)

Section PeerUpdateFacts.
Import golang peermanager.
#[local] Existing Instance string_le_total.

(** X15.  [AddOrUpdatePeer] records the entry given under the groupcache
    address, whatever was there, and leaves the entries of the other
    addresses alone: the API address of the peer is then the one given.
    It returns false exactly when the address was known with the same API
    address. *)
Theorem AddOrUpdatePeer_spec (ps : PeerStore) (gc api : string) (t : Z) :
  let ps' := (AddOrUpdatePeer ps gc api t).1 in
  let changed := (AddOrUpdatePeer ps gc api t).2 in
  peers ps' !! gc = Some (mkPeerEntry gc api t)
  ∧ GetPeerApiAddress ps' gc = (api, true)
  ∧ (∀ a, a ≠ gc → peers ps' !! a = peers ps !! a
                   ∧ GetPeerApiAddress ps' a = GetPeerApiAddress ps a)
  ∧ (changed = false ↔ ∃ e, peers ps !! gc = Some e ∧ ApiAddress e = api)
  ∧ selfGroupcacheAddr ps' = selfGroupcacheAddr ps
  ∧ peerTimeoutDuration ps' = peerTimeoutDuration ps
  ∧ lastSetGroupcachePeers ps' = lastSetGroupcachePeers ps.
Proof.
  intros ps' changed. subst ps' changed. unfold AddOrUpdatePeer.
  split; [|split; [|split; [|split]]].
  - destruct (peers ps !! gc); simpl; by rewrite lookup_insert_eq.
  - unfold GetPeerApiAddress.
    destruct (peers ps !! gc); simpl; by rewrite lookup_insert_eq.
  - intros a Ha. unfold GetPeerApiAddress.
    destruct (peers ps !! gc); simpl; by rewrite lookup_insert_ne.
  - destruct (peers ps !! gc) as [e|]; simpl.
    + destruct (decide (ApiAddress e = api)) as [He|Hne].
      * split; [eauto|done].
      * split; [done|]. by intros (e' & [= <-] & ?).
    + split; [done|]. by intros (e & ? & _).
  - by destruct (peers ps !! gc).
Qed.

(** X16.  A peer other than the node itself that has been seen less than
    a timeout before the prune is in the list of live peers, and its
    entry stays in the table; in particular a peer recorded by
    [AddOrUpdatePeer] at the instant of the prune is live when the timeout
    is positive.  With a timeout that is zero or negative, no peer seen
    at or before the prune is live. *)
Theorem seen_peer_is_live (ps : PeerStore) (gc api : string) (t : Z)
    (now : string → Z) :
  let ps1 := (AddOrUpdatePeer ps gc api t).1 in
  let r := GetLivePeerGroupcacheAddrsAndPrune ps1 now in
  MinInt64 < peerTimeoutDuration ps <= MaxInt64 →
  gc ≠ selfGroupcacheAddr ps →
  (now gc - t < peerTimeoutDuration ps →
   gc ∈ r.2 ∧ peers r.1 !! gc = Some (mkPeerEntry gc api t))
  ∧ (peerTimeoutDuration ps <= now gc - t →
     (gc ∉ r.2) ∧ peers r.1 !! gc = None)
  ∧ (peerTimeoutDuration ps <= 0 →
     (∀ a e, peers ps1 !! a = Some e → LastSeen e <= now a) → r.2 = []).
Proof.
  intros ps1 r Ht Hself. subst r.
  destruct (prune_returns ps1 now) as (lp & upd & -> & Hupd & Hnd & Hlive).
  simpl.
  assert (Hps1 : peers ps1 !! gc = Some (mkPeerEntry gc api t)
                 ∧ selfGroupcacheAddr ps1 = selfGroupcacheAddr ps
                 ∧ peerTimeoutDuration ps1 = peerTimeoutDuration ps).
  { subst ps1. unfold AddOrUpdatePeer.
    destruct (peers ps !! gc); simpl; by rewrite lookup_insert_eq. }
  destruct Hps1 as (Hgc & Hs1 & Ht1).
  assert (Hmem : ∀ a, a ∈ sort_Strings lp ↔ a ∈ lp).
  { intros a. unfold sort_Strings. by rewrite merge_sort_Permutation. }
  assert (Hlt : ∀ a e,
            (time_Since (now a) (LastSeen e) <? peerTimeoutDuration ps1)
            = (now a - LastSeen e <? peerTimeoutDuration ps)).
  { intros a e. rewrite Ht1. by apply time_Since_lt. }
  split; [|split].
  - intros Hrecent. split.
    + apply Hmem, Hlive. eexists. split; [done|]. unfold live.
      rewrite Hs1, bool_decide_eq_false_2 by done. rewrite Hlt. simpl.
      by apply Z.ltb_lt.
    + rewrite Hupd, Hgc. simpl. unfold kept. rewrite Hlt. simpl.
      destruct (Z.ltb_spec (now gc - t) (peerTimeoutDuration ps)); [|lia].
      by rewrite orb_true_r.
  - intros Hold. split.
    + rewrite Hmem, Hlive. intros (e & He & Hl). rewrite Hgc in He.
      injection He as <-. unfold live in Hl. rewrite Hlt in Hl. simpl in Hl.
      apply andb_true_iff in Hl as [_ Hl%Z.ltb_lt]. lia.
    + rewrite Hupd, Hgc. simpl. unfold kept. rewrite Hlt, Hs1. simpl.
      rewrite bool_decide_eq_false_2 by done.
      by destruct (Z.ltb_spec (now gc - t) (peerTimeoutDuration ps)); [lia|].
  - intros Hneg Hpast.
    assert (Hnil : lp = []).
    { destruct lp as [|a lp']; [done|]. exfalso.
      assert (Ha : a ∈ a :: lp') by (by left).
      apply Hlive in Ha as (e & He & Hl). unfold live in Hl.
      rewrite Hlt in Hl. apply andb_true_iff in Hl as [_ Hl%Z.ltb_lt].
      specialize (Hpast a e He). lia. }
    by rewrite Hnil.
Qed.

(** The store with another pool and another list of the peers last
    set. *)
Definition with_lastSet (ps : PeerStore) (pool : option http.HTTPPool)
    (l : list string) : PeerStore :=
  {| peers := peers ps;
     selfApiAddr := selfApiAddr ps;
     selfGroupcacheAddr := selfGroupcacheAddr ps;
     initialPeerApiAddrs := initialPeerApiAddrs ps;
     groupcachePool := pool;
     lastSetGroupcachePeers := l;
     peerTimeoutDuration := peerTimeoutDuration ps |}.

Lemma prune_with_lastSet (ps : PeerStore) pool (l : list string) now :
  GetLivePeerGroupcacheAddrsAndPrune (with_lastSet ps pool l) now
  = (with_lastSet (GetLivePeerGroupcacheAddrsAndPrune ps now).1 pool l,
     (GetLivePeerGroupcacheAddrsAndPrune ps now).2).
Proof.
  unfold GetLivePeerGroupcacheAddrsAndPrune, with_lastSet. simpl.
  change (prune_body
            {| peers := peers ps; selfApiAddr := selfApiAddr ps;
               selfGroupcacheAddr := selfGroupcacheAddr ps;
               initialPeerApiAddrs := initialPeerApiAddrs ps;
               groupcachePool := pool;
               lastSetGroupcachePeers := l;
               peerTimeoutDuration := peerTimeoutDuration ps |} now)
    with (prune_body ps now).
  by destruct (map_fold (prune_body ps now) ([], ∅, 0) (peers ps))
    as [[lp updated] removedCount].
Qed.

(** [UpdateGroupcachePoolIfNeeded] prunes the table.  When the list of
    the live peers is the one set last, it returns false; when it is not,
    it calls [Set] through the pointer to the pool, which panics when the
    pointer is nil, records the list as the one set last and returns
    true. *)
Lemma Update_returns (ps : PeerStore) now :
  let r := GetLivePeerGroupcacheAddrsAndPrune ps now in
  UpdateGroupcachePoolIfNeeded ps now
  = if bool_decide (r.2 = lastSetGroupcachePeers ps)
    then Some (with_lastSet r.1 (groupcachePool ps) r.2, false)
    else pool ← groupcachePool ps;
         Some (with_lastSet r.1 (Some (http.HTTPPool_Set pool r.2)) r.2,
               true).
Proof.
  intros r. subst r. unfold UpdateGroupcachePoolIfNeeded.
  destruct (prune_returns ps now) as (lp & upd & -> & _). cbv beta iota.
  rewrite equalSorted_spec. simpl.
  destruct (decide (sort_Strings lp = lastSetGroupcachePeers ps)) as [He|Hne].
  - rewrite bool_decide_eq_true_2 by done. simpl.
    unfold with_lastSet. simpl. by rewrite He.
  - rewrite bool_decide_eq_false_2 by done.
    cbn [negb groupcachePool]. destruct (groupcachePool ps) as [pool|]; [|done].
    cbn [mbind option_bind]. unfold with_lastSet. do 3 f_equal.
    exact (copy_make EmptyString (sort_Strings lp)).
Qed.

(** X17.  [UpdateGroupcachePoolIfNeeded] panics exactly when the list of
    the live peers differs from the one passed to [Set] last and the
    pointer to the pool is nil.  Otherwise it returns true, and has called
    [Set] of the pool with the sorted list of the live peers, exactly when
    this list differs from the one passed to [Set] last; when the list is
    the same, the pool is not touched, be the pointer nil or not.
    Whenever it returns, the table has been pruned and the list recorded
    as last set is the list of the live peers. *)
Theorem Update_spec (ps : PeerStore) now :
  let r := GetLivePeerGroupcacheAddrsAndPrune ps now in
  (UpdateGroupcachePoolIfNeeded ps now = None
   ↔ r.2 ≠ lastSetGroupcachePeers ps ∧ groupcachePool ps = None)
  ∧ (∀ ps' changed,
       UpdateGroupcachePoolIfNeeded ps now = Some (ps', changed) →
       (changed = true ↔ r.2 ≠ lastSetGroupcachePeers ps)
       ∧ groupcachePool ps'
         = (if changed
            then pool ← groupcachePool ps; Some (http.HTTPPool_Set pool r.2)
            else groupcachePool ps)
       ∧ (changed = true → is_Some (groupcachePool ps'))
       ∧ peers ps' = peers r.1
       ∧ lastSetGroupcachePeers ps' = r.2
       ∧ selfGroupcacheAddr ps' = selfGroupcacheAddr ps
       ∧ peerTimeoutDuration ps' = peerTimeoutDuration ps).
Proof.
  intros r. rewrite Update_returns. fold r.
  assert (Hs : selfGroupcacheAddr r.1 = selfGroupcacheAddr ps
               ∧ peerTimeoutDuration r.1 = peerTimeoutDuration ps).
  { subst r. by destruct (prune_returns ps now) as (lp & upd & -> & _). }
  destruct Hs as [Hself Htime].
  destruct (decide (r.2 = lastSetGroupcachePeers ps)) as [He|Hne].
  - rewrite bool_decide_eq_true_2 by done. split.
    + split; [done|]. by intros [Hn _].
    + intros ps' changed [= <- <-]. simpl.
      split; [split; [done|by intros Hn]|]. by repeat (split; [done|]).
  - rewrite bool_decide_eq_false_2 by done.
    destruct (groupcachePool ps) as [pool|]; simpl.
    + split; [split; [done|by intros [_ ?]]|].
      intros ps' changed [= <- <-]. simpl.
      split; [done|]. split; [done|]. split; [by eauto|].
      by repeat (split; [done|]).
    + split; [done|]. intros ps' changed Hn. done.
Qed.

(** X18.  A second [UpdateGroupcachePoolIfNeeded] at the same instants
    changes nothing: it returns false and leaves the table, the list last
    set and the pool as the first one left them. *)
Theorem Update_twice (ps : PeerStore) now ps1 changed :
  UpdateGroupcachePoolIfNeeded ps now = Some (ps1, changed) →
  UpdateGroupcachePoolIfNeeded ps1 now = Some (ps1, false).
Proof.
  rewrite Update_returns. intros Hup.
  assert (Hps1 : ∃ pool, ps1 = with_lastSet
                                 (GetLivePeerGroupcacheAddrsAndPrune ps now).1
                                 pool
                                 (GetLivePeerGroupcacheAddrsAndPrune ps now).2).
  { destruct (bool_decide _); [injection Hup as <- _; by eauto|].
    destruct (groupcachePool ps) as [pool|]; [|done]. simpl in Hup.
    injection Hup as <- _. by eauto. }
  destruct Hps1 as [pool ->].
  rewrite Update_returns, prune_with_lastSet. simpl.
  rewrite (prune_twice ps now). simpl.
  by rewrite bool_decide_eq_true_2.
Qed.

(** X19.  After an update that has set the pool of a node, the pool the
    store points to holds in its ring the live peers and never the node
    itself: when no peer is live,
    [PickPeer] names no peer and every key is loaded locally; as soon as
    one peer is live, [PickPeer] names a live peer other than the node for
    every key. *)
Theorem Update_sets_ring (ps : PeerStore) (pool : http.HTTPPool) now
    ps' (key : string) :
  groupcachePool ps = Some pool →
  http.self pool = selfGroupcacheAddr ps →
  0 < http.Replicas (http.opts pool) →
  UpdateGroupcachePoolIfNeeded ps now = Some (ps', true) →
  let livePeers := lastSetGroupcachePeers ps' in
  ∃ pool',
    groupcachePool ps' = Some pool'
    ∧ (∀ a, a ∈ livePeers ↔
            ∃ e, peers ps !! a = Some e ∧ live ps now a e = true)
    ∧ (selfGroupcacheAddr ps ∉ livePeers)
    ∧ (livePeers = [] → http.PickPeer pool' key = (None, false))
    ∧ (livePeers ≠ [] →
       ∃ peer, peer ∈ livePeers ∧ peer ≠ selfGroupcacheAddr ps
               ∧ http.PickPeer pool' key
                 = (Some {| http.baseURL :=
                              peer ++ http.BasePath (http.opts pool) |},
                    true)).
Proof.
  intros Hpool Hself Hrep. rewrite Update_returns, Hpool.
  destruct (prune_returns ps now) as (lp & upd & Hr & _ & _ & Hlive).
  rewrite Hr. simpl. intros Heq.
  destruct (bool_decide (sort_Strings lp = lastSetGroupcachePeers ps));
    [by injection Heq|].
  injection Heq as <-. simpl. eexists. split; [reflexivity|].
  assert (Hmem : ∀ a, a ∈ sort_Strings lp ↔
            ∃ e, peers ps !! a = Some e ∧ live ps now a e = true).
  { intros a. unfold sort_Strings. by rewrite merge_sort_Permutation. }
  assert (Hns : selfGroupcacheAddr ps ∉ sort_Strings lp).
  { intros (e & _ & Hl)%Hmem. unfold live in Hl.
    by rewrite bool_decide_eq_true_2 in Hl. }
  split; [done|]. split; [done|].
  unfold http.PickPeer, consistenthash.IsEmpty. simpl. split.
  - intros ->. unfold consistenthash.Add. simpl. done.
  - intros Hne.
    assert (Hk : consistenthash.keys
                   (consistenthash.Add
                      (consistenthash.New (http.Replicas (http.opts pool))
                         (http.HashFn (http.opts pool)))
                      (sort_Strings lp)) ≠ []).
    { rewrite ring_empty. intros [?|?]; [done|lia]. }
    pose proof (Get_in_peers _ _ _ key Hk) as Hin.
    set (owner := consistenthash.Get _ key) in *.
    exists owner. split; [done|].
    assert (Hno : owner ≠ selfGroupcacheAddr ps) by (by intros E; rewrite E in Hin).
    split; [done|].
    destruct (Z.eqb_spec (len (consistenthash.keys
                   (consistenthash.Add
                      (consistenthash.New (http.Replicas (http.opts pool))
                         (http.HashFn (http.opts pool)))
                      (sort_Strings lp)))) 0) as [Hz|_].
    { exfalso. apply Hk. apply length_zero_iff_nil. unfold len in Hz. lia. }
    rewrite decide_True by (by rewrite Hself).
    rewrite Set_getters. by rewrite decide_True.
Qed.

End PeerUpdateFacts.

(** ** The sinks over byte slices *)

Section SinkFacts.
Import golang byteview sinks.

Lemma cloneBytes_id (x : list byte) : cloneBytes x = x.
Proof.
  unfold cloneBytes, copy, make, len. simpl.
  rewrite length_replicate, Nat2Z.id, Nat.min_id, firstn_all, drop_ge;
    [by rewrite app_nil_r|].
  by rewrite length_replicate.
Qed.

(** What is left of the slice [d] once the bytes [x] have been copied
    into it: the first [len d] bytes of [x]. *)
Lemma truncate_take (d x : list byte) : truncate d x = take (length d) x.
Proof.
  unfold truncate, copy, len.
  destruct (Nat.le_gt_cases (length d) (length x)) as [Hle|Hgt].
  - rewrite Nat.min_l by done.
    rewrite drop_ge, app_nil_r by done.
    rewrite length_take_le by done.
    by destruct (Z.ltb_spec (Z.of_nat (length d)) (Z.of_nat (length d)));
      [lia|].
  - rewrite Nat.min_r by lia. rewrite firstn_all.
    rewrite length_app, length_drop.
    destruct (Z.ltb_spec (Z.of_nat (length x))
                (Z.of_nat (length x + (length d - length x)))); [|lia].
    rewrite Nat2Z.id, take_app_length.
    by rewrite take_ge by lia.
Qed.

(** X20.  An allocating sink made from a pointer that is not nil never
    fails: whichever way a value is set ([SetBytes], [SetString], or
    [setView] through [setSinkView]), the destination holds the bytes of
    the value and the view of the sink holds the same bytes.  On a sink
    made from a nil pointer, [SetBytes] and [SetString] return an error and
    leave the sink as it is, while [setSinkView] panics. *)
Theorem allocBytesSink_spec (k : allocBytesSink) (x : list byte)
    (str : string) (v : ByteView) :
  (ab_dst k = None →
   allocBytesSink_SetBytes x k
   = (k, Some (errors_New "nil AllocatingByteSliceSink *[]byte dst"))
   ∧ allocBytesSink_SetString str k
     = (k, Some (errors_New "nil AllocatingByteSliceSink *[]byte dst"))
   ∧ allocBytesSink_setSinkView k v = None)
  ∧ (ab_dst k ≠ None →
     (∃ k', allocBytesSink_SetBytes x k = (k', None)
            ∧ ab_dst k' = Some x
            ∧ ByteSlice (allocBytesSink_view k').1 = x)
     ∧ (∃ k', allocBytesSink_SetString str k = (k', None)
              ∧ ab_dst k' = Some (bytes_of_string str)
              ∧ ByteSlice (allocBytesSink_view k').1 = bytes_of_string str)
     ∧ (∃ k', allocBytesSink_setSinkView k v = Some (k', None)
              ∧ ab_dst k' = Some (ByteSlice v)
              ∧ (allocBytesSink_view k').1 = v)).
Proof.
  unfold allocBytesSink_SetBytes, allocBytesSink_setBytesOwned,
    allocBytesSink_SetString, allocBytesSink_setSinkView,
    allocBytesSink_setView, allocBytesSink_view.
  split.
  - intros ->. done.
  - intros Hne. destruct (ab_dst k) as [d|]; [|done].
    rewrite !cloneBytes_id. split; [|split]; eexists; (split; [done|]);
      simpl; (split; [|done]).
    + done.
    + done.
    + unfold ByteSlice. destruct (b v); [by rewrite cloneBytes_id|done].
Qed.

(** X21.  A truncating sink made from a pointer to a slice of length [n]
    never writes past it: after a value is set, the destination holds the
    first [n] bytes of the value, or all of them when there are fewer, so
    that it never grows, while the view of the sink holds the whole value.
    On a sink made from a nil pointer the setters return an error. *)
Theorem truncBytesSink_spec (k : truncBytesSink) (v : ByteView) :
  (tb_dst k = None →
   setSinkView k v
   = (k, Some (errors_New "nil TruncatingByteSliceSink *[]byte dst")))
  ∧ (∀ d, tb_dst k = Some d →
     ∃ k', setSinkView k v = (k', None)
           ∧ tb_dst k' = Some (take (length d) (ByteSlice v))
           ∧ (∀ d', tb_dst k' = Some d' → (length d' <= length d)%nat)
           ∧ ByteSlice (view k').1 = ByteSlice v).
Proof.
  unfold setSinkView. simpl.
  unfold truncBytesSink_setBytesOwned, truncBytesSink_SetString, ByteSlice.
  split.
  - intros ->. by destruct (b v).
  - intros d ->. destruct (b v) as [vb|]; simpl;
      rewrite truncate_take, ?cloneBytes_id;
      eexists; (split; [done|]); simpl; (split; [done|]);
      (split; [|done]); intros d' [= <-]; rewrite length_take; lia.
Qed.

Lemma truncBytesSink_spec_witness :
  ∃ k', setSinkView (TruncatingByteSliceSink (Some [x00; x00]))
          {| b := None; s := "hello" |} = (k', None)
        ∧ tb_dst k' = Some [x68; x65]
        ∧ ByteSlice (view k').1 = bytes_of_string "hello".
Proof.
  destruct (proj2 (truncBytesSink_spec
                     (TruncatingByteSliceSink (Some [x00; x00]))
                     {| b := None; s := "hello" |}) [x00; x00] eq_refl)
    as (k' & Hs & Hd & _ & Hv).
  exists k'. split; [exact Hs|]. split; [exact Hd|exact Hv].
Defined.

End SinkFacts.

(** ** Lookups in a segment *)

Section SegmentLookup.
Import golang lru byteview groupcache.
Implicit Types (c : cache) (kv : entry string ByteView).

Lemma total_perm (l1 l2 : list (entry string ByteView)) :
  l1 ≡ₚ l2 → total l1 = total l2.
Proof. induction 1; simpl; lia. Qed.

(** [cache.get] on an accounted segment: it does not panic, counts the
    get, and hits exactly the keys of the segment, whose entries it may
    reorder. *)
Lemma cache_get_ok c k :
  cache_ok c →
  ∃ c' r,
    cache_get c k = Some (c', r) ∧ cache_ok c'
    ∧ cache_entries c' ≡ₚ cache_entries c
    ∧ cache_keys c' = cache_keys c
    ∧ nbytes c' = nbytes c ∧ nevict c' = nevict c
    ∧ nget c' = int64 (nget c + 1)
    ∧ nhit c' = (match r with
                 | Some _ => int64 (nhit c + 1)
                 | None => nhit c
                 end)
    ∧ (r = None ↔ k ∉ cache_keys c)
    ∧ (∀ v, r = Some v → mkEntry k v ∈ cache_entries c).
Proof.
  intros [Hlru Hbytes Hrange]. unfold cache_get.
  destruct (groupcache.lru c) as [l|] eqn:Hl.
  2:{ eexists _, None. split; [done|].
      assert (Hent : cache_entries c = [])
        by (unfold cache_entries; by rewrite Hl).
      unfold cache_total in *. rewrite Hent in *.
      unfold cache_entries, cache_keys. simpl. rewrite Hl. split.
      { constructor; unfold cache_total, cache_entries; simpl; done. }
      repeat (split; [done|]). done. }
  destruct Hlru as (Hok & Hcb & Hmax).
  destruct (decide (k ∈ index_keys l)) as [Hk|Hk].
  - destruct (Get_hit l k Hok Hk)
      as (l' & v & es1 & es2 & -> & Hok' & He & He' & Hcb' & Hmax' & Hkeys).
    simpl. eexists _, (Some v). split; [done|].
    assert (Hperm : entries l' ≡ₚ entries l).
    { rewrite He, He'. by rewrite Permutation_middle. }
    assert (Hent : cache_entries c = entries l)
      by (unfold cache_entries; by rewrite Hl).
    unfold cache_total in *. rewrite Hent in *.
    unfold cache_entries, cache_keys. simpl. rewrite Hl. split.
    { constructor; unfold cache_total, cache_entries; simpl.
      - by rewrite Hcb', Hmax'.
      - by rewrite (total_perm _ _ Hperm).
      - by rewrite (total_perm _ _ Hperm). }
    repeat (split; [done|]).
    intros v' [= <-]. rewrite He. apply elem_of_app. right. by left.
  - rewrite (Get_miss l k Hk). simpl. eexists _, None. split; [done|].
    assert (Hent : cache_entries c = entries l)
      by (unfold cache_entries; by rewrite Hl).
    unfold cache_total in *. rewrite Hent in *.
    unfold cache_entries, cache_keys. simpl. rewrite Hl. split.
    { constructor; unfold cache_total, cache_entries; simpl; done. }
    repeat (split; [done|]). done.
Qed.

End SegmentLookup.

(** ** The engine keeps its segments accounted *)

Section EngineSafety.
Import golang lru byteview sinks groupcache.
Context {S : Type} `{Sink S}.
Implicit Types (g : Group S) (d : S).

(** The charges of the entries are within the budget (a budget that is
    zero or negative leaves both segments empty). *)
Definition within g : Prop :=
  cache_total (mainCache g) + cache_total (hotCache g)
  <= Z.max 0 (cacheBytes g).

(** The fields of a group that no call changes. *)
Definition static g g' : Prop :=
  name g' = name g ∧ getter g' = getter g ∧ peers g' = peers g
  ∧ cacheBytes g' = cacheBytes g ∧ rand g' = rand g.

Lemma static_refl g : static g g.
Proof. by repeat split. Qed.

Lemma static_trans g1 g2 g3 : static g1 g2 → static g2 g3 → static g1 g3.
Proof.
  intros (? & ? & ? & ? & ?) (? & ? & ? & ? & ?). repeat split; congruence.
Qed.

Lemma frame_static g g' : frame g g' → static g g'.
Proof. intros (? & ? & ? & ? & _ & ? & _). by repeat split. Qed.

(** What depends on the segments alone. *)
Lemma segments_ext g g' :
  mainCache g' = mainCache g → hotCache g' = hotCache g →
  cacheBytes g' = cacheBytes g →
  (group_ok g → group_ok g') ∧ (within g → within g')
  ∧ items g' = items g.
Proof.
  intros Hm Hh Hb. unfold within, items. rewrite Hm, Hh, Hb.
  split; [|done]. intros [? ? ?]. constructor; by rewrite ?Hm, ?Hh.
Qed.

Lemma bump_ok f g :
  (group_ok g → group_ok (bump f g)) ∧ (within g → within (bump f g))
  ∧ items (bump f g) = items g ∧ static g (bump f g).
Proof.
  destruct (segments_ext g (bump f g)) as (? & ? & ?); done.
Qed.

(** The loop of [populateCache] from an accounted group: it returns with
    enough fuel, within the budget, and only removes entries. *)
Lemma evict_returns_items fuel g :
  group_ok g → 0 < cacheBytes g → (items g < fuel)%nat →
  ∃ g', evict fuel g = Some g' ∧ group_ok g'
        ∧ cache_total (mainCache g') + cache_total (hotCache g')
          <= cacheBytes g
        ∧ (items g' <= items g)%nat
        ∧ (cache_total (mainCache g) + cache_total (hotCache g)
           <= cacheBytes g → g' = g).
Proof.
  revert g. induction fuel as [|fuel IH]; intros g Hok Hpos Hfuel; [lia|].
  destruct (Z.le_gt_cases
              (cache_total (mainCache g) + cache_total (hotCache g))
              (cacheBytes g)) as [Hle|Hgt].
  - exists g. simpl. rewrite (group_ok_sum g Hok).
    destruct (Z.leb_spec (cache_total (mainCache g)
                          + cache_total (hotCache g)) (cacheBytes g));
      [done|lia].
  - destruct (evict_step fuel g Hok Hpos Hgt)
      as (rest & kv & c' & _ & _ & _ & -> & Hok' & Hit).
    destruct (IH (set_cache g (victim g) c')) as (g' & Hev & Hg' & Hb & Hi & _);
      [done|by destruct (victim g)|lia|].
    exists g'. split; [done|]. split; [done|].
    split; [by destruct (victim g)|]. split; [lia|]. intros Hle. lia.
Qed.

(** [populateCache] with any fuel that suffices, on an accounted group
    within its budget and for a key its segment does not hold. *)
Lemma populateCache_safe fuel g k value which :
  group_ok g → within g →
  (0 < cacheBytes g → k ∉ cache_keys (get_cache g which)) →
  Z.max 0 (cacheBytes g) + (strlen k + Len value) <= MaxInt64 →
  (items g + 1 < fuel)%nat →
  ∃ g', populateCache fuel g k value which = Some g'
        ∧ group_ok g' ∧ within g' ∧ frame g g'
        ∧ (items g' <= items g + 1)%nat
        ∧ (0 < cacheBytes g →
           cache_total (mainCache g) + cache_total (hotCache g)
             + (strlen k + Len value) <= cacheBytes g →
           cache_entries (get_cache g' which)
             = mkEntry k value :: cache_entries (get_cache g which)
           ∧ cache_keys (get_cache g' which)
             = {[ k ]} ∪ cache_keys (get_cache g which)
           ∧ ∀ other, other ≠ which →
                      get_cache g' other = get_cache g other).
Proof.
  intros Hok Hin Hk Hsum Hfuel. pose proof Hok as [Hm Hh Hr].
  pose proof (total_nonneg (cache_entries (mainCache g))) as Hmn.
  pose proof (total_nonneg (cache_entries (hotCache g))) as Hhn.
  unfold within in Hin.
  destruct (Z.le_gt_cases (cacheBytes g) 0) as [Hb|Hb].
  { exists g. unfold populateCache.
    destruct (Z.leb_spec (cacheBytes g) 0); [|lia].
    split; [done|]. split; [done|]. split; [done|].
    split; [by repeat split|]. split; [lia|]. intros ?. lia. }
  unfold populateCache. destruct (Z.leb_spec (cacheBytes g) 0); [lia|].
  assert (Hcok : cache_ok (get_cache g which)) by (by destruct which).
  destruct (cache_add_fresh (get_cache g which) k value Hcok (Hk Hb))
    as (c' & -> & Hok' & Hent' & _).
  { unfold cache_total in *. destruct which; simpl; lia. }
  simpl.
  assert (Hg1 : group_ok (set_cache g which c')).
  { unfold cache_total in *.
    destruct which; constructor; simpl in *; try done;
      unfold cache_total; rewrite Hent'; simpl; unfold charge; simpl; lia. }
  assert (Hit : items (set_cache g which c') = Datatypes.S (items g)).
  { unfold items. destruct which; simpl in *; rewrite Hent'; simpl; lia. }
  destruct (evict_returns_items fuel (set_cache g which c'))
    as (g' & Hev & Hg' & Hbb & Hi & Hsame); [done|by destruct which|lia|].
  exists g'. split; [done|]. split; [done|].
  assert (Hfr : frame (set_cache g which c') g') by (by eapply evict_frame).
  assert (Hcb : cacheBytes (set_cache g which c') = cacheBytes g)
    by (by destruct which).
  split.
  { unfold within. destruct Hfr as (_ & _ & _ & -> & _). rewrite Hcb in *.
    lia. }
  split.
  { unfold frame in *. by destruct which. }
  split; [lia|]. intros _ Hroom.
  rewrite Hsame.
  - rewrite get_set_cache. split; [done|].
    split; [|intros other Ho; by destruct which, other].
    unfold cache_keys. pose proof Hok' as [Hl' _ _].
    destruct (groupcache.lru c') as [l'|] eqn:El'.
    + destruct Hl' as (Hokl' & _).
      rewrite (index_keys_order_keys l' Hokl'). unfold order_keys.
      unfold cache_entries in Hent'. rewrite El' in Hent'. rewrite Hent'.
      rewrite fmap_cons. simpl. f_equal.
      destruct Hcok as [Hl _ _].
      destruct (groupcache.lru (get_cache g which)) as [l|].
      * destruct Hl as (Hokl & _).
        by rewrite (index_keys_order_keys l Hokl).
      * done.
    + unfold cache_entries in Hent'. by rewrite El' in Hent'.
  - rewrite Hcb. unfold cache_total in *.
    destruct which; simpl; rewrite Hent'; simpl; unfold charge; simpl; lia.
Qed.


Lemma cache_keys_entries (c : cache) :
  cache_ok c →
  cache_keys c = list_to_set (key <$> cache_entries c)
  ∧ NoDup (key <$> cache_entries c).
Proof.
  intros [Hl _ _]. unfold cache_keys, cache_entries.
  destruct (groupcache.lru c) as [l|]; [|split; [done|constructor]].
  destruct Hl as (Hok & _). split.
  - by apply index_keys_order_keys.
  - by apply entries_keys_NoDup.
Qed.

Lemma entry_key_in (c : cache) k v :
  cache_ok c → mkEntry k v ∈ cache_entries c → k ∈ cache_keys c.
Proof.
  intros Hok Hin. rewrite (proj1 (cache_keys_entries c Hok)).
  apply elem_of_list_to_set, list_elem_of_fmap. by exists (mkEntry k v).
Qed.

Lemma entry_value_unique (c : cache) k v v' :
  cache_ok c → mkEntry k v ∈ cache_entries c →
  mkEntry k v' ∈ cache_entries c → v' = v.
Proof.
  intros Hok H1 H2. pose proof (proj2 (cache_keys_entries c Hok)) as Hnd.
  apply list_elem_of_lookup_1 in H1 as [i Hi].
  apply list_elem_of_lookup_1 in H2 as [j Hj].
  assert (i = j).
  { apply (NoDup_lookup _ i j k Hnd); rewrite list_lookup_fmap.
    - by rewrite Hi.
    - by rewrite Hj. }
  subst j. congruence.
Qed.

(** The key is cached with the value [v]: in the main segment, or in the
    hot one when the main one does not hold it. *)
Definition cached g (k : string) (v : ByteView) : Prop :=
  mkEntry k v ∈ cache_entries (mainCache g)
  ∨ ((k ∉ cache_keys (mainCache g))
     ∧ mkEntry k v ∈ cache_entries (hotCache g)).

(** [lookupCache] on an accounted group. *)
Lemma lookupCache_ok g k :
  group_ok g →
  ∃ g1 v hit,
    lookupCache g k = Some (g1, (v, hit))
    ∧ group_ok g1 ∧ static g g1 ∧ stats g1 = stats g
    ∧ rand_next g1 = rand_next g
    ∧ cache_entries (mainCache g1) ≡ₚ cache_entries (mainCache g)
    ∧ cache_entries (hotCache g1) ≡ₚ cache_entries (hotCache g)
    ∧ cache_keys (mainCache g1) = cache_keys (mainCache g)
    ∧ cache_keys (hotCache g1) = cache_keys (hotCache g)
    ∧ (hit = false →
       0 < cacheBytes g →
       (k ∉ cache_keys (mainCache g)) ∧ (k ∉ cache_keys (hotCache g)))
    ∧ (hit = true → 0 < cacheBytes g ∧ cached g k v).
Proof.
  intros Hok. pose proof Hok as [Hm Hh Hr]. unfold lookupCache.
  destruct (Z.leb_spec (cacheBytes g) 0) as [Hb|Hb].
  { exists g, zero, false. split; [done|]. split; [done|].
    split; [apply static_refl|]. repeat (split; [done|]).
    split; [lia|done]. }
  destruct (cache_get_ok (mainCache g) k Hm)
    as (mc & r & -> & Hmok & Hmp & Hmk & _ & _ & _ & _ & Hmr & Hmv).
  simpl. destruct r as [v|].
  - exists (set_cache g MainCache mc), v, true. split; [done|].
    simpl. split.
    { constructor; simpl; [done|done|].
      unfold cache_total. by rewrite (total_perm _ _ Hmp). }
    split; [by repeat split|]. repeat (split; [done|]).
    left. by apply Hmv.
  - destruct (cache_get_ok (hotCache g) k Hh)
      as (hc & r & Hget & Hhok & Hhp & Hhk & _ & _ & _ & _ & Hhr & Hhv).
    change (hotCache (set_cache g MainCache mc)) with (hotCache g).
    rewrite Hget. simpl.
    assert (Hg1 : group_ok (set_cache (set_cache g MainCache mc) HotCache hc)).
    { constructor; simpl; [done|done|].
      unfold cache_total.
      by rewrite (total_perm _ _ Hmp), (total_perm _ _ Hhp). }
    assert (Hkm : k ∉ cache_keys (mainCache g)) by (by apply Hmr).
    destruct r as [v|].
    + eexists _, v, true. split; [done|]. split; [done|].
      split; [by repeat split|]. simpl. repeat (split; [done|]).
      right. split; [done|]. by apply Hhv.
    + eexists _, zero, false. split; [done|]. split; [done|].
      split; [by repeat split|]. simpl. repeat (split; [done|]).
      split; [|done]. intros _ _. split; [done|]. by apply Hhr.
Qed.

(** What a lookup keeps. *)
Lemma lookup_keeps g g1 :
  cacheBytes g1 = cacheBytes g →
  cache_entries (mainCache g1) ≡ₚ cache_entries (mainCache g) →
  cache_entries (hotCache g1) ≡ₚ cache_entries (hotCache g) →
  (within g → within g1) ∧ items g1 = items g.
Proof.
  intros Hb Hm Hh. unfold within, items, cache_total.
  rewrite Hb, (total_perm _ _ Hm), (total_perm _ _ Hh).
  split; [done|]. by rewrite Hm, Hh.
Qed.

(** A [Get] of a cached key. *)
Lemma Get_hit_lemma fuel g k d v :
  group_ok g → 0 < cacheBytes g → cached g k v →
  ∃ g', Get fuel g k (Some d)
        = Some (g', Some (setSinkView d v).1, (setSinkView d v).2)
        ∧ stats g' = Stats_Add cCacheHits 1 (Stats_Add cGets 1 (stats g))
        ∧ group_ok g' ∧ static g g' ∧ rand_next g' = rand_next g
        ∧ cache_entries (mainCache g') ≡ₚ cache_entries (mainCache g)
        ∧ cache_entries (hotCache g') ≡ₚ cache_entries (hotCache g).
Proof.
  intros Hok Hb Hc.
  destruct (bump_ok cGets g) as (Hok0 & _ & _ & Hst0).
  destruct (lookupCache_ok (bump cGets g) k (Hok0 Hok))
    as (g1 & v1 & hit & Hlk & Hok1 & Hst1 & Hs1 & Hrn & Hmp & Hhp & Hmk & Hhk
        & Hmiss & Hhit).
  simpl in Hmp, Hhp, Hmk, Hhk, Hmiss, Hhit, Hs1, Hrn.
  pose proof Hok as [Hmo Hho _].
  assert (Hv : hit = true ∧ v1 = v).
  { destruct hit.
    - split; [done|]. destruct (Hhit eq_refl) as [_ Hc1].
      destruct Hc as [Hc|[Hn Hc]], Hc1 as [Hc1|[Hn1 Hc1]].
      + by apply (entry_value_unique (mainCache g) k v v1).
      + exfalso. apply Hn1. by eapply entry_key_in.
      + exfalso. apply Hn. by eapply entry_key_in.
      + by apply (entry_value_unique (hotCache g) k v v1).
    - exfalso. destruct (Hmiss eq_refl Hb) as [Hnm Hnh].
      destruct Hc as [Hc|[_ Hc]].
      + apply Hnm. by eapply entry_key_in.
      + apply Hnh. by eapply entry_key_in. }
  destruct Hv as [-> ->].
  unfold Get. rewrite Hlk. simpl.
  destruct (setSinkView d v) as [d' err] eqn:Hset. simpl.
  eexists. split; [reflexivity|]. simpl. rewrite Hs1.
  split; [done|].
  destruct (bump_ok cCacheHits g1) as (Hokb & _ & _ & Hstb).
  split; [by apply Hokb|].
  split; [|done].
  eapply static_trans; [exact Hst0|]. eapply static_trans; [exact Hst1|done].
Qed.

End EngineSafety.

(** ** Loads *)

Section EngineLoads.
(** The client [Gets]; inside this section the name is taken by the
    counter [Gets] of [Stats]. *)
Local Abbreviation Gets_in_turn := Gets (only parsing).
Import golang lru byteview sinks groupcache.
Context {S : Type} `{Sink S}.
Implicit Types (g : Group S) (d : S).

(** The key is in neither segment (with a budget). *)
Definition uncached g (k : string) : Prop :=
  0 < cacheBytes g →
  (k ∉ cache_keys (mainCache g)) ∧ (k ∉ cache_keys (hotCache g)).

(** The counters after the lookup has missed and the load has begun. *)
Definition load_begun (st : Stats) : Stats :=
  Stats_Add cLoadsDeduped 1 (Stats_Add cLoads 1 (Stats_Add cGets 1 st)).

(** The lookup of a key that is not cached. *)
Lemma lookup_uncached g k :
  group_ok g → within g → uncached g k →
  ∃ g1 v0, lookupCache (bump cGets g) k = Some (g1, (v0, false))
           ∧ group_ok g1 ∧ within g1 ∧ static g g1 ∧ items g1 = items g
           ∧ stats g1 = Stats_Add cGets 1 (stats g)
           ∧ rand_next g1 = rand_next g
           ∧ same_entries (mainCache g) (mainCache g1)
           ∧ same_entries (hotCache g) (hotCache g1).
Proof.
  intros Hok Hin Hk.
  assert (Hlk : ∃ g1 v0, lookupCache (bump cGets g) k = Some (g1, (v0, false))).
  { unfold lookupCache. simpl.
    destruct (Z.leb_spec (cacheBytes g) 0) as [|Hb]; [eauto|].
    destruct (Hk Hb) as [Hkm Hkh].
    destruct (cache_get_not_cached _ _ Hkm) as [mc ->]. simpl.
    destruct (cache_get_not_cached _ _ Hkh) as [hc ->]. simpl. eauto. }
  destruct Hlk as (g1 & v0 & Hlk). exists g1, v0. split; [done|].
  destruct (lookupCache_miss _ _ _ _ Hlk)
    as (Hn & Hg & Hp & Hcb & Hst & Hr & Hrn & Hm & Hh).
  simpl in Hn, Hg, Hp, Hcb, Hst, Hr, Hrn, Hm, Hh.
  destruct Hok as [Hmo Hho Hro].
  split.
  { constructor.
    - by apply (same_entries_ok _ _ Hm).
    - by apply (same_entries_ok _ _ Hh).
    - unfold cache_total.
      by rewrite (same_entries_entries _ _ Hm), (same_entries_entries _ _ Hh). }
  split.
  { unfold within, cache_total in *.
    by rewrite (same_entries_entries _ _ Hm), (same_entries_entries _ _ Hh),
      Hcb. }
  split; [by repeat split|]. split.
  { unfold items.
    by rewrite (same_entries_entries _ _ Hm), (same_entries_entries _ _ Hh). }
  done.
Qed.

(** A [Get] of a key that is not cached and that no peer answers for:
    the loader is called; when it fails, or the view of the sink does,
    the error is returned and nothing is stored; when it succeeds the
    value is put in the main segment. *)
Lemma Get_local_lemma fuel g k d d1 gerr :
  group_ok g → within g → uncached g k →
  (peers g k = None
   ∨ ∃ peer rv pe, peers g k = Some peer ∧ peer (name g) k = (rv, Some pe)) →
  getter g k d = (d1, gerr) →
  (gerr = None → ∀ value, view d1 = (value, None) →
   Z.max 0 (cacheBytes g) + (strlen k + Len value) <= MaxInt64) →
  (items g + 1 < fuel)%nat →
  ∃ g' err,
    Get fuel g k (Some d) = Some (g', Some d1, err)
    ∧ group_ok g' ∧ within g' ∧ static g g'
    ∧ (items g' <= items g + 1)%nat ∧ rand_next g' = rand_next g
    ∧ (let st := match peers g k with
                 | Some _ => Stats_Add cPeerErrors 1 (load_begun (stats g))
                 | None => load_begun (stats g)
                 end in
       match gerr, view d1 with
       | Some e, _ | None, (_, Some e) =>
           err = Some e ∧ stats g' = Stats_Add cLocalLoadErrs 1 st
           ∧ same_entries (mainCache g) (mainCache g')
           ∧ same_entries (hotCache g) (hotCache g')
       | None, (value, None) =>
           err = None ∧ stats g' = Stats_Add cLocalLoads 1 st
           ∧ (0 < cacheBytes g →
              cache_total (mainCache g) + cache_total (hotCache g)
                + (strlen k + Len value) <= cacheBytes g →
              cache_entries (mainCache g')
                = mkEntry k value :: cache_entries (mainCache g)
              ∧ cache_entries (hotCache g') = cache_entries (hotCache g))
       end).
Proof.
  intros Hok Hin Hk Hpeer Hget Hbound Hfuel.
  destruct (lookup_uncached g k Hok Hin Hk)
    as (g1 & v0 & Hlk & Hok1 & Hin1 & Hst1 & Hit1 & Hs1 & Hrn1 & Hm & Hh).
  pose proof Hst1 as (Hn & Hg & Hp & Hcb & Hr).
  unfold Get. rewrite Hlk. simpl.
  unfold load, flightGroup_Do, load_fn. simpl. rewrite Hp.
  (* the group the loader is called from *)
  set (gL := match peers g k with
             | Some _ => bump cPeerErrors
                           (bump cLoadsDeduped (bump cLoads g1))
             | None => bump cLoadsDeduped (bump cLoads g1)
             end).
  assert (HgL : mainCache gL = mainCache g1 ∧ hotCache gL = hotCache g1
                ∧ cacheBytes gL = cacheBytes g1 ∧ static g1 gL
                ∧ rand_next gL = rand_next g1
                ∧ stats gL = match peers g k with
                             | Some _ => Stats_Add cPeerErrors 1
                                           (load_begun (stats g))
                             | None => load_begun (stats g)
                             end).
  { subst gL. unfold load_begun. rewrite <- Hs1.
    destruct (peers g k); by repeat split. }
  destruct HgL as (HLm & HLh & HLb & HLst & HLrn & HLs).
  destruct (segments_ext g1 gL HLm HLh HLb) as (HokL & HinL & HitL).
  assert (Hstage :
    (match peers g k with
     | Some peer =>
         getFromPeer fuel (bump cLoadsDeduped (bump cLoads g1)) peer k
         ≫= λ '(g0, (value, err)),
              match err with
              | Some _ => Some (bump cPeerErrors g0, None)
              | None => Some (bump cPeerLoads g0, Some value)
              end
     | None => Some (bump cLoadsDeduped (bump cLoads g1), None)
     end) = Some (gL, None)).
  { subst gL. destruct Hpeer as [->|(peer & rv & pe & -> & Hfail)]; [done|].
    unfold getFromPeer.
    change (name (bump cLoadsDeduped (bump cLoads g1))) with (name g1).
    rewrite Hn, Hfail. done. }
  rewrite Hstage. simpl. clear Hstage.
  unfold getLocally.
  assert (HgetL : getter gL k d = (d1, gerr)).
  { destruct HLst as (_ & -> & _). by rewrite Hg. }
  rewrite HgetL.
  assert (Hsame : ∀ g', mainCache g' = mainCache gL → hotCache g' = hotCache gL →
            same_entries (mainCache g) (mainCache g')
            ∧ same_entries (hotCache g) (hotCache g')).
  { intros g' -> ->. by rewrite HLm, HLh. }
  assert (Hfail :
    ∃ g', g' = bump cLocalLoadErrs gL
          ∧ group_ok g' ∧ within g' ∧ static g g'
          ∧ (items g' <= items g + 1)%nat ∧ rand_next g' = rand_next g
          ∧ stats g' = Stats_Add cLocalLoadErrs 1 (stats gL)
          ∧ same_entries (mainCache g) (mainCache g')
          ∧ same_entries (hotCache g) (hotCache g')).
  { eexists. split; [done|].
    destruct (bump_ok cLocalLoadErrs gL) as (Ho & Hi & Hit & Hs).
    split; [by apply Ho, HokL|]. split; [by apply Hi, HinL|].
    split. { eapply static_trans; [exact Hst1|].
             eapply static_trans; [exact HLst|exact Hs]. }
    split; [rewrite Hit, HitL, Hit1; lia|].
    split; [simpl; congruence|]. split; [done|]. by apply Hsame. }
  destruct Hfail as (gF & HgF & HoF & HiF & HsF & HitF & HrnF & HstF & HseF).
  destruct gerr as [e|].
  { simpl. rewrite <- HgF. eexists _, _. split; [reflexivity|].
    rewrite <- HLs. repeat (split; [done|]). done. }
  destruct (view d1) as [value [e|]] eqn:Hview.
  { simpl. rewrite <- HgF. eexists _, _. split; [reflexivity|].
    rewrite <- HLs. repeat (split; [done|]). done. }
  simpl.
  destruct (bump_ok cLocalLoads gL) as (Ho & Hi & Hit & Hs).
  destruct (populateCache_safe fuel (bump cLocalLoads gL) k value MainCache)
    as (g' & Hpop & Hok' & Hin' & Hfr & Hit' & Hroom).
  { by apply Ho, HokL. }
  { by apply Hi, HinL. }
  { simpl. rewrite HLm, HLb, Hcb. intros Hb.
    rewrite (same_entries_keys _ _ Hm). by apply Hk. }
  { simpl. rewrite HLb, Hcb. by apply Hbound. }
  { rewrite Hit, HitL, Hit1. lia. }
  rewrite Hpop. simpl. eexists _, _. split; [reflexivity|].
  split; [done|]. split; [done|].
  split.
  { eapply static_trans; [exact Hst1|].
    eapply static_trans; [exact HLst|].
    eapply static_trans; [exact Hs|]. by apply frame_static. }
  split; [rewrite Hit, HitL, Hit1 in Hit'; lia|].
  destruct Hfr as (_ & _ & _ & _ & Hfs & _ & Hfrn).
  split; [simpl in Hfrn; congruence|].
  rewrite <- HLs. split; [done|]. split; [by rewrite Hfs|].
  intros Hb Hr0. simpl in Hroom. rewrite HLb, HLm, HLh, Hcb in Hroom.
  unfold cache_total in Hroom.
  rewrite (same_entries_entries _ _ Hm), (same_entries_entries _ _ Hh)
    in Hroom.
  destruct (Hroom Hb Hr0) as (He & _ & Hother). split; [done|].
  specialize (Hother HotCache ltac:(done)). simpl in Hother.
  by rewrite Hother, HLh, (same_entries_entries _ _ Hh).
Qed.

(** A [Get] of a key that is not cached and that a peer answers for. *)
Lemma Get_peer_lemma fuel g k d peer rv :
  group_ok g → within g → uncached g k →
  peers g k = Some peer → peer (name g) k = (rv, None) →
  Z.max 0 (cacheBytes g)
    + (strlen k + Len {| b := rv; s := EmptyString |}) <= MaxInt64 →
  (items g + 1 < fuel)%nat →
  let value := {| b := rv; s := EmptyString |} in
  ∃ g', Get fuel g k (Some d)
        = Some (g', Some (setSinkView d value).1, (setSinkView d value).2)
        ∧ group_ok g' ∧ within g' ∧ static g g'
        ∧ (items g' <= items g + 1)%nat
        ∧ rand_next g' = Datatypes.S (rand_next g)
        ∧ stats g' = Stats_Add cPeerLoads 1 (load_begun (stats g))
        ∧ (rand g (rand_next g) ≠ 0 →
           same_entries (mainCache g) (mainCache g')
           ∧ same_entries (hotCache g) (hotCache g'))
        ∧ (rand g (rand_next g) = 0 → 0 < cacheBytes g →
           cache_total (mainCache g) + cache_total (hotCache g)
             + (strlen k + Len value) <= cacheBytes g →
           cache_entries (hotCache g')
             = mkEntry k value :: cache_entries (hotCache g)
           ∧ cache_entries (mainCache g') = cache_entries (mainCache g)).
Proof.
  intros Hok Hin Hk Hpeer Hans Hbound Hfuel value.
  destruct (lookup_uncached g k Hok Hin Hk)
    as (g1 & v0 & Hlk & Hok1 & Hin1 & Hst1 & Hit1 & Hs1 & Hrn1 & Hm & Hh).
  pose proof Hst1 as (Hn & Hg & Hp & Hcb & Hr).
  unfold Get. rewrite Hlk. simpl.
  unfold load, flightGroup_Do, load_fn. simpl. rewrite Hp, Hpeer. simpl.
  unfold getFromPeer.
  change (name (bump cLoadsDeduped (bump cLoads g1))) with (name g1).
  rewrite Hn, Hans. fold value. unfold draw. simpl.
  rewrite Hr, Hrn1.
  (* the group the hot segment is populated from *)
  set (g3 := {| name := name g1; getter := getter g1; peers := peers g1;
                cacheBytes := cacheBytes g1; mainCache := mainCache g1;
                hotCache := hotCache g1;
                stats := Stats_Add cLoadsDeduped 1
                           (Stats_Add cLoads 1 (stats g1));
                rand := rand g;
                rand_next := Datatypes.S (rand_next g) |}).
  destruct (segments_ext g1 g3) as (Hok3 & Hin3 & Hit3); try done.
  assert (Hst3 : static g g3) by (by repeat split).
  assert (Hs3 : stats g3 = load_begun (stats g)).
  { unfold load_begun. by rewrite <- Hs1. }
  destruct (Z.eqb_spec (rand g (rand_next g)) 0) as [Hz|Hnz].
  - destruct (populateCache_safe fuel g3 k value HotCache)
      as (g' & Hpop & Hok' & Hin' & Hfr & Hit' & Hroom).
    { by apply Hok3. }
    { by apply Hin3. }
    { simpl. rewrite Hcb. intros Hb.
      rewrite (same_entries_keys _ _ Hh). by apply Hk. }
    { simpl. by rewrite Hcb. }
    { rewrite Hit3, Hit1. lia. }
    fold g3. rewrite Hpop. simpl.
    destruct (setSinkView d value) as [d' err]. simpl.
    eexists. split; [reflexivity|].
    destruct (bump_ok cPeerLoads g') as (Ho & Hi & Hit & Hs).
    split; [by apply Ho|]. split; [by apply Hi|].
    split.
    { eapply static_trans; [exact Hst3|].
      eapply static_trans; [by apply frame_static|exact Hs]. }
    split; [rewrite Hit, Hit3, Hit1 in *; lia|].
    destruct Hfr as (_ & _ & _ & _ & Hfs & _ & Hfrn).
    split; [done|]. split; [simpl; by rewrite Hfs, Hs3|].
    split; [done|]. intros _ Hb Hr0. simpl in Hroom.
    rewrite Hcb in Hroom. unfold cache_total in Hroom.
    rewrite (same_entries_entries _ _ Hm), (same_entries_entries _ _ Hh)
      in Hroom.
    destruct (Hroom Hb Hr0) as (He & _ & Hother). split; [done|].
    specialize (Hother MainCache ltac:(done)). simpl in Hother.
    simpl. by rewrite Hother, (same_entries_entries _ _ Hm).
  - fold g3. simpl.
    destruct (setSinkView d value) as [d' err]. simpl.
    eexists. split; [reflexivity|].
    destruct (bump_ok cPeerLoads g3) as (Ho & Hi & Hit & Hs).
    split; [by apply Ho, Hok3|]. split; [by apply Hi, Hin3|].
    split; [eapply static_trans; [exact Hst3|exact Hs]|].
    split; [rewrite Hit, Hit3, Hit1; lia|].
    split; [done|]. split; [simpl; by rewrite <- Hs3|].
    split; [done|]. done.
Qed.

(** The values a load of the key can bring fit, beside a full cache, in
    an [int64]. *)
Definition load_bounded g (k : string) : Prop :=
  (∀ d d1 value, getter g k d = (d1, None) → view d1 = (value, None) →
     Z.max 0 (cacheBytes g) + (strlen k + Len value) <= MaxInt64)
  ∧ (∀ peer rv, peers g k = Some peer → peer (name g) k = (rv, None) →
       Z.max 0 (cacheBytes g)
         + (strlen k + Len {| b := rv; s := EmptyString |}) <= MaxInt64).

Lemma load_bounded_static g g' k :
  static g g' → load_bounded g k → load_bounded g' k.
Proof.
  intros (Hn & Hg & Hp & Hb & _) [Hl Hr]. unfold load_bounded.
  rewrite Hn, Hg, Hp, Hb. done.
Qed.

(** A [Get] on an accounted group within its budget returns, and leaves
    such a group. *)
Lemma Get_safe fuel g k dest :
  group_ok g → within g → load_bounded g k → (items g + 1 < fuel)%nat →
  ∃ g' dest' err,
    Get fuel g k dest = Some (g', dest', err)
    ∧ group_ok g' ∧ within g' ∧ static g g'
    ∧ (items g' <= items g + 1)%nat.
Proof.
  intros Hok Hin [Hbl Hbp] Hfuel. destruct dest as [d|].
  2:{ unfold Get. eexists _, _, _. split; [reflexivity|].
      destruct (bump_ok cGets g) as (Ho & Hi & Hit & Hs).
      split; [by apply Ho|]. split; [by apply Hi|]. split; [done|]. lia. }
  destruct (bump_ok cGets g) as (Hok0 & _ & _ & _).
  destruct (lookupCache_ok (bump cGets g) k (Hok0 Hok))
    as (g1 & v1 & hit & _ & _ & _ & _ & _ & Hmp & Hhp & _ & _ & Hmiss & Hhit).
  simpl in Hmp, Hhp, Hmiss, Hhit. destruct hit.
  - destruct (Hhit eq_refl) as [Hb Hc].
    destruct (Get_hit_lemma fuel g k d v1 Hok Hb Hc)
      as (g' & Hget & _ & Hok' & Hst & _ & Hmp' & Hhp').
    eexists _, _, _. split; [exact Hget|]. split; [done|].
    destruct Hst as (? & ? & ? & Hcb & ?).
    destruct (lookup_keeps g g' Hcb Hmp' Hhp') as [Hw Hit].
    split; [by apply Hw|]. split; [by repeat split|]. lia.
  - assert (Hk : uncached g k) by (exact (Hmiss eq_refl)).
    destruct (peers g k) as [peer|] eqn:Hpeer.
    + destruct (peer (name g) k) as [rv [pe|]] eqn:Hans.
      * destruct (getter g k d) as [d1 gerr] eqn:Hget.
        destruct (Get_local_lemma fuel g k d d1 gerr Hok Hin Hk)
          as (g' & err & Hg & Ho & Hi & Hs & Hit & _); try done.
        { right. rewrite Hpeer. eauto. }
        { intros -> value Hv. by eapply Hbl. }
        by eexists _, _, _.
      * destruct (Get_peer_lemma fuel g k d peer rv Hok Hin Hk Hpeer Hans)
          as (g' & Hg & Ho & Hi & Hs & Hit & _); try done.
        { by eapply Hbp. }
        by eexists _, _, _.
    + destruct (getter g k d) as [d1 gerr] eqn:Hget.
      destruct (Get_local_lemma fuel g k d d1 gerr Hok Hin Hk)
        as (g' & err & Hg & Ho & Hi & Hs & Hit & _); try done.
      { left. done. }
      { intros -> value Hv. by eapply Hbl. }
      by eexists _, _, _.
Qed.

(** What [CacheStats] reports of an accounted segment: [Bytes] is the
    sum of the charges of its entries and [Items] their number. *)
Lemma cache_stats_ok (c : cache) :
  cache_ok c →
  cs_Bytes (cache_stats c) = cache_total c
  ∧ cs_Items (cache_stats c) = len (cache_entries c).
Proof.
  intros [Hlru Hb _]. split; [done|]. simpl.
  unfold cache_items, cache_entries.
  destruct (groupcache.lru c) as [l|]; [|done].
  destruct Hlru as (Hok & _). by apply Len_entries.
Qed.

(** X22.  Calls of [Get] that follow one another keep the cache sound: from
    an accounted group within its budget, every call returns, and after
    any number of calls [CacheStats] reports, for each segment, the bytes
    and the number of the entries it holds, and the bytes of the two
    segments together are within the budget. *)
Theorem Gets_keep_budget fuel reqs g :
  group_ok g → within g →
  Forall (λ req, load_bounded g req.1) reqs →
  (items g + length reqs < fuel)%nat →
  ∃ g', Gets_in_turn fuel g reqs = Some g'
        ∧ group_ok g' ∧ within g'
        ∧ (∀ which,
             let st := cache_stats (get_cache g' which) in
             cs_Bytes st = cache_total (get_cache g' which)
             ∧ cs_Items st = len (cache_entries (get_cache g' which)))
        ∧ (0 < cacheBytes g →
           cs_Bytes (cache_stats (mainCache g'))
             + cs_Bytes (cache_stats (hotCache g')) <= cacheBytes g).
Proof.
  intros Hok Hin Hb Hfuel.
  assert (Hgen : ∃ g', Gets_in_turn fuel g reqs = Some g'
                       ∧ group_ok g' ∧ within g' ∧ static g g').
  { revert g Hok Hin Hb Hfuel.
    induction reqs as [|[k dest] reqs IH]; intros g Hok Hin Hb Hfuel.
    - exists g. split; [done|]. split; [done|]. split; [done|].
      apply static_refl.
    - apply Forall_cons in Hb as [Hbk Hb]. simpl in Hbk, Hfuel.
      destruct (Get_safe fuel g k dest Hok Hin Hbk)
        as (g1 & d1 & err & Hget & Hok1 & Hin1 & Hst1 & Hit1); [lia|].
      cbn [Gets_in_turn]. rewrite Hget. simpl.
      destruct (IH g1) as (g' & Hrun & Hok' & Hin' & Hst'); try done.
      + eapply Forall_impl; [exact Hb|]. intros req. simpl.
        by apply load_bounded_static.
      + lia.
      + exists g'. repeat (split; [done|]). by eapply static_trans. }
  destruct Hgen as (g' & Hrun & Hok' & Hin' & Hst').
  exists g'. split; [done|]. split; [done|]. split; [done|].
  pose proof Hok' as [Hm Hh _]. split.
  { intros which. apply cache_stats_ok. by destruct which. }
  intros Hpos. simpl. destruct Hm as [_ Hm _], Hh as [_ Hh _].
  rewrite Hm, Hh. unfold within in Hin'.
  destruct Hst' as (_ & _ & _ & Hcb & _). rewrite Hcb in Hin'. lia.
Qed.

End EngineLoads.

(** ** Hits, loads and peers *)

Section EngineGets.
Import golang lru byteview sinks groupcache.
Context {S : Type} `{Sink S}.
Implicit Types (g : Group S) (d : S).

(** X23.  A [Get] of a key that is cached (the main segment is looked up
    first, the hot segment only for a key the main one lacks) returns the
    cached value through the sink's [setSinkView]: it counts one [Gets]
    and one [CacheHits] and no other counter, so neither the loader nor
    a peer is called, and it keeps the entries of both segments, the
    order apart. *)
Theorem Get_cache_hit fuel g k d v :
  group_ok g → 0 < cacheBytes g → cached g k v →
  ∃ g', Get fuel g k (Some d)
        = Some (g', Some (setSinkView d v).1, (setSinkView d v).2)
        ∧ stats g' = Stats_Add cCacheHits 1 (Stats_Add cGets 1 (stats g))
        ∧ group_ok g'
        ∧ cache_entries (mainCache g') ≡ₚ cache_entries (mainCache g)
        ∧ cache_entries (hotCache g') ≡ₚ cache_entries (hotCache g).
Proof.
  intros Hok Hb Hc.
  destruct (Get_hit_lemma fuel g k d v Hok Hb Hc)
    as (g' & Hget & Hs & Hok' & _ & _ & Hm & Hh).
  by exists g'.
Qed.

(** X24.  On an accounted group within its budget (each segment charges
    exactly the bytes of its entries, and the two charges together are at
    most the budget), a value the loader has brought is served from the
    cache the next time: when no peer owns the key, which is not cached,
    the loader succeeds and the entry fits the budget beside what is
    cached, the first [Get] loads the value and returns the loader's
    sink, and a second [Get] of the key hands that value to its sink as a
    cache hit, without a second load. *)
Theorem Get_load_then_hit fuel g k d d1 value d2 :
  group_ok g → within g → uncached g k → peers g k = None →
  getter g k d = (d1, None) → view d1 = (value, None) →
  0 < cacheBytes g →
  cache_total (mainCache g) + cache_total (hotCache g)
    + (strlen k + Len value) <= cacheBytes g →
  cacheBytes g + (strlen k + Len value) <= MaxInt64 →
  (items g + 1 < fuel)%nat →
  ∃ g' g'',
    Get fuel g k (Some d) = Some (g', Some d1, None)
    ∧ stats g' = Stats_Add cLocalLoads 1 (load_begun (stats g))
    ∧ Get fuel g' k (Some d2)
      = Some (g'', Some (setSinkView d2 value).1, (setSinkView d2 value).2)
    ∧ stats g''
      = Stats_Add cCacheHits 1 (Stats_Add cGets 1 (stats g')).
Proof.
  intros Hok Hin Hk Hpeer Hget Hview Hb Hroom Hmax Hfuel.
  destruct (Get_local_lemma fuel g k d d1 None Hok Hin Hk)
    as (g' & err & Hg1 & Hok' & Hin' & Hst & _ & _ & Hres); try done.
  { by left. }
  { intros _ value' Hv. rewrite Hview in Hv. injection Hv as <-. lia. }
  rewrite Hpeer, Hview in Hres. simpl in Hres.
  destruct Hres as (-> & Hs1 & Hent).
  destruct (Hent Hb Hroom) as [Hm _].
  destruct Hst as (_ & _ & _ & Hcb & _).
  destruct (Get_hit_lemma fuel g' k d2 value Hok')
    as (g'' & Hg2 & Hs2 & _); [lia| |].
  { left. rewrite Hm. apply elem_of_cons. by left. }
  by exists g', g''.
Qed.

(** X25.  On an accounted group within its budget (each segment charges
    exactly the bytes of its entries, and the two charges together are at
    most the budget), a key that is not cached and that a peer answers for
    is not loaded locally: the [Get] hands the peer's bytes to the sink,
    and counts [PeerLoads] and no local load.  When the random draw is not
    [0] it leaves both segments as they are; when the draw is [0] and the
    entry fits the budget beside what is cached, the entry is put at the
    front of the hot segment and the main segment is not changed. *)
Theorem Get_from_peer fuel g k d peer rv :
  group_ok g → within g → uncached g k →
  peers g k = Some peer → peer (name g) k = (rv, None) →
  Z.max 0 (cacheBytes g)
    + (strlen k + Len {| b := rv; s := EmptyString |}) <= MaxInt64 →
  (items g + 1 < fuel)%nat →
  let value := {| b := rv; s := EmptyString |} in
  ∃ g', Get fuel g k (Some d)
        = Some (g', Some (setSinkView d value).1, (setSinkView d value).2)
        ∧ stats g' = Stats_Add cPeerLoads 1 (load_begun (stats g))
        ∧ (rand g (rand_next g) ≠ 0 →
           same_entries (mainCache g) (mainCache g')
           ∧ same_entries (hotCache g) (hotCache g'))
        ∧ (rand g (rand_next g) = 0 → 0 < cacheBytes g →
           cache_total (mainCache g) + cache_total (hotCache g)
             + (strlen k + Len value) <= cacheBytes g →
           cache_entries (hotCache g')
             = mkEntry k value :: cache_entries (hotCache g)
           ∧ cache_entries (mainCache g') = cache_entries (mainCache g)).
Proof.
  intros Hok Hin Hk Hpeer Hans Hbound Hfuel value.
  destruct (Get_peer_lemma fuel g k d peer rv Hok Hin Hk Hpeer Hans
              Hbound Hfuel)
    as (g' & Hget & _ & _ & _ & _ & _ & Hs & Hnz & Hz).
  by exists g'.
Qed.

End EngineGets.

(** ** Examples *)

(** *** The LRU cache on concrete caches *)

Section LruExamples.
Import golang lru.

(** A cache of at most [n] entries, with strings for keys and integers for
    values, whose callback logs the key it is called on. *)
Definition logging (n : Z) : Cache string Z (list string) :=
  {| MaxEntries := n; OnEvicted := Some (λ k _ w, k :: w); ll := [];
     cache := Some ∅; elems := ∅; next := 0%nat |}.

Lemma lru_ok_logging n : lru_ok (logging n).
Proof.
  constructor; simpl; [constructor| | |].
  - intros e He. by apply elem_of_nil in He.
  - intros e [x Hx]. by rewrite lookup_empty in Hx.
  - intros k e. rewrite lookup_empty. split; [done|].
    intros [Hin _]. by apply elem_of_nil in Hin.
Qed.

(** The cache of at most one entry that holds the key ["a"]. *)
Definition logging_a : Cache string Z (list string) :=
  pushed (logging 1) "a" 1.

Lemma logging_a_ok :
  lru_ok logging_a ∧ entries logging_a = [mkEntry "a" 1]
  ∧ index_keys logging_a = {[ "a" ]}.
Proof.
  destruct (Add_pushed (logging 1) "a" 1 []) as (_ & Hok & He & Hi).
  - apply lru_ok_logging.
  - unfold index_keys. simpl. rewrite dom_empty_L. apply not_elem_of_empty.
  - split; [exact Hok|]. split; [exact He|].
    fold logging_a in Hi. rewrite Hi. unfold index_keys. simpl.
    rewrite dom_empty_L. by rewrite (right_id_L ∅ (∪)).
Qed.

Lemma Add_then_Get_witness :
  ∃ c1 w1 c2 es,
    Add (logging 0) "a" 1 [] = Some (c1, w1)
    ∧ entries c1 = mkEntry "a" 1 :: es
    ∧ Get c1 "a" = Some (c2, Some 1)
    ∧ entries c2 = mkEntry "a" 1 :: es.
Proof.
  apply (Add_then_Get (logging 0) "a" 1 []);
    [apply lru_ok_logging|simpl; lia].
Defined.

Lemma Get_moves_to_front_witness :
  NoDup (key <$> entries logging_a)
  ∧ Get logging_a "b" = Some (logging_a, None).
Proof.
  destruct (Get_moves_to_front logging_a "b") as (Hnd & Hmiss & _).
  - apply logging_a_ok.
  - split; [exact Hnd|]. apply Hmiss.
    rewrite (proj2 (proj2 logging_a_ok)). by apply not_elem_of_singleton.
Defined.

Lemma Add_evicts_oldest_witness :
  ∃ c', Add logging_a "b" 2 [] = Some (c', ["a"]) ∧ lru_ok c'
        ∧ entries c' = [mkEntry "b" 2]
        ∧ index_keys c' = ({[ "b" ]} ∪ index_keys logging_a) ∖ {[ "a" ]}.
Proof.
  apply (Add_evicts_oldest logging_a "b" 2 [] [] (mkEntry "a" 1)).
  - apply logging_a_ok.
  - simpl. lia.
  - rewrite (proj1 (proj2 logging_a_ok)). vm_compute. discriminate.
  - rewrite (proj2 (proj2 logging_a_ok)). by apply not_elem_of_singleton.
  - apply logging_a_ok.
Defined.

Lemma Cache_Remove_spec_witness :
  Cache_Remove logging_a "b" ["x"] = Some (logging_a, ["x"])
  ∧ ∃ c' kv es1 es2,
      Cache_Remove logging_a "a" [] = Some (c', evicted logging_a kv [])
      ∧ key kv = "a" ∧ entries logging_a = es1 ++ kv :: es2
      ∧ entries c' = es1 ++ es2
      ∧ index_keys c' = index_keys logging_a ∖ {[ "a" ]}
      ∧ lru_ok c' ∧ Get c' "a" = Some (c', None).
Proof.
  split.
  - apply (proj1 (Cache_Remove_spec logging_a "b" ["x"]
                    (proj1 logging_a_ok))).
    rewrite (proj2 (proj2 logging_a_ok)). by apply not_elem_of_singleton.
  - apply (proj2 (Cache_Remove_spec logging_a "a" [] (proj1 logging_a_ok))).
    rewrite (proj2 (proj2 logging_a_ok)). by apply elem_of_singleton.
Defined.

Lemma Clear_spec_witness :
  ∃ c' es,
    es ≡ₚ entries logging_a
    ∧ Clear logging_a []
      = Some (c', foldr (λ kv w, key kv :: w) [] es)
    ∧ entries c' = [] ∧ Len c' = 0
    ∧ (∀ k, Get c' k = Some (c', None)).
Proof.
  apply (Clear_spec logging_a []). apply logging_a_ok.
Defined.

Lemma Len_within_MaxEntries_witness :
  ∃ c' w',
    apply_lops (logging 2)
      [LAdd "a" 1; LAdd "b" 2; LAdd "c" 3; LGet "b"; LRemove "z"; LClear;
       LRemoveOldest; LAdd "d" 4] []
    = Some (c', w')
    ∧ lru_ok c' ∧ MaxEntries c' = 2 ∧ Len c' <= 2.
Proof.
  apply (Len_within_MaxEntries (logging 2)).
  - apply lru_ok_logging.
  - simpl. lia.
  - vm_compute. discriminate.
Defined.

End LruExamples.

(** *** Calls in flight on concrete schedules *)

Section FlightRuns.
Import singleflight.

(** Two callers of the same key; the second joins the call of the first
    while [fn] runs, and both run to their return. *)
Definition sched_both : list (nat * result) :=
  (λ t, (t, ok "v")) <$> [0; 0; 1; 0; 0; 0; 1; 1; 0]%nat.

Lemma Do_always_returns_witness :
  ∃ σ, run nil_result (init ["k"; "k"]) sched_both = Some σ
       ∧ (length sched_both <= 6 * length ["k"; "k"])%nat
       ∧ ((∀ t r, step nil_result σ t r = None) →
          ∀ t k p, threads σ !! t = Some (k, p) → ∃ c r, p = Ret c r).
Proof.
  destruct (run nil_result (init ["k"; "k"]) sched_both) as [σ|] eqn:Hrun;
    [|by vm_compute in Hrun].
  exists σ. split; [reflexivity|].
  destruct (Do_always_returns nil_result ["k"; "k"] sched_both σ Hrun)
    as (Hlen & _ & Hend).
  split; [exact Hlen|exact Hend].
Defined.

Lemma Do_leaves_no_call_witness :
  ∃ σ, run nil_result (init ["k"; "k"]) sched_both = Some σ
       ∧ threads σ = [("k", Ret 0 (ok "v")); ("k", Ret 0 (ok "v"))]
       ∧ ∀ k, inflight σ k = None.
Proof.
  destruct (run nil_result (init ["k"; "k"]) sched_both) as [σ|] eqn:Hrun;
    [|by vm_compute in Hrun].
  exists σ. split; [reflexivity|].
  destruct (Do_leaves_no_call nil_result ["k"; "k"] sched_both σ Hrun)
    as (_ & Hend).
  vm_compute in Hrun. injection Hrun as <-. split; [reflexivity|].
  apply Hend. intros t k p Ht.
  destruct t as [|[|t]]; simpl in Ht; [| |done];
    injection Ht as <- <-; by eexists _, _.
Defined.

End FlightRuns.

(** *** The table of peers and the pool on concrete nodes *)

Section PeerExamples.
Import golang peermanager.

(** The table of the node ["self"], made at instant 0 with its pool and
    the default timeout. *)
Definition store_self : PeerStore :=
  NewPeerStore "api-self" "self" [] (Some pool0) 0 0.

(** The same table after the peer ["q"] has been heard of at instant 0. *)
Definition store_q : PeerStore :=
  (AddOrUpdatePeer store_self "q" "api-q" 0).1.

(** A table made with a nil pointer to the pool, after the peer ["q"] has
    been heard of. *)
Definition store_nil : PeerStore :=
  (AddOrUpdatePeer (NewPeerStore "api-self" "self" [] None 0 0)
     "q" "api-q" 0).1.

Lemma seen_peer_is_live_witness :
  let r := GetLivePeerGroupcacheAddrsAndPrune store_q (λ _, 10 * Second) in
  "q" ∈ r.2 ∧ peers r.1 !! "q" = Some (mkPeerEntry "q" "api-q" 0).
Proof.
  intros r.
  apply (seen_peer_is_live store_self "q" "api-q" 0 (λ _, 10 * Second)).
  - vm_compute. split; [reflexivity|discriminate].
  - discriminate.
  - vm_compute. reflexivity.
Defined.

(** With a nil pointer the update panics as soon as a peer is live, and
    returns false as long as none is. *)
Lemma Update_spec_witness :
  let now := λ _ : string, 10 * Second in
  UpdateGroupcachePoolIfNeeded store_nil now = None
  ∧ ∃ ps', UpdateGroupcachePoolIfNeeded
             (NewPeerStore "api-self" "self" [] None 0 0) now
           = Some (ps', false)
           ∧ groupcachePool ps' = None.
Proof.
  intros now. split.
  - apply (proj1 (Update_spec store_nil now)).
    split; [vm_compute; discriminate|reflexivity].
  - destruct (UpdateGroupcachePoolIfNeeded
                (NewPeerStore "api-self" "self" [] None 0 0) now)
      as [[ps' changed]|] eqn:Hup.
    + destruct (proj2 (Update_spec _ now) ps' changed Hup)
        as (Hch & Hpool & _).
      assert (Hf : changed = false).
      { destruct changed; [|done]. exfalso.
        apply (proj1 Hch eq_refl). vm_compute. reflexivity. }
      subst changed. exists ps'. split; [reflexivity|exact Hpool].
    + apply (proj1 (Update_spec _ now)) in Hup as [Hne _].
      exfalso. apply Hne. vm_compute. reflexivity.
Defined.

Lemma Update_twice_witness :
  let now := λ _ : string, 10 * Second in
  ∃ ps1,
    UpdateGroupcachePoolIfNeeded store_q now = Some (ps1, true)
    ∧ UpdateGroupcachePoolIfNeeded ps1 now = Some (ps1, false).
Proof.
  intros now.
  pose proof (Update_returns store_q now) as Hup.
  cbv zeta in Hup.
  rewrite bool_decide_eq_false_2 in Hup by (vm_compute; discriminate).
  change (groupcachePool store_q) with (Some pool0) in Hup.
  cbn [mbind option_bind] in Hup.
  eexists. split; [exact Hup|].
  exact (Update_twice store_q now _ _ Hup).
Defined.

Lemma Update_sets_ring_witness :
  let now := λ _ : string, 10 * Second in
  ∃ ps' pool',
    UpdateGroupcachePoolIfNeeded store_q now = Some (ps', true)
    ∧ groupcachePool ps' = Some pool'
    ∧ ("self" ∉ lastSetGroupcachePeers ps')
    ∧ ∃ peer, peer ∈ lastSetGroupcachePeers ps' ∧ peer ≠ "self"
              ∧ http.PickPeer pool' "some key"
                = (Some {| http.baseURL := peer ++ "/_groupcache/" |}, true).
Proof.
  intros now.
  pose proof (Update_returns store_q now) as Hup.
  cbv zeta in Hup.
  rewrite bool_decide_eq_false_2 in Hup by (vm_compute; discriminate).
  change (groupcachePool store_q) with (Some pool0) in Hup.
  cbn [mbind option_bind] in Hup.
  destruct (Update_sets_ring store_q pool0 now _ "some key"
              eq_refl eq_refl ltac:(reflexivity) Hup)
    as (pool' & Hpool & _ & Hself & _ & Hpick).
  eexists _, pool'. split; [exact Hup|]. split; [exact Hpool|].
  split; [exact Hself|]. apply Hpick. vm_compute. discriminate.
Defined.

End PeerExamples.

(** *** Loads and hits on concrete groups *)

Section LoadExamples.
Local Abbreviation Gets_in_turn := Gets (only parsing).
Import golang lru byteview sinks groupcache.

(** A group of budget 64 without peers, whose loader answers
    ["v:" ++ key]. *)
Definition group64 : Group stringSink :=
  newGroup "G" 64 echo_getter NoPeers (λ _, 1).

Lemma newGroup_within n budget (gt : Getter stringSink) pk rnd :
  within (newGroup n budget gt pk rnd).
Proof. unfold within, cache_total. simpl. lia. Qed.

Lemma newGroup_uncached n budget (gt : Getter stringSink) pk rnd k :
  uncached (newGroup n budget gt pk rnd) k.
Proof. intros _. split; apply not_elem_of_empty. Qed.

(** The same group once the value of ["k"] is in the main segment. *)
Definition view_vk : ByteView := {| b := None; s := "v:k" |}.

Definition warm : Group stringSink :=
  default group64 (populateCache 2 group64 "k" view_vk MainCache).

Lemma warm_ok :
  group_ok warm ∧ 0 < cacheBytes warm
  ∧ cache_entries (mainCache warm) = [mkEntry "k" view_vk].
Proof.
  destruct (populateCache_safe 2 group64 "k" view_vk MainCache)
    as (g' & Hpop & Hok & _ & Hfr & _ & Hroom).
  - apply group_ok_newGroup.
  - apply newGroup_within.
  - intros _. apply not_elem_of_empty.
  - vm_compute. discriminate.
  - simpl. lia.
  - unfold warm. rewrite Hpop. simpl. split; [exact Hok|].
    destruct Hfr as (_ & _ & _ & Hcb & _). rewrite Hcb.
    split; [reflexivity|].
    apply Hroom; [reflexivity|vm_compute; discriminate].
Qed.

Lemma Get_cache_hit_witness :
  ∃ g', Get 0 warm "k" (Some sink0)
        = Some (g', Some {| sp := "v:k"; ss_v := view_vk |}, None)
        ∧ stats g' = Stats_Add cCacheHits 1 (Stats_Add cGets 1 (stats warm)).
Proof.
  destruct (Get_cache_hit 0 warm "k" sink0 view_vk)
    as (g' & Hget & Hs & _).
  - apply warm_ok.
  - apply warm_ok.
  - left. rewrite (proj2 (proj2 warm_ok)). apply elem_of_cons. by left.
  - exists g'. split; [exact Hget|exact Hs].
Defined.

Lemma Get_load_then_hit_witness :
  ∃ g' g'',
    Get 2 group64 "k" (Some sink0)
    = Some (g', Some {| sp := "v:k"; ss_v := view_vk |}, None)
    ∧ stats g' = Stats_Add cLocalLoads 1 (load_begun (stats group64))
    ∧ Get 2 g' "k" (Some sink0)
      = Some (g'', Some {| sp := "v:k"; ss_v := view_vk |}, None)
    ∧ stats g'' = Stats_Add cCacheHits 1 (Stats_Add cGets 1 (stats g')).
Proof.
  destruct (Get_load_then_hit 2 group64 "k" sink0
              {| sp := "v:k"; ss_v := view_vk |} view_vk sink0)
    as (g' & g'' & Hg1 & Hs1 & Hg2 & Hs2).
  - apply group_ok_newGroup.
  - apply newGroup_within.
  - apply newGroup_uncached.
  - reflexivity.
  - reflexivity.
  - reflexivity.
  - reflexivity.
  - vm_compute. discriminate.
  - vm_compute. discriminate.
  - simpl. lia.
  - exists g', g''. split; [exact Hg1|]. split; [exact Hs1|].
    split; [exact Hg2|exact Hs2].
Defined.

(** A peer that answers the bytes of ["remote"], the picker that names it
    for every key, and a group whose draws are all 0. *)
Definition answering_peer : ProtoGetter :=
  λ _ _, (Some (bytes_of_string "remote"), None).

Definition answering_picker : PeerPicker := λ _, Some answering_peer.

Definition group_remote : Group stringSink :=
  newGroup "G" 64 echo_getter answering_picker (λ _, 0).

Lemma Get_from_peer_witness :
  let value := {| b := Some (bytes_of_string "remote"); s := EmptyString |} in
  ∃ g', Get 2 group_remote "k" (Some sink0)
        = Some (g', Some {| sp := "remote";
                            ss_v := {| b := None; s := "remote" |} |}, None)
        ∧ stats g' = Stats_Add cPeerLoads 1 (load_begun (stats group_remote))
        ∧ cache_entries (hotCache g') = [mkEntry "k" value]
        ∧ cache_entries (mainCache g') = [].
Proof.
  intros value.
  destruct (Get_from_peer 2 group_remote "k" sink0 answering_peer
              (Some (bytes_of_string "remote")))
    as (g' & Hget & Hs & _ & Hz).
  - apply group_ok_newGroup.
  - apply newGroup_within.
  - apply newGroup_uncached.
  - reflexivity.
  - reflexivity.
  - vm_compute. discriminate.
  - simpl. lia.
  - exists g'. split; [exact Hget|]. split; [exact Hs|].
    apply Hz; [reflexivity|reflexivity|vm_compute; discriminate].
Defined.

(** A group of budget 8, which holds two of the values of its loader. *)
Definition group8 : Group stringSink :=
  newGroup "G" 8 echo_getter NoPeers (λ _, 1).

Lemma group8_load_bounded k :
  (strlen k <= 100) → load_bounded group8 k.
Proof.
  intros Hk. split.
  - intros d d1 value Hg Hv. simpl in Hg. unfold echo_getter in Hg.
    simpl in Hg. unfold stringSink_SetString in Hg. injection Hg as <-.
    simpl in Hv. injection Hv as <-.
    unfold Len, strlen in *. cbn [b s].
    change ("v:" ++ k)%string with (String.String "v" (String.String ":" k)).
    cbn [String.length]. unfold MaxInt64.
    change (cacheBytes group8) with 8. lia.
  - intros peer rv Hp. discriminate Hp.
Qed.

Lemma Gets_keep_budget_witness :
  ∃ g', Gets_in_turn 6 group8
          [("a", Some sink0); ("b", Some sink0); ("a", Some sink0);
           ("c", Some sink0); ("a", None)]
        = Some g'
        ∧ group_ok g' ∧ within g'
        ∧ (∀ which,
             let st := cache_stats (get_cache g' which) in
             cs_Bytes st = cache_total (get_cache g' which)
             ∧ cs_Items st = len (cache_entries (get_cache g' which)))
        ∧ (0 < cacheBytes group8 →
           cs_Bytes (cache_stats (mainCache g'))
             + cs_Bytes (cache_stats (hotCache g')) <= cacheBytes group8).
Proof.
  apply (Gets_keep_budget 6
           [("a", Some sink0); ("b", Some sink0); ("a", Some sink0);
            ("c", Some sink0); ("a", None)] group8).
  - apply group_ok_newGroup.
  - apply newGroup_within.
  - repeat constructor; apply group8_load_bounded; vm_compute; discriminate.
  - simpl. lia.
Defined.

End LoadExamples.
